(** * Sysrepo module data routines (src/lyd_mods.c)

    A shallow embedding of the module registry, the dependency analyzer,
    the schedule manager and the apply engine of [lyd_mods.c].

    Conventions of the embedding:
    - the registry tree ([struct lyd_node *sr_mods]) is the list of the
      list entries of [sysrepo-modules], each with its kind, its key
      [name] and its other children in document order; a node created by
      [lyd_new_term], [lyd_new_inner], [lyd_new_list] or [lyd_new_path]
      becomes the last child of its parent;
    - libyang and the files of the repository are collaborators: their
      operations are the fields of the classes [SchemaEngine] and
      [Datastore];
    - a function returning [sr_error_info_t *] returns [res A]: [Ok] for
      [NULL], [Err] for an error, and [Abort] where an [assert] of the
      source is violated (assertions are enabled, as in the default
      build; a violated one aborts the process);
    - the libyang tree constructors, [lyd_find_xpath] and [asprintf] are
      total: allocation failure is not modelled;
    - the log is modelled where the apply engine reports through it. *)

From Stdlib Require Import String List Bool Arith Lia Ascii.
From Stdlib Require Import ZArith DecimalString.
Import ListNotations.
Open Scope string_scope.
Open Scope list_scope.
Open Scope nat_scope.

Set Implicit Arguments.
Set Warnings "-register-all".

(** ** Errors and results *)

Inductive sr_error : Type :=
| SR_ERR_INTERNAL
| SR_ERR_LY
| SR_ERR_SYS
| SR_ERR_NOT_FOUND
| SR_ERR_EXISTS
| SR_ERR_OPERATION_FAILED.

(** [sr_error_info_t]: the errors collected so far, oldest first. *)
Definition sr_error_info : Type := list (sr_error * string).

Inductive res (A : Type) : Type :=
| Ok (a : A)
| Err (e : sr_error_info)
| Abort.
Arguments Ok {A} a.
Arguments Err {A} e.
Arguments Abort {A}.

Definition bind {A B : Type} (c : res A) (k : A -> res B) : res B :=
  match c with
  | Ok a => k a
  | Err e => Err e
  | Abort => Abort
  end.

Notation "x <- c ;; k" := (bind c (fun x => k))
  (at level 61, c at next level, right associativity).
Notation "' pat <- c ;; k" := (bind c (fun x => match x with pat => k end))
  (at level 61, pat pattern, c at next level, right associativity).

(** [assert(b)] *)
Definition assert (b : bool) : res unit := if b then Ok tt else Abort.

(** The double quote of the C format strings. *)
Definition dq : string := String (ascii_of_nat 34) EmptyString.
Definition quoted (s : string) : string := dq ++ s ++ dq.

(** [sr_errinfo_new_ly]: the error is the schema engine's. *)
Definition sr_errinfo_new_ly : sr_error_info := [(SR_ERR_LY, "libyang error")].
(** [SR_ERRINFO_INT] *)
Definition SR_ERRINFO_INT : sr_error_info := [(SR_ERR_INTERNAL, "Internal error")].
(** [sr_errinfo_new(&err_info, code, NULL, msg)] on an empty [err_info]. *)
Definition sr_errinfo_new (code : sr_error) (msg : string) : sr_error_info :=
  [(code, msg)].

Section FoldRes.
Context {A S : Type}.
Variable f : S -> A -> res S.

(** A loop over [l] that an error ends. *)
Fixpoint fold_res (l : list A) (s : S) : res S :=
  match l with
  | [] => Ok s
  | a :: l' => s' <- f s a ;; fold_res l' s'
  end.
End FoldRes.

(** ** Compiled schema nodes *)

Inductive lys_nodetype : Type :=
| LYS_CONTAINER | LYS_CHOICE | LYS_LEAF | LYS_LEAFLIST | LYS_LIST
| LYS_ANYXML | LYS_ANYDATA | LYS_CASE | LYS_RPC | LYS_ACTION | LYS_NOTIF
| LYS_OTHER.

(** [nodetype & (LYS_RPC | LYS_ACTION | LYS_NOTIF)] *)
Definition is_op (t : lys_nodetype) : bool :=
  match t with LYS_RPC | LYS_ACTION | LYS_NOTIF => true | _ => false end.
(** [nodetype & (LYS_ACTION | LYS_NOTIF)] *)
Definition is_action_or_notif (t : lys_nodetype) : bool :=
  match t with LYS_ACTION | LYS_NOTIF => true | _ => false end.
(** [nodetype & (LYS_RPC | LYS_ACTION)] *)
Definition is_rpc_or_action (t : lys_nodetype) : bool :=
  match t with LYS_RPC | LYS_ACTION => true | _ => false end.

(** What the analyzer reads of a [struct lys_module] through a node's
    [module] pointer. *)
Record lys_module_hdr : Type := {
  mod_name : string;
  mod_revision : option string;
  mod_implemented : bool
}.

Definition opt_string_eqb (a b : option string) : bool :=
  match a, b with
  | Some x, Some y => String.eqb x y
  | None, None => true
  | _, _ => false
  end.

(** Pointer equality of modules: a context holds one [struct lys_module]
    per name and revision. *)
Definition mod_eqb (a b : lys_module_hdr) : bool :=
  String.eqb (mod_name a) (mod_name b)
  && opt_string_eqb (mod_revision a) (mod_revision b).

(** [struct lyxp_expr *]: the expression, resolved by the schema engine. *)
Definition lyxp_expr : Type := string.

Inductive lysc_type : Type :=
| LY_TYPE_INST
| LY_TYPE_LEAFREF (path : lyxp_expr)
| LY_TYPE_UNION (types : list lysc_type)
| LY_TYPE_OTHER.

(** The fields of a compiled node, whatever its kind; a field a kind does
    not have is empty and never read for that kind. *)
Record lysc_info : Type := {
  nid : nat;                       (* the node's address *)
  nodetype : lys_nodetype;
  module : lys_module_hdr;
  data_path : string;              (* lysc_path(node, LYSC_PATH_DATA) *)
  disabled : bool;                 (* lysc_node_is_disabled(node, 0) *)
  type : option lysc_type;         (* leaf, leaf-list *)
  dflt : option lyxp_expr;         (* leaf: dflt->canonical_cache *)
  dflts : list lyxp_expr;          (* leaf-list *)
  when : list lyxp_expr;
  musts : list lyxp_expr;          (* also a notification's musts *)
  input_musts : list lyxp_expr;    (* RPC/action: input.musts *)
  output_musts : list lyxp_expr    (* RPC/action: output.musts *)
}.

(** A node as reached through [->parent]: itself and its ancestors. *)
Inductive lysc_node : Type :=
| Lysc_node (info : lysc_info) (parent : option lysc_node).

Definition node_info (n : lysc_node) : lysc_info :=
  match n with Lysc_node i _ => i end.
Definition node_parent (n : lysc_node) : option lysc_node :=
  match n with Lysc_node _ p => p end.

(** Pointer equality of nodes. *)
Definition node_eqb (a b : lysc_node) : bool :=
  Nat.eqb (nid (node_info a)) (nid (node_info b)).

(** A node as traversed downwards: [child] is what the traversal macro
    yields below the node (for an RPC or action the input data), and
    [output_child] the output data of an RPC or action. *)
Inductive lysc_tree : Type :=
| Lysc_tree (info : lysc_info) (child : list lysc_tree) (output_child : list lysc_tree).

Definition tree_info (t : lysc_tree) : lysc_info :=
  match t with Lysc_tree i _ _ => i end.
Definition tree_child (t : lysc_tree) : list lysc_tree :=
  match t with Lysc_tree _ c _ => c end.
Definition tree_output_child (t : lysc_tree) : list lysc_tree :=
  match t with Lysc_tree _ _ o => o end.

(** ** The registry tree *)

(** Children of a dependency container ([data-deps], [in], [out]). *)
Inductive dep_node : Type :=
| dep_module (value : string)
| dep_inst_id (xpath : string) (default_module : option string).

Definition sr_deps : Type := list dep_node.

(** Children of a [module] or [installed-module] list entry, after its key. *)
Inductive sr_mod_child : Type :=
| n_revision (value : string)
| n_enabled_feature (value : string)
| n_data_deps (deps : sr_deps)
| n_op_deps (xpath : string) (in_deps : option sr_deps) (out_deps : option sr_deps)
| n_inverse_data_deps (value : string)
| n_replay_support (value : string)
| n_removed
| n_updated_yang (value : string)
| n_changed_feature (name : string) (change : string)
| n_module_yang (value : string)
| n_data (value : string).

Inductive sr_mod_kind : Type := k_module | k_installed_module.

Record sr_mod : Type := {
  sm_kind : sr_mod_kind;
  sm_name : string;                (* SR_LY_CHILD_VALUE(sr_mod) *)
  sm_child : list sr_mod_child
}.

(** Children of the [sysrepo-modules] container. *)
Definition sr_mods_t : Type := list sr_mod.

Definition is_module (m : sr_mod) : bool :=
  match sm_kind m with k_module => true | k_installed_module => false end.
Definition is_installed_module (m : sr_mod) : bool := negb (is_module m).

Inductive sr_mod_dep_type : Type := SR_DEP_REF | SR_DEP_INSTID.

(** ** Dependency recording *)

(** Does the inverse dependency exist already? The loop of
    [sr_lydmods_add_inv_data_dep] over the children of [sr_mod]. *)
Fixpoint inv_data_dep_exists (children : list sr_mod_child) (inv_dep_mod : string) : bool :=
  match children with
  | [] => false
  | n_inverse_data_deps v :: rest =>
      if String.eqb v inv_dep_mod then true else inv_data_dep_exists rest inv_dep_mod
  | _ :: rest => inv_data_dep_exists rest inv_dep_mod
  end.

Definition sr_lydmods_add_inv_data_dep (sr_mod_ : sr_mod) (inv_dep_mod : string) : res sr_mod :=
  if inv_data_dep_exists (sm_child sr_mod_) inv_dep_mod then
    (* exists already *)
    Ok sr_mod_
  else
    Ok {| sm_kind := sm_kind sr_mod_; sm_name := sm_name sr_mod_;
          sm_child := sm_child sr_mod_ ++ [n_inverse_data_deps inv_dep_mod] |}.

(** [lyd_find_xpath(sr_deps, "module[.='%s']")]: the number of matches. *)
Definition count_dep_module (deps : sr_deps) (mod_name_ : string) : nat :=
  length (filter (fun d => match d with
                           | dep_module v => String.eqb v mod_name_
                           | _ => false
                           end) deps).

(** [lyd_find_xpath(sr_deps, "inst-id[xpath='%s']")]: the number of matches. *)
Definition count_dep_inst_id (deps : sr_deps) (path : string) : nat :=
  length (filter (fun d => match d with
                           | dep_inst_id x _ => String.eqb x path
                           | _ => false
                           end) deps).

Definition is_some {A : Type} (o : option A) : bool :=
  match o with Some _ => true | None => false end.

Definition sr_lydmods_moddep_add (deps : sr_deps) (dep_type : sr_mod_dep_type)
    (mod_name_ : option string) (node : option lysc_node) : res sr_deps :=
  _ <- assert (match dep_type with
               | SR_DEP_REF => is_some mod_name_
               | SR_DEP_INSTID => is_some node
               end) ;;
  match dep_type, mod_name_, node with
  | SR_DEP_REF, Some m, _ =>
      let count := count_dep_module deps m in
      if 1 <? count then Err SR_ERRINFO_INT
      else if 0 <? count then Ok deps        (* already exists *)
      else Ok (deps ++ [dep_module m])
  | SR_DEP_INSTID, _, Some n =>
      match nodetype (node_info n) with
      | LYS_LEAF | LYS_LEAFLIST | LYS_CONTAINER | LYS_LIST
      | LYS_ANYDATA | LYS_ANYXML | LYS_NOTIF =>
          (* data-instantiable nodes, we are fine *)
          let path := data_path (node_info n) in
          let count := count_dep_inst_id deps path in
          if 1 <? count then Err SR_ERRINFO_INT
          else if 0 <? count then Ok deps    (* already exists *)
          else Ok (deps ++ [dep_inst_id path mod_name_])
      | LYS_CHOICE | LYS_CASE =>
          (* assert(dep_type != SR_DEP_INSTID) *)
          Abort
      | _ => Err SR_ERRINFO_INT
      end
  | _, _, _ => Abort
  end.

(** ** Foreign atoms *)

(** [while (atom->parent && (atom != top_node)) atom = atom->parent;] *)
Fixpoint atom_walk_up (atom top_node : lysc_node) : lysc_node :=
  match atom with
  | Lysc_node _ (Some p) =>
      if node_eqb atom top_node then atom else atom_walk_up p top_node
  | Lysc_node _ None => atom
  end.

(** The statements of [sr_lydmods_moddep_expr_atom_is_foreign] after its
    assertion. *)
Definition atom_is_foreign_body (atom top_node : lysc_node) : option lys_module_hdr :=
  let atom := atom_walk_up atom top_node in
  if node_eqb atom top_node then
    (* shared parent, local node *)
    None
  else if is_op (nodetype (node_info top_node)) then
    (* outside operation, foreign node *)
    Some (module (node_info atom))
  else if negb (mod_eqb (module (node_info atom)) (module (node_info top_node))) then
    (* foreign top-level node module (so cannot be augment), foreign node *)
    Some (module (node_info atom))
  else
    (* same top-level modules, local node *)
    None.

Definition sr_lydmods_moddep_expr_atom_is_foreign (atom top_node : lysc_node)
    : res (option lys_module_hdr) :=
  (* assert(atom && top_node && (top_node->parent
       || (top_node->nodetype & (LYS_RPC | LYS_ACTION | LYS_NOTIF)))) *)
  _ <- assert (is_some (node_parent top_node)
               || is_op (nodetype (node_info top_node))) ;;
  Ok (atom_is_foreign_body atom top_node).

(** [while (!(top_node->nodetype & (LYS_ACTION | LYS_NOTIF)) && top_node->parent)
       top_node = top_node->parent;] *)
Fixpoint expr_top_node (ctx_node : lysc_node) : lysc_node :=
  match ctx_node with
  | Lysc_node i (Some p) =>
      if is_action_or_notif (nodetype i) then ctx_node else expr_top_node p
  | Lysc_node _ None => ctx_node
  end.

(** ** The schema engine *)

(** [int lyxp_opt]: [0], [LYXP_SCNODE_SCHEMA] or [LYXP_SCNODE_OUTPUT]. *)
Inductive lyxp_opt : Type := LYXP_NONE | LYXP_SCNODE_SCHEMA | LYXP_SCNODE_OUTPUT.

(** [struct lys_module] with what the registry code reads of it:
    [compiled->features] (name, [LYS_FENABLED]), [compiled->data],
    [compiled->rpcs], [compiled->notifs], [parsed->imports[].module] and,
    per include, [submodule->imports[].module]. *)
Inductive lys_module : Type :=
| Lys_module (hdr : lys_module_hdr) (features : list (string * bool))
    (data rpcs notifs : list lysc_tree)
    (imports : list lys_module) (includes : list (list lys_module)).

Definition ly_hdr (m : lys_module) : lys_module_hdr :=
  match m with Lys_module h _ _ _ _ _ _ => h end.
Definition ly_name (m : lys_module) : string := mod_name (ly_hdr m).
Definition ly_revision (m : lys_module) : option string := mod_revision (ly_hdr m).
Definition ly_implemented (m : lys_module) : bool := mod_implemented (ly_hdr m).
Definition ly_features (m : lys_module) : list (string * bool) :=
  match m with Lys_module _ f _ _ _ _ _ => f end.
Definition ly_data (m : lys_module) : list lysc_tree :=
  match m with Lys_module _ _ d _ _ _ _ => d end.
Definition ly_rpcs (m : lys_module) : list lysc_tree :=
  match m with Lys_module _ _ _ r _ _ _ => r end.
Definition ly_notifs (m : lys_module) : list lysc_tree :=
  match m with Lys_module _ _ _ _ n _ _ => n end.
Definition ly_imports (m : lys_module) : list lys_module :=
  match m with Lys_module _ _ _ _ _ i _ => i end.
Definition ly_includes (m : lys_module) : list (list lys_module) :=
  match m with Lys_module _ _ _ _ _ _ i => i end.

(** The libyang calls of [lyd_mods.c] on schema contexts. A call that
    changes the context returns the context after the call; a call that
    changes a module returns the module as it is after the call. [None]
    is the failure of the call. *)
Class SchemaEngine : Type := {
  ly_ctx : Type;
  lys_parse_mem : ly_ctx -> string -> option (ly_ctx * lys_module);
  ly_ctx_load_module : ly_ctx -> string -> option string -> option (ly_ctx * lys_module);
  ly_ctx_get_module : ly_ctx -> string -> option string -> option lys_module;
  ly_ctx_get_module_implemented : ly_ctx -> string -> option lys_module;
  (* the modules of the context in the order of ly_ctx_get_module_iter *)
  ly_ctx_get_module_iter : ly_ctx -> list lys_module;
  ly_ctx_internal_module_count : ly_ctx -> nat;
  lys_feature_enable_force : ly_ctx -> lys_module -> string -> option (ly_ctx * lys_module);
  lys_feature_disable_force : ly_ctx -> lys_module -> string -> option (ly_ctx * lys_module);
  (* lys_atomize_xpath(ctx_node, expr, opt, &set), in the context that
     holds ctx_node *)
  lys_atomize_xpath : ly_ctx -> lysc_node -> lyxp_expr -> lyxp_opt -> option (list lysc_node);
  lys_print_mem : lys_module -> option string
}.

Section Analyzer.
Context {SE : SchemaEngine}.
Variable ctx : ly_ctx.

(** The body of the loop over the atoms in
    [sr_lydmods_moddep_expr_get_dep_mods]. *)
Definition dep_mods_add_atom (top_node : lysc_node) (dep_mods : list lys_module_hdr)
    (atom : lysc_node) : res (list lys_module_hdr) :=
  foreign <- sr_lydmods_moddep_expr_atom_is_foreign atom top_node ;;
  match foreign with
  | Some dep_mod =>
      (* check for duplicities *)
      if existsb (mod_eqb dep_mod) dep_mods then Ok dep_mods
      else Ok (dep_mods ++ [dep_mod])
  | None => Ok dep_mods
  end.

Definition sr_lydmods_moddep_expr_get_dep_mods (ctx_node : lysc_node) (expr : lyxp_expr)
    (opt : lyxp_opt) (dep_mods : list lys_module_hdr) : res (list lys_module_hdr) :=
  (* find out if we are in an operation, otherwise simply find top-level node *)
  let top_node := expr_top_node ctx_node in
  (* get all atoms of the XPath condition *)
  match lys_atomize_xpath ctx ctx_node expr opt with
  | None => Err sr_errinfo_new_ly
  | Some set => fold_res (dep_mods_add_atom top_node) set dep_mods
  end.

Fixpoint sr_lydmods_moddep_type (type_ : lysc_type) (node : lysc_node) (deps : sr_deps)
    {struct type_} : res sr_deps :=
  match type_ with
  | LY_TYPE_INST =>
      dep_mods <-
        match nodetype (node_info node), dflt (node_info node) with
        | LYS_LEAF, Some d =>
            dm <- sr_lydmods_moddep_expr_get_dep_mods node d LYXP_NONE [] ;;
            _ <- assert (length dm <? 2) ;;
            Ok dm
        | _, _ => Ok []
        end ;;
      sr_lydmods_moddep_add deps SR_DEP_INSTID
        (match dep_mods with m :: _ => Some (mod_name m) | [] => None end) (Some node)
  | LY_TYPE_LEAFREF path =>
      dep_mods <- sr_lydmods_moddep_expr_get_dep_mods node path LYXP_NONE [] ;;
      _ <- assert (length dep_mods <? 2) ;;
      match dep_mods with
      | m :: _ =>
          (* a foreign module is referenced *)
          sr_lydmods_moddep_add deps SR_DEP_REF (Some (mod_name m)) None
      | [] => Ok deps
      end
  | LY_TYPE_UNION types =>
      fold_res (fun d t => sr_lydmods_moddep_type t node d) types deps
  | LY_TYPE_OTHER => Ok deps      (* no dependency *)
  end.

(** "collect the dependencies" of [sr_lydmods_add_data_deps_r]: the type,
    then the when and must expressions into a fresh [dep_mods], then one
    reference per collected module. *)
Definition add_elem_deps (elem : lysc_node) (type_ : option lysc_type)
    (when_ musts_ : list lyxp_expr) (atom_opts : lyxp_opt) (deps : sr_deps) : res sr_deps :=
  deps1 <- match type_ with
           | Some t => sr_lydmods_moddep_type t elem deps
           | None => Ok deps
           end ;;
  dep_mods1 <- fold_res (fun dm e => sr_lydmods_moddep_expr_get_dep_mods elem e atom_opts dm)
                 when_ [] ;;
  dep_mods2 <- fold_res (fun dm e => sr_lydmods_moddep_expr_get_dep_mods elem e atom_opts dm)
                 musts_ dep_mods1 ;;
  (* add those collected from when and must *)
  fold_res (fun d m => sr_lydmods_moddep_add d SR_DEP_REF (Some (mod_name m)) None)
    dep_mods2 deps1.

(** [lyd_find_xpath(sr_mod, "op-deps[xpath='%s']")]: the number of matches. *)
Definition op_deps_match (path : string) (c : sr_mod_child) : bool :=
  match c with
  | n_op_deps x _ _ => String.eqb x path
  | _ => false
  end.
Definition count_op_deps (children : list sr_mod_child) (path : string) : nat :=
  length (filter (op_deps_match path) children).

Fixpoint update_nth {A : Type} (n : nat) (f : A -> A) (l : list A) : list A :=
  match l, n with
  | [], _ => []
  | a :: l', O => f a :: l'
  | a :: l', S n' => a :: update_nth n' f l'
  end.

Definition set_in_deps (d : sr_deps) (c : sr_mod_child) : sr_mod_child :=
  match c with n_op_deps x _ o => n_op_deps x (Some d) o | _ => c end.
Definition set_out_deps (d : sr_deps) (c : sr_mod_child) : sr_mod_child :=
  match c with n_op_deps x i _ => n_op_deps x i (Some d) | _ => c end.
Definition set_data_deps (d : sr_deps) (c : sr_mod_child) : sr_mod_child :=
  match c with n_data_deps _ => n_data_deps d | _ => c end.

(** The analyzer state: the children of the registry entry [sr_mod] and
    the dependency container [sr_deps] being filled. [sr_deps] points
    into [sr_mod]; the traversal only appends entries to the container and
    only appends [op-deps] siblings to [sr_mod], and looks [op-deps] up by
    their [xpath] alone, so the container is threaded as a value and is
    stored back into [sr_mod] when the traversal that fills it returns. *)
Definition deps_state : Type := (list sr_mod_child * sr_deps)%type.

(** The traversal of [sr_lydmods_add_data_deps_r] below [data_root] (the
    node with address [root]). [LYSC_TREE_DFS_BEGIN/END] visit the start
    node and its descendants in pre-order, the output data of an RPC or
    action after its input data, and not the siblings of the start node;
    [LYSC_TREE_DFS_continue = 1] skips the subtree of the visited node.
    A nested operation is handed to [sr_lydmods_add_op_deps], whose body
    is written out here so that the recursion is on the subtrees. *)
Section DfsNode.
(** The traversal of a subtree: [rec output root parent t st]. *)
Variable rec : bool -> nat -> option lysc_node -> lysc_tree -> deps_state -> res deps_state.
Variables (info : lysc_info) (parent : option lysc_node).
Variables (child output_child : list lysc_tree).

Let elem : lysc_node := Lysc_node info parent.

(** The nodes below [elem]. *)
Definition dfs_below (out : bool) (r : nat) (s : deps_state) : res deps_state :=
  s1 <- fold_res (fun s c => rec out r (Some elem) c s) child s ;;
  if is_rpc_or_action (nodetype info)
  then fold_res (fun s c => rec out r (Some elem) c s) output_child s1
  else Ok s1.

(** [elem] with the expressions the [switch] selected, then the nodes
    below it. *)
Definition dfs_visit (out : bool) (r : nat) (type_ : option lysc_type)
    (when_ musts_ : list lyxp_expr) (atom_opts : lyxp_opt) (s : deps_state) : res deps_state :=
  deps' <- add_elem_deps elem type_ when_ musts_ atom_opts (snd s) ;;
  dfs_below out r (fst s, deps').

(** [sr_lydmods_add_data_deps_r] on the first node of a side of an
    operation. *)
Definition dfs_first_of (out : bool) (l : list lysc_tree) (s : deps_state) : res deps_state :=
  match l with
  | c :: _ => rec out (nid (tree_info c)) (Some elem) c s
  | [] => Ok s
  end.

(** A nested RPC or action: the body of [sr_lydmods_add_op_deps]. *)
Definition dfs_op_deps_action (st : deps_state) : res deps_state :=
  let sr_mod_ := fst st in
  let count := count_op_deps sr_mod_ (data_path info) in
  if Nat.eqb count 1 then Ok st      (* already exists *)
  else
    _ <- assert (Nat.eqb count 0) ;;
    let i := length sr_mod_ in
    (* input *)
    s1 <- dfs_first_of false child
            (sr_mod_ ++ [n_op_deps (data_path info) (Some []) None], []) ;;
    (* output *)
    s2 <- dfs_first_of true output_child
            (update_nth i (fun c => set_out_deps [] (set_in_deps (snd s1) c)) (fst s1), []) ;;
    Ok (update_nth i (set_out_deps (snd s2)) (fst s2), snd st).

(** A nested notification: the body of [sr_lydmods_add_op_deps]. *)
Definition dfs_op_deps_notif (st : deps_state) : res deps_state :=
  let sr_mod_ := fst st in
  let count := count_op_deps sr_mod_ (data_path info) in
  if Nat.eqb count 1 then Ok st      (* already exists *)
  else
    _ <- assert (Nat.eqb count 0) ;;
    let i := length sr_mod_ in
    s1 <- dfs_visit false (nid info) None [] (musts info) LYXP_SCNODE_SCHEMA
            (sr_mod_ ++ [n_op_deps (data_path info) (Some []) None], []) ;;
    Ok (update_nth i (set_in_deps (snd s1)) (fst s1), snd st).

(** The body of the loop for the visited node [elem]. *)
Definition dfs_node (output : bool) (root : nat) (st : deps_state) : res deps_state :=
  (* skip disabled nodes *)
  if disabled info then Ok st
  else
    match nodetype info with
    | LYS_LEAF | LYS_LEAFLIST =>
        dfs_visit output root (type info) (when info) (musts info) LYXP_SCNODE_SCHEMA st
    | LYS_CONTAINER | LYS_LIST | LYS_ANYDATA | LYS_ANYXML =>
        dfs_visit output root None (when info) (musts info) LYXP_SCNODE_SCHEMA st
    | LYS_CHOICE | LYS_CASE =>
        dfs_visit output root None (when info) [] LYXP_SCNODE_SCHEMA st
    | LYS_RPC | LYS_ACTION =>
        if Nat.eqb (nid info) root then
          (* handling the specific RPC/action dependencies *)
          if output
          then dfs_visit output root None [] (input_musts info) LYXP_SCNODE_OUTPUT st
          else dfs_visit output root None [] (output_musts info) LYXP_SCNODE_SCHEMA st
        else
          (* operation, put the dependencies separately *)
          dfs_op_deps_action st
    | LYS_NOTIF =>
        if Nat.eqb (nid info) root then
          (* handling the specific notification dependencies *)
          dfs_visit output root None [] (musts info) LYXP_SCNODE_SCHEMA st
        else
          (* operation, put the dependencies separately *)
          dfs_op_deps_notif st
    | LYS_OTHER => Err SR_ERRINFO_INT
    end.
End DfsNode.

Fixpoint add_data_deps_dfs (output : bool) (root : nat) (parent : option lysc_node)
    (t : lysc_tree) (st : deps_state) {struct t} : res deps_state :=
  match t with
  | Lysc_tree info child output_child =>
      dfs_node add_data_deps_dfs info parent child output_child output root st
  end.

(** [sr_lydmods_add_data_deps_r(sr_mod, data_root, output, sr_deps)];
    [parent] is [data_root->parent]. *)
Definition sr_lydmods_add_data_deps_r (sr_mod_ : list sr_mod_child)
    (parent : option lysc_node) (data_root : lysc_tree) (output : bool) (deps : sr_deps)
    : res deps_state :=
  add_data_deps_dfs output (nid (tree_info data_root)) parent data_root (sr_mod_, deps).

(** [sr_lydmods_add_data_deps_r] on [act->input.data] or
    [act->output.data], which is [NULL] when the side has no data. *)
Definition add_data_deps_first (sr_mod_ : list sr_mod_child) (op : lysc_node)
    (side : list lysc_tree) (output : bool) (deps : sr_deps) : res deps_state :=
  match side with
  | c :: _ => sr_lydmods_add_data_deps_r sr_mod_ (Some op) c output deps
  | [] => Ok (sr_mod_, deps)
  end.

Definition sr_lydmods_add_op_deps (sr_mod_ : list sr_mod_child) (parent : option lysc_node)
    (op_root : lysc_tree) : res (list sr_mod_child) :=
  let info := tree_info op_root in
  _ <- assert (is_op (nodetype info)) ;;
  let count := count_op_deps sr_mod_ (data_path info) in
  if Nat.eqb count 1 then Ok sr_mod_         (* already exists *)
  else
    _ <- assert (Nat.eqb count 0) ;;
    let i := length sr_mod_ in
    let sr_mod1 := sr_mod_ ++ [n_op_deps (data_path info) (Some []) None] in
    match nodetype info with
    | LYS_NOTIF =>
        s1 <- sr_lydmods_add_data_deps_r sr_mod1 parent op_root false [] ;;
        Ok (update_nth i (set_in_deps (snd s1)) (fst s1))
    | LYS_RPC | LYS_ACTION =>
        let act := Lysc_node info parent in
        (* input *)
        s1 <- add_data_deps_first sr_mod1 act (tree_child op_root) false [] ;;
        (* output *)
        s2 <- add_data_deps_first
                (update_nth i (fun c => set_out_deps [] (set_in_deps (snd s1) c)) (fst s1))
                act (tree_output_child op_root) true [] ;;
        Ok (update_nth i (set_out_deps (snd s2)) (fst s2))
    | _ => Err SR_ERRINFO_INT
    end.

(** [lyd_find_xpath(sr_mods, "module[name='%s']")]: the positions of the
    matches among the children of [sysrepo-modules]. *)
Fixpoint find_module_from (i : nat) (l : sr_mods_t) (name : string) : list nat :=
  match l with
  | [] => []
  | m :: l' =>
      if is_module m && String.eqb (sm_name m) name
      then i :: find_module_from (S i) l' name
      else find_module_from (S i) l' name
  end.
Definition find_module (sr_mods : sr_mods_t) (name : string) : list nat :=
  find_module_from 0 sr_mods name.

(** [lyd_find_xpath(sr_mods, "installed-module[name='%s']")] *)
Fixpoint find_installed_from (i : nat) (l : sr_mods_t) (name : string) : list nat :=
  match l with
  | [] => []
  | m :: l' =>
      if is_installed_module m && String.eqb (sm_name m) name
      then i :: find_installed_from (S i) l' name
      else find_installed_from (S i) l' name
  end.
Definition find_installed_module (sr_mods : sr_mods_t) (name : string) : list nat :=
  find_installed_from 0 sr_mods name.

(** [lyd_find_xpath(sr_mod, "data-deps | op-deps")] is not empty. *)
Definition has_deps (children : list sr_mod_child) : bool :=
  existsb (fun c => match c with
                    | n_data_deps _ | n_op_deps _ _ _ => true
                    | _ => false
                    end) children.

(** [lyd_find_xpath(sr_mod, "data-deps/module")]: the values. *)
Definition data_deps_modules (children : list sr_mod_child) : list string :=
  flat_map (fun c => match c with
                     | n_data_deps d =>
                         flat_map (fun x => match x with
                                            | dep_module v => [v]
                                            | _ => []
                                            end) d
                     | _ => []
                     end) children.

Definition with_child (m : sr_mod) (children : list sr_mod_child) : sr_mod :=
  {| sm_kind := sm_kind m; sm_name := sm_name m; sm_child := children |}.

(** "add data, RPC, notif deps" of [sr_lydmods_add_all_deps]: the
    extraction over every top-level node of the compiled module. *)
Definition add_roots_deps (roots : list lysc_tree) (st : deps_state) : res deps_state :=
  fold_res (fun s root => sr_lydmods_add_data_deps_r (fst s) None root false (snd s))
    roots st.

Definition add_module_deps (ly_mod : lys_module) (st : deps_state) : res deps_state :=
  s1 <- add_roots_deps (ly_data ly_mod) st ;;
  s2 <- add_roots_deps (ly_rpcs ly_mod) s1 ;;
  add_roots_deps (ly_notifs ly_mod) s2.

(** [sr_lydmods_add_all_deps(sr_mod, ly_mod)], [sr_mod] being the child of
    [sr_mods] at position [i]. *)
Definition sr_lydmods_add_all_deps (sr_mods : sr_mods_t) (i : nat) (ly_mod : lys_module)
    : res sr_mods_t :=
  match nth_error sr_mods i with
  | None => Abort
  | Some sr_mod_ =>
      (* there can be no dependencies yet *)
      _ <- assert (negb (has_deps (sm_child sr_mod_))) ;;
      (* create new data deps *)
      let di := length (sm_child sr_mod_) in
      (* add data, RPC, notif deps *)
      s <- add_module_deps ly_mod (sm_child sr_mod_ ++ [n_data_deps []], []) ;;
      let children := update_nth di (set_data_deps (snd s)) (fst s) in
      let sr_mods1 := update_nth i (fun m => with_child m children) sr_mods in
      (* add inverse data deps *)
      fold_res (fun mods dep =>
                  (* find the dependent module *)
                  match find_module mods dep with
                  | [j] =>
                      match nth_error mods j with
                      | Some target =>
                          target' <- sr_lydmods_add_inv_data_dep target (sm_name sr_mod_) ;;
                          Ok (update_nth j (fun _ => target') mods)
                      | None => Abort
                      end
                  | _ => Abort      (* assert(set2->count == 1) *)
                  end)
        (data_deps_modules children) sr_mods1
  end.

(** *** The read-only check of the dependencies *)

Fixpoint sr_lydmods_moddep_check_type (type_ : lysc_type) (node : lysc_node)
    (dep_mods : list lys_module_hdr) {struct type_} : res (list lys_module_hdr) :=
  match type_ with
  | LY_TYPE_INST =>
      match nodetype (node_info node) with
      | LYS_LEAF =>
          match dflt (node_info node) with
          | Some d => sr_lydmods_moddep_expr_get_dep_mods node d LYXP_NONE dep_mods
          | None => Ok dep_mods
          end
      | LYS_LEAFLIST =>
          fold_res (fun dm d => sr_lydmods_moddep_expr_get_dep_mods node d LYXP_NONE dm)
            (dflts (node_info node)) dep_mods
      | _ => Ok dep_mods
      end
  | LY_TYPE_UNION types =>
      fold_res (fun dm t => sr_lydmods_moddep_check_type t node dm) types dep_mods
  | _ => Ok dep_mods      (* no dependency, leafref must be handled by libyang *)
  end.

(** One pass through [collect_deps:] of [sr_lydmods_check_deps_r]. *)
Definition check_elem_deps (elem : lysc_node) (type_ : option lysc_type)
    (when_ musts_ : list lyxp_expr) (atom_opts : lyxp_opt)
    (dep_mods : list lys_module_hdr) : res (list lys_module_hdr) :=
  dm1 <- match type_ with
         | Some t => sr_lydmods_moddep_check_type t elem dep_mods
         | None => Ok dep_mods
         end ;;
  dm2 <- fold_res (fun dm e => sr_lydmods_moddep_expr_get_dep_mods elem e atom_opts dm)
           when_ dm1 ;;
  fold_res (fun dm e => sr_lydmods_moddep_expr_get_dep_mods elem e atom_opts dm)
    musts_ dm2.

Fixpoint check_deps_dfs (parent : option lysc_node) (t : lysc_tree)
    (dep_mods : list lys_module_hdr) {struct t} : res (list lys_module_hdr) :=
  match t with
  | Lysc_tree info child output_child =>
    let elem := Lysc_node info parent in
    (* skip disabled nodes *)
    if disabled info then Ok dep_mods
    else
      dm <- match nodetype info with
            | LYS_LEAF | LYS_LEAFLIST =>
                check_elem_deps elem (type info) (when info) (musts info)
                  LYXP_SCNODE_SCHEMA dep_mods
            | LYS_CONTAINER | LYS_LIST | LYS_ANYDATA | LYS_ANYXML =>
                check_elem_deps elem None (when info) (musts info) LYXP_SCNODE_SCHEMA dep_mods
            | LYS_CHOICE | LYS_CASE =>
                check_elem_deps elem None (when info) [] LYXP_SCNODE_SCHEMA dep_mods
            | LYS_RPC | LYS_ACTION =>
                dm1 <- check_elem_deps elem None [] (input_musts info)
                         LYXP_SCNODE_SCHEMA dep_mods ;;
                (* collect deps for output as well *)
                check_elem_deps elem None [] (output_musts info) LYXP_SCNODE_OUTPUT dm1
            | LYS_NOTIF =>
                check_elem_deps elem None [] (musts info) LYXP_SCNODE_SCHEMA dep_mods
            | LYS_OTHER => Err SR_ERRINFO_INT
            end ;;
      dm1 <- fold_res (fun dm c => check_deps_dfs (Some elem) c dm) child dm ;;
      if is_rpc_or_action (nodetype info)
      then fold_res (fun dm c => check_deps_dfs (Some elem) c dm) output_child dm1
      else Ok dm1
  end.

(** [sr_lydmods_check_deps_r(root, dep_mods, dep_mod_count)] on a
    top-level node. *)
Definition sr_lydmods_check_deps_r (root : lysc_tree) (dep_mods : list lys_module_hdr)
    : res (list lys_module_hdr) :=
  check_deps_dfs None root dep_mods.

End Analyzer.

(** ** Data trees and datastore files *)

Inductive sr_datastore : Type := SR_DS_STARTUP | SR_DS_RUNNING.

(** The libyang calls on instance data and the sysrepo routines on the
    files of the datastores, the YANG files and the registry file. [files]
    is the content of the repository directory; a routine that writes
    returns the content after the call. A data tree pointer is an
    [option]: [None] is [NULL]. *)
Class Datastore (SE : SchemaEngine) : Type := {
  lyd_tree : Type;
  files : Type;
  sr_ly_ctx_new : res ly_ctx;
  (* lyd_print_mem(.., LYD_JSON, LYD_PRINT_WITHSIBLINGS) *)
  lyd_print_mem : option lyd_tree -> option string;
  (* lyd_parse_data_mem(ctx, json, LYD_JSON, .., 0, &tree); [strict] is
     LYD_PARSE_STRICT; the outer None is a failed parse *)
  lyd_parse_data_mem : ly_ctx -> string -> bool -> option (option lyd_tree);
  lyd_owner_module : lyd_tree -> lys_module;
  lyd_merge_siblings : lyd_tree -> lyd_tree -> option lyd_tree;
  (* lyd_validate_all(&tree, ctx, LYD_VALIDATE_NO_STATE, NULL): None is a
     failed validation, otherwise the tree after it *)
  lyd_validate_all : option lyd_tree -> ly_ctx -> option (option lyd_tree);
  (* sr_module_data_unlink(&data, ly_mod): the unlinked data and the rest *)
  sr_module_data_unlink : option lyd_tree -> lys_module -> option lyd_tree * option lyd_tree;
  sr_module_file_data_append : files -> lys_module -> sr_datastore -> option lyd_tree
                               -> res (option lyd_tree);
  (* sr_path_ds_shm(name, SR_DS_RUNNING, 1, &path), sr_file_exists(path) *)
  sr_running_file_exists : files -> string -> res bool;
  sr_module_file_data_set : files -> string -> sr_datastore -> option lyd_tree -> res files;
  sr_remove_data_files : files -> string -> res files;
  sr_remove_module_file : files -> string -> option string -> res files;
  sr_store_module_files : files -> lys_module -> res files;
  sr_create_startup_file : files -> lys_module -> res files;
  (* the registry file: lyd_parse_data_path, lyd_validate_module (None is a
     failed validation) and lyd_print_path *)
  lyd_parse_data_path : files -> ly_ctx -> option sr_mods_t;
  lyd_validate_module : sr_mods_t -> option sr_mods_t;
  (* the files after the call and whether it succeeded *)
  lyd_print_path : files -> sr_mods_t -> files * bool
}.

Inductive sr_log_level : Type := SR_LL_WRN | SR_LL_INF.
Definition sr_log : Type := list (sr_log_level * string).

(** ** The apply engine *)

Section Apply.
Context {SE : SchemaEngine} {DS : Datastore SE}.

(** The first [revision] child: the loop "learn about the module". *)
Fixpoint mod_revision_of (children : list sr_mod_child) : option string :=
  match children with
  | [] => None
  | n_revision v :: _ => Some v
  | _ :: rest => mod_revision_of rest
  end.

(** [lyd_find_xpath(sr_mod, "enabled-feature")]: the values. *)
Definition enabled_features (children : list sr_mod_child) : list string :=
  flat_map (fun c => match c with n_enabled_feature v => [v] | _ => [] end) children.

(** [lyd_find_xpath(sr_mod, "changed-feature")]: name and change. *)
Definition changed_features (children : list sr_mod_child) : list (string * string) :=
  flat_map (fun c => match c with n_changed_feature n c' => [(n, c')] | _ => [] end) children.

Definition has_removed (children : list sr_mod_child) : bool :=
  existsb (fun c => match c with n_removed => true | _ => false end) children.
Definition has_updated_yang (children : list sr_mod_child) : bool :=
  existsb (fun c => match c with n_updated_yang _ => true | _ => false end) children.

Definition sr_lydmods_check_all_deps (ctx : ly_ctx) (ly_mod : lys_module)
    (sr_mods : sr_mods_t) (fail : bool) (log : sr_log) : res (bool * sr_log) :=
  (* data, RPCs, notifs *)
  dm1 <- fold_res (fun dm root => sr_lydmods_check_deps_r ctx root dm) (ly_data ly_mod) [] ;;
  dm2 <- fold_res (fun dm root => sr_lydmods_check_deps_r ctx root dm) (ly_rpcs ly_mod) dm1 ;;
  dm3 <- fold_res (fun dm root => sr_lydmods_check_deps_r ctx root dm) (ly_notifs ly_mod) dm2 ;;
  (* check all the dependency modules *)
  fold_res (fun (fl : bool * sr_log) dep =>
              if mod_implemented dep then Ok fl
              else
                (* maybe it is scheduled to be installed? *)
                let count := length (find_installed_module sr_mods (mod_name dep)) in
                _ <- assert (count <? 2) ;;
                if Nat.eqb count 0 then
                  Ok (true, snd fl ++ [(SR_LL_WRN,
                        "Module " ++ quoted (ly_name ly_mod) ++ " depends on module "
                        ++ quoted (mod_name dep) ++ ", which is not implemented.")%string])
                else Ok fl)
    dm3 (fail, log).

(** The out-parameters of the context phases and the context they change. *)
Record apply_st : Type := {
  st_ctx : ly_ctx;
  st_change : bool;
  st_fail : bool;
  st_log : sr_log
}.

(** [lys_feature_enable_force] for every feature of the list, in order. *)
Fixpoint enable_features (ctx : ly_ctx) (ly_mod : lys_module) (feats : list string)
    : option (ly_ctx * lys_module) :=
  match feats with
  | [] => Some (ctx, ly_mod)
  | f :: rest =>
      match lys_feature_enable_force ctx ly_mod f with
      | None => None
      | Some (ctx', ly_mod') => enable_features ctx' ly_mod' rest
      end
  end.

(** [/sysrepo:sysrepo-modules/module/updated-yang]: each match with its
    parent. *)
Definition updated_yang_set (sr_mods : sr_mods_t) : list (sr_mod * string) :=
  flat_map (fun m => if is_module m
                     then flat_map (fun c => match c with
                                             | n_updated_yang v => [(m, v)]
                                             | _ => []
                                             end) (sm_child m)
                     else []) sr_mods.

Fixpoint update_modules_loop (sr_mods : sr_mods_t) (set : list (sr_mod * string))
    (st : apply_st) : res apply_st :=
  match set with
  | [] => Ok st
  | (sr_mod_, yang) :: rest =>
      (* load the updated module *)
      match lys_parse_mem (st_ctx st) yang with
      | None => Err sr_errinfo_new_ly
      | Some (ctx1, ly_mod) =>
          (* enable all the features *)
          match enable_features ctx1 ly_mod (enabled_features (sm_child sr_mod_)) with
          | None => Err sr_errinfo_new_ly
          | Some (ctx2, ly_mod2) =>
              (* check that all the dependant modules are implemented *)
              fl <- sr_lydmods_check_all_deps ctx2 ly_mod2 sr_mods (st_fail st) (st_log st) ;;
              if fst fl then
                Ok {| st_ctx := ctx2; st_change := st_change st;
                      st_fail := fst fl; st_log := snd fl |}
              else
                update_modules_loop sr_mods rest
                  {| st_ctx := ctx2; st_change := true;
                     st_fail := fst fl; st_log := snd fl |}
          end
      end
  end.

Definition sr_lydmods_sched_ctx_update_modules (sr_mods : sr_mods_t) (st : apply_st)
    : res apply_st :=
  update_modules_loop sr_mods (updated_yang_set sr_mods) st.

Definition sr_lydmods_ctx_load_module (sr_mod_ : sr_mod) (ctx : ly_ctx)
    : res (ly_ctx * lys_module) :=
  (* learn about the module *)
  let name := sm_name sr_mod_ in
  let revision := mod_revision_of (sm_child sr_mod_) in
  (* the module is not supposed to be loaded yet, but is in case of LY
     internal modules and dependency modules *)
  let loaded :=
    match ly_ctx_get_module ctx name revision with
    | Some m => if ly_implemented m then Some (ctx, m)
                else ly_ctx_load_module ctx name revision
    | None => ly_ctx_load_module ctx name revision
    end in
  match loaded with
  | None => Err sr_errinfo_new_ly
  | Some (ctx1, ly_mod) =>
      (* enable all the features *)
      match enable_features ctx1 ly_mod (enabled_features (sm_child sr_mod_)) with
      | None => Err sr_errinfo_new_ly
      | Some r => Ok r
      end
  end.

(** [sr_lydmods_ctx_load_modules(sr_mods, ly_ctx, removed, updated, change)];
    [change] is [None] for a [NULL] pointer. *)
Fixpoint sr_lydmods_ctx_load_modules (sr_mods : sr_mods_t) (ctx : ly_ctx)
    (removed updated : bool) (change : option bool) : res (ly_ctx * option bool) :=
  match sr_mods with
  | [] => Ok (ctx, change)
  | sr_mod_ :: rest =>
      if is_installed_module sr_mod_ then
        sr_lydmods_ctx_load_modules rest ctx removed updated change
      else if (negb removed && has_removed (sm_child sr_mod_))
              || (negb updated && has_updated_yang (sm_child sr_mod_)) then
        (* the module was removed or updated *)
        sr_lydmods_ctx_load_modules rest ctx removed updated
          (match change with Some _ => Some true | None => None end)
      else
        (* load the module *)
        r <- sr_lydmods_ctx_load_module sr_mod_ ctx ;;
        sr_lydmods_ctx_load_modules rest (fst r) removed updated change
  end.

(** "update the features" of [sr_lydmods_sched_ctx_change_features]. *)
Fixpoint change_features_of (ctx : ly_ctx) (ly_mod : lys_module)
    (set : list (string * string)) : res (ly_ctx * lys_module) :=
  match set with
  | [] => Ok (ctx, ly_mod)
  | (feat_name, change) :: rest =>
      let enable := String.eqb change "enable" in
      match (if enable then lys_feature_enable_force ctx ly_mod feat_name
             else lys_feature_disable_force ctx ly_mod feat_name) with
      | None => Err (sr_errinfo_new_ly ++ SR_ERRINFO_INT)
      | Some (ctx', ly_mod') => change_features_of ctx' ly_mod' rest
      end
  end.

(** "check that all module dependencies that import this module are
    implemented": the loop over the modules of the context; it stops at
    the first check that sets [fail]. *)
Fixpoint check_importers (ctx : ly_ctx) (ly_mod : lys_module) (sr_mods : sr_mods_t)
    (mods : list lys_module) (fail : bool) (log : sr_log) : res (bool * sr_log) :=
  match mods with
  | [] => Ok (fail, log)
  | imp_ly_mod :: rest =>
      if mod_eqb (ly_hdr imp_ly_mod) (ly_hdr ly_mod) || negb (ly_implemented imp_ly_mod) then
        check_importers ctx ly_mod sr_mods rest fail log
      else if negb (existsb (fun i => mod_eqb (ly_hdr i) (ly_hdr ly_mod))
                      (ly_imports imp_ly_mod)) then
        check_importers ctx ly_mod sr_mods rest fail log
      else
        fl <- sr_lydmods_check_all_deps ctx imp_ly_mod sr_mods fail log ;;
        if fst fl then Ok fl
        else check_importers ctx ly_mod sr_mods rest (fst fl) (snd fl)
  end.

Fixpoint change_features_loop (sr_mods : sr_mods_t) (l : sr_mods_t) (st : apply_st)
    : res apply_st :=
  match l with
  | [] => Ok st
  | sr_mod_ :: rest =>
      (* find all changed features of the particular module *)
      match changed_features (sm_child sr_mod_) with
      | [] => change_features_loop sr_mods rest st      (* no changed features *)
      | set =>
          (* get the module *)
          match ly_ctx_get_module_implemented (st_ctx st) (sm_name sr_mod_) with
          | None =>
              (* this can happen only if the module is also scheduled to be removed *)
              _ <- assert (has_removed (sm_child sr_mod_)) ;;
              change_features_loop sr_mods rest
                {| st_ctx := st_ctx st; st_change := st_change st; st_fail := st_fail st;
                   st_log := st_log st ++ [(SR_LL_WRN,
                     "Module " ++ quoted (sm_name sr_mod_)
                     ++ " is scheduled for both removal and feature changes, ignoring them."
                     )%string] |}
          | Some ly_mod =>
              (* update the features *)
              r <- change_features_of (st_ctx st) ly_mod set ;;
              (* check that all the dependant modules are implemented *)
              fl <- sr_lydmods_check_all_deps (fst r) (snd r) sr_mods (st_fail st) (st_log st) ;;
              if fst fl then
                Ok {| st_ctx := fst r; st_change := st_change st;
                      st_fail := fst fl; st_log := snd fl |}
              else
                fl2 <- check_importers (fst r) (snd r) sr_mods
                         (ly_ctx_get_module_iter (fst r)) (fst fl) (snd fl) ;;
                if fst fl2 then
                  Ok {| st_ctx := fst r; st_change := st_change st;
                        st_fail := fst fl2; st_log := snd fl2 |}
                else
                  change_features_loop sr_mods rest
                    {| st_ctx := fst r; st_change := true;
                       st_fail := fst fl2; st_log := snd fl2 |}
          end
      end
  end.

Definition sr_lydmods_sched_ctx_change_features (sr_mods : sr_mods_t) (st : apply_st)
    : res apply_st :=
  change_features_loop sr_mods sr_mods st.

(** [/sysrepo:sysrepo-modules/installed-module/module-yang]: the values. *)
Definition module_yang_set (sr_mods : sr_mods_t) : list string :=
  flat_map (fun m => if is_installed_module m
                     then flat_map (fun c => match c with
                                             | n_module_yang v => [v]
                                             | _ => []
                                             end) (sm_child m)
                     else []) sr_mods.

(** [lyd_find_xpath(set->dnodes[i], "enabled-feature")] and
    [SR_LY_CHILD_VALUE(set->dnodes[i])] in
    [sr_lydmods_sched_ctx_install_modules]: the context node is the
    [module-yang] leaf itself (not its parent, as in
    [sr_lydmods_sched_ctx_update_modules]), and a leaf has no children:
    no feature is found, and the name in the warning is not that of a
    child. *)
Definition module_yang_enabled_features : list string := [].
Definition module_yang_child_value : string := "".

Fixpoint install_modules_loop (sr_mods : sr_mods_t) (set : list string) (st : apply_st)
    : res apply_st :=
  match set with
  | [] => Ok st
  | yang :: rest =>
      (* load the new module, it can still fail on, for example, duplicate namespace *)
      match lys_parse_mem (st_ctx st) yang with
      | None =>
          Ok {| st_ctx := st_ctx st; st_change := st_change st; st_fail := true;
                st_log := st_log st ++
                  [(SR_LL_WRN, "libyang error");
                   (SR_LL_WRN, "Installing module " ++ quoted module_yang_child_value
                               ++ " failed.")%string] |}
      | Some (ctx1, ly_mod) =>
          (* enable all the features *)
          match enable_features ctx1 ly_mod module_yang_enabled_features with
          | None => Err sr_errinfo_new_ly
          | Some (ctx2, ly_mod2) =>
              (* check that all the dependant modules are implemented *)
              fl <- sr_lydmods_check_all_deps ctx2 ly_mod2 sr_mods (st_fail st) (st_log st) ;;
              if fst fl then
                Ok {| st_ctx := ctx2; st_change := st_change st;
                      st_fail := fst fl; st_log := snd fl |}
              else
                install_modules_loop sr_mods rest
                  {| st_ctx := ctx2; st_change := true;
                     st_fail := fst fl; st_log := snd fl |}
          end
      end
  end.

Definition sr_lydmods_sched_ctx_install_modules (sr_mods : sr_mods_t) (st : apply_st)
    : res apply_st :=
  install_modules_loop sr_mods (module_yang_set sr_mods) st.

(** [/sysrepo:sysrepo-modules/module[removed]] *)
Definition removed_set (sr_mods : sr_mods_t) : sr_mods_t :=
  filter (fun m => is_module m && has_removed (sm_child m)) sr_mods.

(** Is the removed module still implemented in the new context? *)
Definition removed_still_implemented (new_ctx : ly_ctx) (sr_mod_ : sr_mod) : bool :=
  match ly_ctx_get_module new_ctx (sm_name sr_mod_) (mod_revision_of (sm_child sr_mod_)) with
  | Some ly_mod => ly_implemented ly_mod
  | None => false
  end.

Fixpoint check_removed_loop (new_ctx : ly_ctx) (set : sr_mods_t) (fail : bool) (log : sr_log)
    : bool * sr_log :=
  match set with
  | [] => (fail, log)
  | sr_mod_ :: rest =>
      if removed_still_implemented new_ctx sr_mod_ then
        (* this module cannot be removed;
           we failed, do not apply any scheduled changes *)
        (true, log ++ [(SR_LL_WRN,
            "Cannot remove module " ++ quoted (sm_name sr_mod_)
            ++ " because some other installed module depends on it.")%string])
      else check_removed_loop new_ctx rest fail log
  end.

Definition sr_lydmods_sched_check_removed_modules (sr_mods : sr_mods_t) (st : apply_st)
    : res apply_st :=
  (* find all removed modules, check that they are not implemented in the
     new context *)
  let fl := check_removed_loop (st_ctx st) (removed_set sr_mods) (st_fail st) (st_log st) in
  Ok {| st_ctx := st_ctx st; st_change := st_change st;
        st_fail := fst fl; st_log := snd fl |}.

(** *** Data compatibility *)

(** "parse all the startup/running data using the old context": the loop
    over the modules of the old context. The state is the old startup
    data, the old running data and the modules remembered from the new
    context. *)
Fixpoint old_data_loop (fs : files) (new_ctx : ly_ctx) (mods : list lys_module)
    (acc : option lyd_tree * option lyd_tree * list lys_module)
    : res (option lyd_tree * option lyd_tree * list lys_module) :=
  match mods with
  | [] => Ok acc
  | ly_mod :: rest =>
      if negb (ly_implemented ly_mod) then
        (* we need data of only implemented modules *)
        old_data_loop fs new_ctx rest acc
      else
        let '(old_start_data, old_run_data, set) := acc in
        (* append startup data *)
        start' <- sr_module_file_data_append fs ly_mod SR_DS_STARTUP old_start_data ;;
        (* check that running data file exists *)
        exists_ <- sr_running_file_exists fs (ly_name ly_mod) ;;
        run' <- (if exists_ : bool
                 then sr_module_file_data_append fs ly_mod SR_DS_RUNNING old_run_data
                 else Ok old_run_data) ;;
        (* remember this module from the new context *)
        let set' := match ly_ctx_get_module_implemented new_ctx (ly_name ly_mod) with
                    | Some m => set ++ [m]
                    | None => set        (* the module was removed *)
                    end in
        old_data_loop fs new_ctx rest (start', run', set')
  end.

(** [lyd_find_xpath(sr_mods, "installed-module/data")]: the values. *)
Definition startup_data_set (sr_mods : sr_mods_t) : list string :=
  flat_map (fun m => if is_installed_module m
                     then flat_map (fun c => match c with n_data v => [v] | _ => [] end)
                            (sm_child m)
                     else []) sr_mods.

(** "check that any startup data can be loaded and are valid": the loop
    over the seed data of the staged modules. *)
Fixpoint seed_data_loop (new_ctx : ly_ctx) (set : list string)
    (acc : option lyd_tree * option lyd_tree * list lys_module)
    : res (option lyd_tree * option lyd_tree * list lys_module) :=
  match set with
  | [] => Ok acc
  | json :: rest =>
      (* this was parsed before *)
      match lyd_parse_data_mem new_ctx json true with
      | Some (Some mod_data) =>
          let '(new_start_data, new_run_data, mods) := acc in
          (* remember this module *)
          let mods' := mods ++ [lyd_owner_module mod_data] in
          (* link to the new startup/running data *)
          match (match new_start_data with
                 | None => Some mod_data       (* lyd_dup_siblings *)
                 | Some d => lyd_merge_siblings d mod_data
                 end),
                (match new_run_data with
                 | None => Some mod_data
                 | Some d => lyd_merge_siblings d mod_data
                 end) with
          | Some s, Some r => seed_data_loop new_ctx rest (Some s, Some r, mods')
          | _, _ => Err sr_errinfo_new_ly
          end
      | _ => seed_data_loop new_ctx rest acc
      end
  end.

(** "print all modules data with the updated module context" *)
Fixpoint print_data_loop (fs : files) (set : list lys_module)
    (new_start_data new_run_data : option lyd_tree) : res files :=
  match set with
  | [] => Ok fs
  | ly_mod :: rest =>
      (* startup data *)
      let (mod_start, start_rest) := sr_module_data_unlink new_start_data ly_mod in
      fs1 <- sr_module_file_data_set fs (ly_name ly_mod) SR_DS_STARTUP mod_start ;;
      (* running data *)
      let (mod_run, run_rest) := sr_module_data_unlink new_run_data ly_mod in
      fs2 <- sr_module_file_data_set fs1 (ly_name ly_mod) SR_DS_RUNNING mod_run ;;
      print_data_loop fs2 rest start_rest run_rest
  end.

(** The error added at [cleanup:] of [sr_lydmods_sched_update_data]. *)
Definition update_data_failed {A : Type} (r : res A) : res A :=
  match r with
  | Err e => Err (e ++ sr_errinfo_new SR_ERR_OPERATION_FAILED
                         "Failed to update data for the new context.")
  | _ => r
  end.

Definition set_fail_ly (st : apply_st) : apply_st :=
  {| st_ctx := st_ctx st; st_change := st_change st; st_fail := true;
     st_log := st_log st ++ [(SR_LL_WRN, "libyang error")] |}.

Definition sr_lydmods_sched_update_data (sr_mods : sr_mods_t) (fs : files) (st : apply_st)
    : res (files * apply_st) :=
  let new_ctx := st_ctx st in
  update_data_failed (
    (* first build context without any scheduled changes *)
    old_ctx0 <- sr_ly_ctx_new ;;
    old <- sr_lydmods_ctx_load_modules sr_mods old_ctx0 true true None ;;
    let old_ctx := fst old in
    (* parse all the startup/running data using the old context *)
    acc <- old_data_loop fs new_ctx (ly_ctx_get_module_iter old_ctx) (None, None, []) ;;
    let '(old_start_data, old_run_data, set) := acc in
    (* print the data of all the modules into JSON *)
    match lyd_print_mem old_start_data, lyd_print_mem old_run_data with
    | Some start_data_json, Some run_data_json =>
        (* try to load it into the new updated context skipping any unknown nodes *)
        match lyd_parse_data_mem new_ctx start_data_json false with
        | None =>
            (* it failed, some of the scheduled changes are not compatible
               with the stored data, abort them all *)
            Ok (fs, set_fail_ly st)
        | Some new_start_data =>
            match lyd_parse_data_mem new_ctx run_data_json false with
            | None => Ok (fs, set_fail_ly st)
            | Some new_run_data =>
                (* check that any startup data can be loaded and are valid *)
                acc2 <- seed_data_loop new_ctx (startup_data_set sr_mods)
                          (new_start_data, new_run_data, set) ;;
                let '(new_start_data1, new_run_data1, set1) := acc2 in
                (* fully validate complete startup and running datastore *)
                match lyd_validate_all new_start_data1 new_ctx with
                | None => Ok (fs, set_fail_ly st)
                | Some new_start_data2 =>
                    match lyd_validate_all new_run_data1 new_ctx with
                    | None => Ok (fs, set_fail_ly st)
                    | Some new_run_data2 =>
                        (* print all modules data with the updated module context *)
                        fs' <- print_data_loop fs set1 new_start_data2 new_run_data2 ;;
                        Ok (fs', st)
                    end
                end
            end
        end
    | _, _ => Err sr_errinfo_new_ly
    end).

(** *** Commit *)

(** The registry, the files and the log during "update LY sysrepo data". *)
Record commit_st : Type := {
  c_mods : sr_mods_t;
  c_files : files;
  c_log : sr_log
}.

Definition log_inf (st : commit_st) (msg : string) : commit_st :=
  {| c_mods := c_mods st; c_files := c_files st; c_log := c_log st ++ [(SR_LL_INF, msg)] |}.

(** [sr_lydmods_add_module(sr_mods, ly_mod, &sr_mod)]: the new list entry
    becomes the last child of [sr_mods]. *)
Definition sr_lydmods_add_module (sr_mods : sr_mods_t) (ly_mod : lys_module) : sr_mods_t :=
  sr_mods ++
  [{| sm_kind := k_module; sm_name := ly_name ly_mod;
      sm_child :=
        (match ly_revision ly_mod with Some r => [n_revision r] | None => [] end)
        (* enable all the features *)
        ++ map n_enabled_feature
             (map fst (filter (fun f : string * bool => snd f) (ly_features ly_mod))) |}].

Fixpoint sr_lydmods_add_module_with_imps_r (ly_mod : lys_module) (log_first : nat)
    (st : commit_st) {struct ly_mod} : res commit_st :=
  match ly_mod with
  | Lys_module hdr _ _ _ _ imports includes =>
    fs1 <- sr_store_module_files (c_files st) ly_mod ;;
    r <- (if mod_implemented hdr then
            (* check the module was not already added *)
            match find_module (c_mods st) (mod_name hdr) with
            | [] =>
                (* install the module and create its startup data file *)
                fs2 <- sr_create_startup_file fs1 ly_mod ;;
                let st1 := {| c_mods := sr_lydmods_add_module (c_mods st) ly_mod;
                              c_files := fs2; c_log := c_log st |} in
                if Nat.eqb log_first 2 then
                  (* the rest of the modules will be dependencies *)
                  Ok (log_inf st1 ("Module " ++ quoted (mod_name hdr) ++ " was installed."), 1)
                else if Nat.eqb log_first 1 then
                  Ok (log_inf st1 ("Dependency module " ++ quoted (mod_name hdr)
                                   ++ " was installed."), log_first)
                else Ok (st1, log_first)
            | _ =>
                (* module has already been added *)
                Ok ({| c_mods := c_mods st; c_files := fs1; c_log := c_log st |}, log_first)
            end
          else Ok ({| c_mods := c_mods st; c_files := fs1; c_log := c_log st |}, log_first)) ;;
    let log_first' := snd r in
    (* all newly implemented modules will be added also from imports and
       includes, recursively *)
    st2 <- (fix imps (l : list lys_module) (s : commit_st) : res commit_st :=
              match l with
              | [] => Ok s
              | i :: l' => s' <- sr_lydmods_add_module_with_imps_r i log_first' s ;; imps l' s'
              end) imports (fst r) ;;
    (fix incs (ll : list (list lys_module)) (s : commit_st) : res commit_st :=
       match ll with
       | [] => Ok s
       | submod_imports :: ll' =>
           s' <- (fix imps (l : list lys_module) (s : commit_st) : res commit_st :=
                    match l with
                    | [] => Ok s
                    | i :: l' =>
                        s' <- sr_lydmods_add_module_with_imps_r i log_first' s ;; imps l' s'
                    end) submod_imports s ;;
           incs ll' s'
       end) includes st2
  end.

Fixpoint remove_nth {A : Type} (n : nat) (l : list A) : list A :=
  match l, n with
  | [], _ => []
  | _ :: l', O => l'
  | a :: l', S n' => a :: remove_nth n' l'
  end.

(** [sr_lydmods_sched_finalize_module_remove(sr_mod, new_ctx, update)],
    [sr_mod] being the child of [sr_mods] at position [i]. *)
Definition sr_lydmods_sched_finalize_module_remove (i : nat) (sr_mod_ : sr_mod)
    (new_ctx : ly_ctx) (update : bool) (st : commit_st) : res commit_st :=
  let name := sm_name sr_mod_ in
  let mod_rev := match sm_child sr_mod_ with
                 | n_revision v :: _ => Some v
                 | _ => None
                 end in
  (* remove data files *)
  fs1 <- (if update then Ok (c_files st) else sr_remove_data_files (c_files st) name) ;;
  (* check whether it is imported by other modules *)
  let imported :=
    existsb (fun ly_mod => existsb (fun imp => String.eqb (ly_name imp) name)
                             (ly_imports ly_mod))
      (skipn (ly_ctx_internal_module_count new_ctx) (ly_ctx_get_module_iter new_ctx)) in
  (* no module imports the removed one, remove the YANG as well *)
  fs2 <- (if imported then Ok fs1 else sr_remove_module_file fs1 name mod_rev) ;;
  let log := if update then c_log st
             else c_log st ++ [(SR_LL_INF, "Module " ++ quoted name ++ " was removed.")%string] in
  (* remove module list instance *)
  Ok {| c_mods := remove_nth i (c_mods st); c_files := fs2; c_log := log |}.

Definition sr_lydmods_sched_finalize_module_update (i : nat) (sr_mod_ : sr_mod)
    (new_ctx : ly_ctx) (st : commit_st) : res commit_st :=
  (* find the updated module in the new context *)
  match ly_ctx_get_module_implemented new_ctx (sm_name sr_mod_) with
  | None => Abort
  | Some ly_mod =>
      (* remove module *)
      st1 <- sr_lydmods_sched_finalize_module_remove i sr_mod_ new_ctx true st ;;
      (* re-add it (only the data files are kept) *)
      st2 <- sr_lydmods_add_module_with_imps_r ly_mod 0 st1 ;;
      Ok (log_inf st2 ("Module " ++ quoted (ly_name ly_mod) ++ " was updated to revision "
                       ++ match ly_revision ly_mod with Some r => r | None => "" end ++ "."))
  end.

Definition is_changed_feature (c : sr_mod_child) : bool :=
  match c with n_changed_feature _ _ => true | _ => false end.

(** [lyd_find_xpath(sr_mod, "enabled-feature[.='%s']")] has one match,
    which is freed. *)
Fixpoint remove_enabled_feature (children : list sr_mod_child) (feat_name : string)
    : list sr_mod_child :=
  match children with
  | [] => []
  | n_enabled_feature v :: rest =>
      if String.eqb v feat_name then rest
      else n_enabled_feature v :: remove_enabled_feature rest feat_name
  | c :: rest => c :: remove_enabled_feature rest feat_name
  end.

(** [sr_lydmods_sched_finalize_module_change_features]: every
    [changed-feature] child is freed and folded into the enabled
    features, in document order. *)
Definition sr_lydmods_sched_finalize_module_change_features (sr_mod_ : sr_mod)
    (new_ctx : ly_ctx) (log : sr_log) : res (sr_mod * sr_log) :=
  match ly_ctx_get_module_implemented new_ctx (sm_name sr_mod_) with
  | None => Abort
  | Some ly_mod =>
      r <- fold_res
             (fun (s : list sr_mod_child * sr_log) (cf : string * string) =>
                let (feat_name, change) := cf in
                let enable := String.eqb change "enable" in
                (* update internal sysrepo data tree *)
                children <-
                  (if enable then Ok (fst s ++ [n_enabled_feature feat_name])
                   else
                     _ <- assert (Nat.eqb
                            (length (filter (String.eqb feat_name) (enabled_features (fst s)))) 1) ;;
                     Ok (remove_enabled_feature (fst s) feat_name)) ;;
                Ok (children,
                    snd s ++ [(SR_LL_INF,
                       "Module " ++ quoted (ly_name ly_mod) ++ " feature " ++ quoted feat_name
                       ++ " was " ++ (if enable then "enabled" else "disabled") ++ ".")%string]))
             (changed_features (sm_child sr_mod_))
             (filter (fun c => negb (is_changed_feature c)) (sm_child sr_mod_), log) ;;
      Ok (with_child sr_mod_ (fst r), snd r)
  end.

(** The loop of [sr_lydmods_sched_finalize_module_install] over the
    following siblings: is [sr_mod] an implemented import of a module
    installed later? The name of that module, or an abort when a staged
    module is not implemented in the new context. *)
Fixpoint installed_later_as_dep (new_ctx : ly_ctx) (name : string) (next : sr_mods_t)
    : res (option string) :=
  match next with
  | [] => Ok None
  | node :: rest =>
      if negb (is_installed_module node) then installed_later_as_dep new_ctx name rest
      else
        match ly_ctx_get_module_implemented new_ctx (sm_name node) with
        | None => Abort
        | Some ly_mod =>
            if existsb (fun imp => ly_implemented imp && String.eqb (ly_name imp) name)
                 (ly_imports ly_mod)
            then Ok (Some (ly_name ly_mod))
            else installed_later_as_dep new_ctx name rest
        end
  end.

Definition sr_lydmods_sched_finalize_module_install (i : nat) (sr_mod_ : sr_mod)
    (new_ctx : ly_ctx) (st : commit_st) : res commit_st :=
  dep_of <- installed_later_as_dep new_ctx (sm_name sr_mod_) (skipn (S i) (c_mods st)) ;;
  match dep_of with
  | Some by_mod =>
      (* we will install this module as a dependency of a module installed later *)
      Ok {| c_mods := remove_nth i (c_mods st); c_files := c_files st;
            c_log := c_log st ++ [(SR_LL_INF,
              "Module " ++ quoted (sm_name sr_mod_) ++ " will be installed as "
              ++ quoted by_mod ++ " module dependency.")%string] |}
  | None =>
      (* installed module, store new YANG, install all of its implemented
         dependencies *)
      match ly_ctx_get_module_implemented new_ctx (sm_name sr_mod_) with
      | None => Abort
      | Some ly_mod =>
          sr_lydmods_add_module_with_imps_r ly_mod 2
            {| c_mods := remove_nth i (c_mods st); c_files := c_files st; c_log := c_log st |}
      end
  end.

(** What the loop over the children of a [module] entry finds first. *)
Inductive sched_marker : Type :=
| marker_removed
| marker_updated
| marker_changed_feature
| marker_none.

(** The loop over [LYD_CHILD(sr_mod)->next]: the stored dependencies met
    before the first marker are freed; the result is the first marker and
    the children left. *)
Fixpoint scan_children (children : list sr_mod_child)
    : sched_marker * list sr_mod_child :=
  match children with
  | [] => (marker_none, [])
  | n_removed :: _ => (marker_removed, children)
  | n_updated_yang _ :: _ => (marker_updated, children)
  | n_changed_feature _ _ :: _ => (marker_changed_feature, children)
  | n_data_deps _ :: rest
  | n_op_deps _ _ _ :: rest
  | n_inverse_data_deps _ :: rest =>
      (* remove all stored dependencies of all the modules *)
      scan_children rest
  | c :: rest => let (m, rest') := scan_children rest in (m, c :: rest')
  end.

(** The loop "update LY sysrepo data" over the [n] children that
    [sr_mods] has when it starts; [i] is the position of the current one.
    The entries added meanwhile are new [module] entries without markers
    or dependencies, on which the body does nothing. *)
Fixpoint commit_loop (new_ctx : ly_ctx) (n : nat) (i : nat) (st : commit_st)
    : res commit_st :=
  match n with
  | O => Ok st
  | S n' =>
      match nth_error (c_mods st) i with
      | None => Ok st
      | Some sr_mod_ =>
          if is_module sr_mod_ then
            let (marker, children) := scan_children (sm_child sr_mod_) in
            let sr_mod1 := with_child sr_mod_ children in
            let st1 := {| c_mods := update_nth i (fun _ => sr_mod1) (c_mods st);
                          c_files := c_files st; c_log := c_log st |} in
            match marker with
            | marker_removed =>
                st2 <- sr_lydmods_sched_finalize_module_remove i sr_mod1 new_ctx false st1 ;;
                commit_loop new_ctx n' i st2
            | marker_updated =>
                st2 <- sr_lydmods_sched_finalize_module_update i sr_mod1 new_ctx st1 ;;
                commit_loop new_ctx n' i st2
            | marker_changed_feature =>
                r <- sr_lydmods_sched_finalize_module_change_features sr_mod1 new_ctx
                       (c_log st1) ;;
                commit_loop new_ctx n' (S i)
                  {| c_mods := update_nth i (fun _ => fst r) (c_mods st1);
                     c_files := c_files st1; c_log := snd r |}
            | marker_none => commit_loop new_ctx n' (S i) st1
            end
          else
            st1 <- sr_lydmods_sched_finalize_module_install i sr_mod_ new_ctx st ;;
            commit_loop new_ctx n' i st1
      end
  end.

(** "now add (rebuild) all dependencies of all the modules" *)
Fixpoint rebuild_deps_loop (new_ctx : ly_ctx) (n : nat) (i : nat) (sr_mods : sr_mods_t)
    : res sr_mods_t :=
  match n with
  | O => Ok sr_mods
  | S n' =>
      match nth_error sr_mods i with
      | None => Ok sr_mods
      | Some sr_mod_ =>
          match ly_ctx_get_module_implemented new_ctx (sm_name sr_mod_) with
          | None => Abort
          | Some ly_mod =>
              sr_mods' <- sr_lydmods_add_all_deps new_ctx sr_mods i ly_mod ;;
              rebuild_deps_loop new_ctx n' (S i) sr_mods'
          end
      end
  end.

(** What [sr_lydmods_sched_apply] leaves behind when it returns [NULL]. *)
Record apply_result : Type := {
  r_mods : sr_mods_t;
  r_ctx : ly_ctx;
  r_files : files;
  r_change : bool;
  r_fail : bool;
  r_log : sr_log
}.

(** [cleanup:] of [sr_lydmods_sched_apply] without an error. *)
Definition apply_cleanup (sr_mods : sr_mods_t) (fs : files) (st : apply_st) : res apply_result :=
  if st_fail st then
    Ok {| r_mods := sr_mods; r_ctx := st_ctx st; r_files := fs;
          r_change := false; r_fail := st_fail st;
          r_log := st_log st ++
            [(SR_LL_WRN, "Failed to apply some changes, leaving all changes scheduled.")] |}
  else if st_change st then
    Ok {| r_mods := sr_mods; r_ctx := st_ctx st; r_files := fs;
          r_change := st_change st; r_fail := st_fail st;
          r_log := st_log st ++ [(SR_LL_INF, "Scheduled changes applied.")] |}
  else
    Ok {| r_mods := sr_mods; r_ctx := st_ctx st; r_files := fs;
          r_change := st_change st; r_fail := st_fail st;
          r_log := st_log st ++ [(SR_LL_INF, "No scheduled changes.")] |}.

(** "1) create the new context, LY sysrepo data are not modified": the
    four context phases of [sr_lydmods_sched_apply]; a phase that sets
    [fail] ends them. *)
Definition sched_create_new_ctx (sr_mods : sr_mods_t) (new_ctx : ly_ctx) : res apply_st :=
  let st0 := {| st_ctx := new_ctx; st_change := false; st_fail := false;
                st_log := [(SR_LL_INF, "Applying scheduled changes.")] |} in
  (* load updated modules into new context *)
  st1 <- sr_lydmods_sched_ctx_update_modules sr_mods st0 ;;
  if st_fail st1 then Ok st1 else
  (* load all remaining non-updated non-removed modules into new context *)
  ld <- sr_lydmods_ctx_load_modules sr_mods (st_ctx st1) false false (Some (st_change st1)) ;;
  let st2 := {| st_ctx := fst ld;
                st_change := match snd ld with Some c => c | None => st_change st1 end;
                st_fail := st_fail st1; st_log := st_log st1 |} in
  (* change features *)
  st3 <- sr_lydmods_sched_ctx_change_features sr_mods st2 ;;
  if st_fail st3 then Ok st3 else
  (* install modules *)
  sr_lydmods_sched_ctx_install_modules sr_mods st3.

Definition sr_lydmods_sched_apply (sr_mods : sr_mods_t) (new_ctx : ly_ctx) (fs : files)
    : res apply_result :=
  (* 1) create the new context, LY sysrepo data are not modified *)
  st4 <- sched_create_new_ctx sr_mods new_ctx ;;
  if st_fail st4 then apply_cleanup sr_mods fs st4 else
  if st_change st4 then
    (* check that removed modules can really be removed *)
    st5 <- sr_lydmods_sched_check_removed_modules sr_mods st4 ;;
    if st_fail st5 then apply_cleanup sr_mods fs st5 else
    (* check that persistent module data can be loaded with updated modules *)
    ud <- sr_lydmods_sched_update_data sr_mods fs st5 ;;
    let st6 := snd ud in
    if st_fail st6 then apply_cleanup sr_mods (fst ud) st6 else
    (* 2) update LY sysrepo data, dependencies are created from scratch *)
    c <- commit_loop (st_ctx st6) (length sr_mods) 0
           {| c_mods := sr_mods; c_files := fst ud; c_log := st_log st6 |} ;;
    (* now add (rebuild) all dependencies of all the modules *)
    sr_mods' <- rebuild_deps_loop (st_ctx st6) (length (c_mods c)) 0 (c_mods c) ;;
    apply_cleanup sr_mods' (c_files c)
      {| st_ctx := st_ctx st6; st_change := st_change st6; st_fail := st_fail st6;
         st_log := c_log c |}
  else apply_cleanup sr_mods fs st4.

End Apply.

(** ** The schedule manager *)

Section Schedule.
Context {SE : SchemaEngine} {DS : Datastore SE}.

Definition sr_lydmods_parse (fs : files) (ctx : ly_ctx) : res sr_mods_t :=
  match lyd_parse_data_path fs ctx with
  | None => Err sr_errinfo_new_ly
  | Some sr_mods => Ok sr_mods
  end.

(** [sr_lydmods_print(&sr_mods)]: the result and the files after it. *)
Definition sr_lydmods_print (fs : files) (sr_mods : sr_mods_t) : res unit * files :=
  (* validate *)
  match lyd_validate_module sr_mods with
  | None => (Err sr_errinfo_new_ly, fs)
  | Some sr_mods' =>
      (* store the data tree *)
      let (fs', ok) := lyd_print_path fs sr_mods' in
      if ok then (Ok tt, fs') else (Err sr_errinfo_new_ly, fs')
  end.

(** A schedule operation on the parsed registry: an error leaves the
    files alone, otherwise the changed registry is printed. *)
Definition parse_change_print (fs : files) (ctx : ly_ctx)
    (change : sr_mods_t -> res sr_mods_t) : res unit * files :=
  match sr_lydmods_parse fs ctx with
  | Ok sr_mods =>
      match change sr_mods with
      | Ok sr_mods' => sr_lydmods_print fs sr_mods'
      | Err e => (Err e, fs)
      | Abort => (Abort, fs)
      end
  | Err e => (Err e, fs)
  | Abort => (Abort, fs)
  end.

(** The first element satisfying [p] is replaced by [f] of it. *)
Fixpoint map_first {A : Type} (p : A -> bool) (f : A -> A) (l : list A) : list A :=
  match l with
  | [] => []
  | a :: l' => if p a then f a :: l' else a :: map_first p f l'
  end.

(** The first element satisfying [p] is removed ([lyd_free_tree]). *)
Fixpoint remove_first {A : Type} (p : A -> bool) (l : list A) : list A :=
  match l with
  | [] => []
  | a :: l' => if p a then l' else a :: remove_first p l'
  end.

Definition is_module_named (name : string) (m : sr_mod) : bool :=
  is_module m && String.eqb (sm_name m) name.
Definition is_installed_named (name : string) (m : sr_mod) : bool :=
  is_installed_module m && String.eqb (sm_name m) name.

(** [lyd_new_path(sr_mods, NULL, "module[name=..]/<child>", ..)]: the child
    is created in the list entry, which is created first when it does not
    exist; a created node becomes the last child of its parent. *)
Definition new_path_module_child (sr_mods : sr_mods_t) (name : string) (c : sr_mod_child)
    : sr_mods_t :=
  if existsb (is_module_named name) sr_mods then
    map_first (is_module_named name) (fun m => with_child m (sm_child m ++ [c])) sr_mods
  else sr_mods ++ [{| sm_kind := k_module; sm_name := name; sm_child := [c] |}].

Definition is_removed (c : sr_mod_child) : bool :=
  match c with n_removed => true | _ => false end.
Definition is_updated_yang (c : sr_mod_child) : bool :=
  match c with n_updated_yang _ => true | _ => false end.
Definition is_changed_feature_named (feat_name : string) (c : sr_mod_child) : bool :=
  match c with n_changed_feature n _ => String.eqb n feat_name | _ => false end.
Definition is_data (c : sr_mod_child) : bool :=
  match c with n_data _ => true | _ => false end.

(** [lyd_find_xpath(sr_mods, "module[name=..]/<child>")]: the matches, in
    document order. *)
Definition module_children (sr_mods : sr_mods_t) (name : string)
    (p : sr_mod_child -> bool) : list sr_mod_child :=
  flat_map (fun m => if is_module_named name m then filter p (sm_child m) else []) sr_mods.

(** The first match of [module[name=..]/<child>] is freed. *)
Definition free_module_child (sr_mods : sr_mods_t) (name : string)
    (p : sr_mod_child -> bool) : sr_mods_t :=
  map_first (fun m => is_module_named name m && existsb p (sm_child m))
    (fun m => with_child m (remove_first p (sm_child m))) sr_mods.

Definition sr_lydmods_deferred_add_module (fs : files) (ctx : ly_ctx) (ly_mod : lys_module)
    (features : list string) : res unit * files :=
  parse_change_print fs ctx (fun sr_mods =>
    (* check that the module is not already marked for installation *)
    if Nat.eqb (length (find_installed_module sr_mods (ly_name ly_mod))) 1 then
      Err (sr_errinfo_new SR_ERR_EXISTS
             ("Module " ++ quoted (ly_name ly_mod) ++ " already scheduled for installation."))
    else
      (* print the module into memory *)
      match lys_print_mem ly_mod with
      | None => Err sr_errinfo_new_ly
      | Some yang_str =>
          (* store all info for installation *)
          Ok (sr_mods ++
              [{| sm_kind := k_installed_module; sm_name := ly_name ly_mod;
                  sm_child :=
                    (match ly_revision ly_mod with Some r => [n_revision r] | None => [] end)
                    ++ map n_enabled_feature features
                    ++ [n_module_yang yang_str] |}])
      end).

Definition sr_lydmods_unsched_add_module (fs : files) (ctx : ly_ctx) (module_name : string)
    : res unit * files :=
  parse_change_print fs ctx (fun sr_mods =>
    (* check that the module is scheduled for installation *)
    if Nat.eqb (length (find_installed_module sr_mods module_name)) 0 then
      Err (sr_errinfo_new SR_ERR_NOT_FOUND
             ("Module " ++ quoted module_name ++ " not scheduled for installation."))
    else
      (* unschedule installation *)
      Ok (remove_first (is_installed_named module_name) sr_mods)).

(** [sr_lydmods_deferred_add_module_data(sr_mods, module_name, data)]: the
    result and the registry tree after the call. (The source does not
    report a failure of the last [lyd_new_term]; the constructors are
    total here.) *)
Definition sr_lydmods_deferred_add_module_data (sr_mods : sr_mods_t) (module_name : string)
    (data : option lyd_tree) : res unit * sr_mods_t :=
  (* find the module *)
  if Nat.eqb (length (find_installed_module sr_mods module_name)) 0 then
    (Err (sr_errinfo_new SR_ERR_EXISTS
            ("Module " ++ quoted module_name ++ " not scheduled for installation.")),
     sr_mods)
  else
    (* remove any previously set data *)
    let sr_mods1 :=
      map_first (is_installed_named module_name)
        (fun m => with_child m (remove_first is_data (sm_child m))) sr_mods in
    (* print into buffer *)
    match lyd_print_mem data with
    | None => (Err sr_errinfo_new_ly, sr_mods1)
    | Some data_json =>
        (* add into module *)
        (Ok tt,
         map_first (is_installed_named module_name)
           (fun m => with_child m (sm_child m ++ [n_data data_json])) sr_mods1)
    end.

Definition sr_lydmods_deferred_del_module (fs : files) (ctx : ly_ctx) (mod_name_ : string)
    : res unit * files :=
  parse_change_print fs ctx (fun sr_mods =>
    (* check that the module is not already marked for deletion *)
    if Nat.eqb (length (module_children sr_mods mod_name_ is_removed)) 1 then
      Err (sr_errinfo_new SR_ERR_EXISTS
             ("Module " ++ quoted mod_name_ ++ " already scheduled for deletion."))
    else
      (* mark for deletion *)
      Ok (new_path_module_child sr_mods mod_name_ n_removed)).

Fixpoint sr_lydmods_unsched_del_module_r (sr_mods : sr_mods_t) (ly_mod : lys_module)
    (first : bool) {struct ly_mod} : res sr_mods_t :=
  match ly_mod with
  | Lys_module hdr _ _ _ _ imports _ =>
    (* check whether the module is marked for deletion *)
    let count := length (module_children sr_mods (mod_name hdr) is_removed) in
    sr_mods1 <-
      (if Nat.eqb count 0 then
         if first then
           Err (sr_errinfo_new SR_ERR_NOT_FOUND
                  ("Module " ++ quoted (mod_name hdr) ++ " not scheduled for deletion."))
         else Ok sr_mods
       else
         _ <- assert (Nat.eqb count 1) ;;
         Ok (free_module_child sr_mods (mod_name hdr) is_removed)) ;;
    (* recursively check all imported implemented modules *)
    (fix imps (l : list lys_module) (mods : sr_mods_t) : res sr_mods_t :=
       match l with
       | [] => Ok mods
       | i :: l' =>
           if ly_implemented i then
             mods' <- sr_lydmods_unsched_del_module_r mods i false ;; imps l' mods'
           else imps l' mods
       end) imports sr_mods1
  end.

Definition sr_lydmods_unsched_del_module_with_imps (fs : files) (ctx : ly_ctx)
    (ly_mod : lys_module) : res unit * files :=
  parse_change_print fs ctx (fun sr_mods =>
    (* try to unschedule deletion *)
    sr_lydmods_unsched_del_module_r sr_mods ly_mod true).

Definition sr_lydmods_deferred_upd_module (fs : files) (ctx : ly_ctx)
    (ly_upd_mod : lys_module) : res unit * files :=
  parse_change_print fs ctx (fun sr_mods =>
    (* check that the module is not already marked for update *)
    if Nat.eqb (length (module_children sr_mods (ly_name ly_upd_mod) is_updated_yang)) 1 then
      Err (sr_errinfo_new SR_ERR_EXISTS
             ("Module " ++ quoted (ly_name ly_upd_mod) ++ " already scheduled for an update."))
    else
      (* print the module into memory *)
      match lys_print_mem ly_upd_mod with
      | None => Err sr_errinfo_new_ly
      | Some yang_str =>
          (* mark for update *)
          Ok (new_path_module_child sr_mods (ly_name ly_upd_mod) (n_updated_yang yang_str))
      end).

Definition sr_lydmods_unsched_upd_module (fs : files) (ctx : ly_ctx) (mod_name_ : string)
    : res unit * files :=
  parse_change_print fs ctx (fun sr_mods =>
    (* check whether the module is marked for update *)
    let count := length (module_children sr_mods mod_name_ is_updated_yang) in
    if Nat.eqb count 0 then
      Err (sr_errinfo_new SR_ERR_NOT_FOUND
             ("Module " ++ quoted mod_name_ ++ " not scheduled for an update."))
    else
      _ <- assert (Nat.eqb count 1) ;;
      (* free the "updated-yang" node *)
      Ok (free_module_child sr_mods mod_name_ is_updated_yang)).

Definition sr_lydmods_deferred_change_feature (fs : files) (ctx : ly_ctx)
    (ly_mod : lys_module) (feat_name : string) (to_enable is_enabled : bool)
    : res unit * files :=
  parse_change_print fs ctx (fun sr_mods =>
    (* check that the feature is not already marked for change *)
    match module_children sr_mods (ly_name ly_mod) (is_changed_feature_named feat_name) with
    | [n_changed_feature _ change] =>
        if (to_enable && String.eqb change "enable")
           || (negb to_enable && String.eqb change "disable") then
          Err (sr_errinfo_new SR_ERR_EXISTS
                 ("Module " ++ quoted (ly_name ly_mod) ++ " feature " ++ quoted feat_name
                  ++ " already scheduled to be "
                  ++ (if to_enable then "enabled" else "disabled") ++ "."))
        else
          (* unschedule the feature change *)
          Ok (free_module_child sr_mods (ly_name ly_mod) (is_changed_feature_named feat_name))
    | _ =>
        if (to_enable && is_enabled) || (negb to_enable && negb is_enabled) then
          Err (sr_errinfo_new SR_ERR_EXISTS
                 ("Module " ++ quoted (ly_name ly_mod) ++ " feature " ++ quoted feat_name
                  ++ " is already " ++ (if to_enable then "enabled" else "disabled") ++ "."))
        else
          (* schedule the feature change *)
          Ok (new_path_module_child sr_mods (ly_name ly_mod)
                (n_changed_feature feat_name (if to_enable then "enable" else "disable")))
    end).

End Schedule.

(** ** Creating the registry, staged modules and replay support *)

Section Create.
Context {SE : SchemaEngine} {DS : Datastore SE}.

(** The YANG texts of the internal modules, the arrays of the headers
    [../modules/*_yang.h]. *)
Variables ietf_datastores_yang ietf_yang_library_yang sysrepo_monitoring_yang : string.
Variables ietf_netconf_yang ietf_netconf_with_defaults_yang : string.
Variables ietf_netconf_notifications_yang ietf_origin_yang : string.

(** [SR_YANG_MOD] *)
Definition SR_YANG_MOD : string := "sysrepo".

(** [SR_INSTALL_INT_MOD(yang_mod, dep)] on the context and on the tree,
    the files and the log. *)
Definition SR_INSTALL_INT_MOD (yang_mod : string) (dep : bool) (s : ly_ctx * commit_st)
    : res (ly_ctx * commit_st) :=
  match lys_parse_mem (fst s) yang_mod with
  | None => Err sr_errinfo_new_ly
  | Some (ctx1, ly_mod) =>
      st <- sr_lydmods_add_module_with_imps_r ly_mod 0 (snd s) ;;
      Ok (ctx1, log_inf st ("Sysrepo internal" ++ (if dep then " dependency" else "")
                            ++ " module " ++ quoted (ly_name ly_mod) ++ " was installed."))
  end.

(** The body of the loop of [sr_lydmods_create] over the internal libyang
    modules. *)
Definition create_internal_module (st : commit_st) (ly_mod : lys_module) : res commit_st :=
  (* module must be implemented *)
  if ly_implemented ly_mod then
    st1 <- sr_lydmods_add_module_with_imps_r ly_mod 0 st ;;
    Ok (log_inf st1 ("Libyang internal module " ++ quoted (ly_name ly_mod)
                     ++ " was installed."))
  else Ok st.

(** [sr_lydmods_create(ly_ctx, &sr_mods)] with the files and the log it
    starts from: the context, the created tree, the files and the log
    after it. *)
Definition sr_lydmods_create (ly_ctx_ : ly_ctx) (fs : files) (log : sr_log)
    : res (ly_ctx * commit_st) :=
  match ly_ctx_get_module_implemented ly_ctx_ SR_YANG_MOD with
  | None => Err SR_ERRINFO_INT
  | Some _ =>
      (* create empty container *)
      let st0 := {| c_mods := []; c_files := fs; c_log := log |} in
      (* for internal libyang modules create files and store in the
         persistent module data tree *)
      st1 <- fold_res create_internal_module
               (firstn (ly_ctx_internal_module_count ly_ctx_) (ly_ctx_get_module_iter ly_ctx_))
               st0 ;;
      (* install ietf-datastores and ietf-yang-library *)
      s2 <- SR_INSTALL_INT_MOD ietf_datastores_yang true (ly_ctx_, st1) ;;
      s3 <- SR_INSTALL_INT_MOD ietf_yang_library_yang false s2 ;;
      (* install sysrepo-monitoring *)
      s4 <- SR_INSTALL_INT_MOD sysrepo_monitoring_yang false s3 ;;
      (* install ietf-netconf (implemented dependency) and
         ietf-netconf-with-defaults *)
      s5 <- SR_INSTALL_INT_MOD ietf_netconf_yang true s4 ;;
      s6 <- SR_INSTALL_INT_MOD ietf_netconf_with_defaults_yang false s5 ;;
      (* install ietf-netconf-notifications *)
      s7 <- SR_INSTALL_INT_MOD ietf_netconf_notifications_yang false s6 ;;
      (* install ietf-origin *)
      SR_INSTALL_INT_MOD ietf_origin_yang false s7
  end.

End Create.

Section Staged.
Context {SE : SchemaEngine}.

(** [lyd_find_xpath(sr_mods, "installed-module/module-yang")]: each match
    with its parent. *)
Definition module_yang_nodes (sr_mods : sr_mods_t) : list (sr_mod * string) :=
  flat_map (fun m => if is_installed_module m
                     then flat_map (fun c => match c with
                                             | n_module_yang v => [(m, v)]
                                             | _ => []
                                             end) (sm_child m)
                     else []) sr_mods.

(** The loop "load all the modules, it must succeed" of
    [sr_lydmods_ctx_load_installed_module_all]. A module pointer is the
    header of the module; [found] is [*ly_mod_p]. *)
Fixpoint load_installed_loop (set : list (sr_mod * string)) (ctx : ly_ctx)
    (module_name : string) (found : option lys_module_hdr)
    : res (ly_ctx * option lys_module_hdr) :=
  match set with
  | [] => Ok (ctx, found)
  | (parent, yang) :: rest =>
      match lys_parse_mem ctx yang with
      | None => Err (sr_errinfo_new_ly ++ SR_ERRINFO_INT)
      | Some (ctx1, ly_mod) =>
          (* just enable all features *)
          r <- sr_lydmods_ctx_load_module parent ctx1 ;;
          load_installed_loop rest (fst r) module_name
            (if String.eqb (ly_name ly_mod) module_name
             then Some (ly_hdr ly_mod)     (* the required module was found *)
             else found)
      end
  end.

Definition sr_lydmods_ctx_load_installed_module_all (sr_mods : sr_mods_t) (ctx : ly_ctx)
    (module_name : string) : res (ly_ctx * lys_module_hdr) :=
  (* find all scheduled modules, load all the modules *)
  r <- load_installed_loop (module_yang_nodes sr_mods) ctx module_name None ;;
  match snd r with
  | None =>
      Err (sr_errinfo_new SR_ERR_NOT_FOUND
             ("Module " ++ quoted module_name ++ " not scheduled for installation."))
  | Some ly_mod => Ok (fst r, ly_mod)
  end.

End Staged.

Section Replay.
Context {SE : SchemaEngine} {DS : Datastore SE}.

(** [ly_ctx_get_node(ly_ctx, NULL, path, 0)] and
    [lys_find_child(parent, parent->module, name, 0, 0, 0)]. *)
Variable ly_ctx_get_node : ly_ctx -> string -> option lysc_node.
Variable lys_find_child : lysc_node -> string -> option lysc_node.
(** [sr_replay_find_file(mod_name, from_ts, to_ts, &file_from_ts, &file_to_ts)]:
    the interval of the notification file found, [(0, 0)] when there is
    none. *)
Variable sr_replay_find_file : files -> string -> Z -> Z -> res (Z * Z).
(** [time(NULL)] *)
Variable now : Z.

(** [sprintf(buf, "%ld", (long int)from_ts)] *)
Definition sprintf_ld (z : Z) : string := NilZero.string_of_int (Z.to_int z).

Definition is_replay_support (c : sr_mod_child) : bool :=
  match c with n_replay_support _ => true | _ => false end.

Definition sr_lydmods_update_replay_support_module (fs : files) (sr_mod_ : sr_mod)
    (replay_support : bool) : res sr_mod :=
  (* lyd_find_sibling_val(lyd_node_children(sr_mod, 0), s_replay, NULL, 0, &sr_replay) *)
  let sr_replay := existsb is_replay_support (sm_child sr_mod_) in
  if negb replay_support && sr_replay then
    (* remove replay support *)
    Ok (with_child sr_mod_ (remove_first is_replay_support (sm_child sr_mod_)))
  else if replay_support && negb sr_replay then
    (* find earliest stored notification or use current time *)
    ts <- sr_replay_find_file fs (sm_name sr_mod_) 1%Z 0%Z ;;
    let from_ts := if Z.eqb (fst ts) 0 then now else fst ts in
    (* add replay support *)
    Ok (with_child sr_mod_ (sm_child sr_mod_ ++ [n_replay_support (sprintf_ld from_ts)]))
  else Ok sr_mod_.

(** The loop of [sr_lydmods_update_replay_support] over all the children
    of [sysrepo-modules]. *)
Fixpoint update_replay_support_all (fs : files) (sr_mods : sr_mods_t) (replay_support : bool)
    : res sr_mods_t :=
  match sr_mods with
  | [] => Ok []
  | sr_mod_ :: rest =>
      sr_mod1 <- (if is_module sr_mod_
                  then (* set replay support *)
                       sr_lydmods_update_replay_support_module fs sr_mod_ replay_support
                  else Ok sr_mod_) ;;
      rest1 <- update_replay_support_all fs rest replay_support ;;
      Ok (sr_mod1 :: rest1)
  end.

(** [sr_lydmods_update_replay_support(ly_ctx, mod_name, replay_support)];
    [mod_name] is [None] for [NULL]. *)
Definition sr_lydmods_update_replay_support (fs : files) (ctx : ly_ctx)
    (mod_name_ : option string) (replay_support : bool) : res unit * files :=
  (* find schema nodes *)
  match ly_ctx_get_node ctx "/sysrepo:sysrepo-modules/module" with
  | None => (Abort, fs)
  | Some s_mod =>
      match lys_find_child s_mod "replay-support" with
      | None => (Abort, fs)
      | Some _ =>
          parse_change_print fs ctx (fun sr_mods =>
            match mod_name_ with
            | Some name =>
                (* we expect the module to exist *)
                match find (is_module_named name) sr_mods with
                | None => Abort
                | Some sr_mod_ =>
                    (* set replay support *)
                    sr_mod1 <- sr_lydmods_update_replay_support_module fs sr_mod_
                                 replay_support ;;
                    Ok (map_first (is_module_named name) (fun _ => sr_mod1) sr_mods)
                end
            | None => update_replay_support_all fs sr_mods replay_support
            end)
      end
  end.

End Replay.

(** ** A small schema engine and file store

    An instance of the collaborators to run the routines on: a schema
    engine over a fixed library of modules, in which the YANG text of a
    module is its name and loading a module brings its implemented
    imports into the context, and a file store without instance data. *)

Module Toy.

Section Engine.
Variable library : list lys_module.
Variable atoms : lyxp_expr -> option (list lysc_node).

Definition lookup (l : list lys_module) (name : string) : option lys_module :=
  find (fun m => String.eqb (ly_name m) name) l.

Definition load (ctx : list lys_module) (name : string)
    : option (list lys_module * lys_module) :=
  match lookup library name with
  | Some m => Some (ctx ++ m :: filter ly_implemented (ly_imports m), m)
  | None => None
  end.

Definition set_feature (b : bool) (f : string) (m : lys_module) : lys_module :=
  match m with
  | Lys_module h feats d r n i inc =>
      Lys_module h (map (fun p : string * bool => if String.eqb (fst p) f then (fst p, b) else p)
                      feats) d r n i inc
  end.

Definition toggle (b : bool) (ctx : list lys_module) (m : lys_module) (f : string)
    : option (list lys_module * lys_module) :=
  if existsb (fun p : string * bool => String.eqb (fst p) f) (ly_features m) then
    Some (map (fun m' => if mod_eqb (ly_hdr m') (ly_hdr m) then set_feature b f m' else m') ctx,
          set_feature b f m)
  else None.

Definition engine : SchemaEngine := {|
  ly_ctx := list lys_module;
  lys_parse_mem := load;
  ly_ctx_load_module := fun ctx name _ => load ctx name;
  ly_ctx_get_module := fun ctx name rev =>
    find (fun m => String.eqb (ly_name m) name && opt_string_eqb (ly_revision m) rev) ctx;
  ly_ctx_get_module_implemented := fun ctx name =>
    find (fun m => String.eqb (ly_name m) name && ly_implemented m) ctx;
  ly_ctx_get_module_iter := fun ctx => ctx;
  ly_ctx_internal_module_count := fun _ => 0;
  lys_feature_enable_force := toggle true;
  lys_feature_disable_force := toggle false;
  lys_atomize_xpath := fun _ _ e _ => atoms e;
  lys_print_mem := fun m => Some (ly_name m)
|}.

(** The files: the modules with a startup file, with a running file and
    with a YANG file, and the registry file. *)
Record toy_files : Type := {
  f_startup : list string;
  f_running : list string;
  f_yang : list string;
  f_registry : option sr_mods_t
}.

Definition without (name : string) (l : list string) : list string :=
  filter (fun n => negb (String.eqb n name)) l.

Definition store : Datastore engine := {|
  lyd_tree := unit;
  files := toy_files;
  sr_ly_ctx_new := @Ok (@ly_ctx engine) [];
  lyd_print_mem := fun _ => Some "";
  lyd_parse_data_mem := fun _ _ _ => Some None;
  lyd_owner_module := fun _ => Lys_module {| mod_name := ""; mod_revision := None;
                                             mod_implemented := false |} [] [] [] [] [] [];
  lyd_merge_siblings := fun a _ => Some a;
  lyd_validate_all := fun t _ => Some t;
  sr_module_data_unlink := fun t _ => (None, t);
  sr_module_file_data_append := fun _ _ _ t => Ok t;
  sr_running_file_exists := fun fs name => Ok (existsb (String.eqb name) (f_running fs));
  sr_module_file_data_set := fun fs name ds _ =>
    match ds with
    | SR_DS_STARTUP => Ok {| f_startup := name :: without name (f_startup fs);
                             f_running := f_running fs; f_yang := f_yang fs;
                             f_registry := f_registry fs |}
    | SR_DS_RUNNING => Ok {| f_startup := f_startup fs;
                             f_running := name :: without name (f_running fs);
                             f_yang := f_yang fs; f_registry := f_registry fs |}
    end;
  sr_remove_data_files := fun fs name =>
    Ok {| f_startup := without name (f_startup fs); f_running := without name (f_running fs);
          f_yang := f_yang fs; f_registry := f_registry fs |};
  sr_remove_module_file := fun fs name _ =>
    Ok {| f_startup := f_startup fs; f_running := f_running fs;
          f_yang := without name (f_yang fs); f_registry := f_registry fs |};
  sr_store_module_files := fun fs m =>
    Ok {| f_startup := f_startup fs; f_running := f_running fs;
          f_yang := ly_name m :: without (ly_name m) (f_yang fs);
          f_registry := f_registry fs |};
  sr_create_startup_file := fun fs m =>
    Ok {| f_startup := ly_name m :: without (ly_name m) (f_startup fs);
          f_running := f_running fs; f_yang := f_yang fs; f_registry := f_registry fs |};
  lyd_parse_data_path := fun fs _ => f_registry fs;
  lyd_validate_module := fun sr_mods => Some sr_mods;
  lyd_print_path := fun fs sr_mods =>
    ({| f_startup := f_startup fs; f_running := f_running fs; f_yang := f_yang fs;
        f_registry := Some sr_mods |}, true)
|}.

End Engine.

(** *** Two modules: [a] imports [b]; [b] has the feature [f]. *)

Definition hdr (name : string) : lys_module_hdr :=
  {| mod_name := name; mod_revision := None; mod_implemented := true |}.

Definition node (id : nat) (kind : lys_nodetype) (m path : string) : lysc_info :=
  {| nid := id; nodetype := kind; module := hdr m; data_path := path; disabled := false;
     type := None; dflt := None; dflts := []; when := []; musts := [];
     input_musts := []; output_musts := [] |}.

Definition mod_b : lys_module :=
  Lys_module (hdr "b") [("f", false)] [Lysc_tree (node 10 LYS_CONTAINER "b" "/b:x") [] []]
    [] [] [] [].
Definition mod_a : lys_module :=
  Lys_module (hdr "a") [] [Lysc_tree (node 1 LYS_CONTAINER "a" "/a:c") [] []] [] [] [mod_b] [].

Definition no_atoms : lyxp_expr -> option (list lysc_node) := fun _ => Some [].

Definition SE_ab : SchemaEngine := engine [mod_a; mod_b] no_atoms.
Definition DS_ab : Datastore SE_ab := store [mod_a; mod_b] no_atoms.

Definition no_files : toy_files :=
  {| f_startup := []; f_running := []; f_yang := []; f_registry := None |}.

Definition module_entry (name : string) (children : list sr_mod_child) : sr_mod :=
  {| sm_kind := k_module; sm_name := name; sm_child := children |}.
Definition installed_entry (name : string) (children : list sr_mod_child) : sr_mod :=
  {| sm_kind := k_installed_module; sm_name := name; sm_child := children |}.


(** *** Expressions with foreign atoms

    [cond-b] refers to [/b:x] and [cond-c] to [/c:y]. The container
    [/a:c] has the must [cond-b]; the RPC [/a:r] has the input must
    [cond-b] and the output must [cond-c], and no data. *)

Definition node_bx : lysc_node := Lysc_node (node 10 LYS_CONTAINER "b" "/b:x") None.
Definition node_cy : lysc_node := Lysc_node (node 30 LYS_CONTAINER "c" "/c:y") None.

Definition atoms_bc : lyxp_expr -> option (list lysc_node) :=
  fun e => if String.eqb e "cond-b" then Some [node_bx]
           else if String.eqb e "cond-c" then Some [node_cy]
           else Some [].

Definition SE_bc : SchemaEngine := engine [mod_a; mod_b] atoms_bc.
Definition DS_bc : Datastore SE_bc := store [mod_a; mod_b] atoms_bc.

Definition info_ac : lysc_info :=
  {| nid := 1; nodetype := LYS_CONTAINER; module := hdr "a"; data_path := "/a:c";
     disabled := false; type := None; dflt := None; dflts := []; when := [];
     musts := ["cond-b"]; input_musts := []; output_musts := [] |}.

Definition info_rpc : lysc_info :=
  {| nid := 20; nodetype := LYS_RPC; module := hdr "a"; data_path := "/a:r";
     disabled := false; type := None; dflt := None; dflts := []; when := [];
     musts := []; input_musts := ["cond-b"]; output_musts := ["cond-c"] |}.

Definition rpc_r : lysc_tree := Lysc_tree info_rpc [] [].

(** *** A removed module with a feature change

    [b] is marked removed and has the feature change "enable [f]"; the
    context is the one the load of [a] leaves, in which [b] is
    implemented as an import of [a]. *)

Definition entry_b_removed_feature : sr_mod :=
  module_entry "b" [n_removed; n_changed_feature "f" "enable"].

Definition mods_b_removed_feature : sr_mods_t :=
  [module_entry "a" []; entry_b_removed_feature].

End Toy.

(** ** The vocabulary of the statements *)

Unset Implicit Arguments.

(** No target module and no instance-identifier path occurs twice. *)
Definition deps_unique (deps : sr_deps) : Prop :=
  (forall m, count_dep_module deps m <= 1) /\ (forall p, count_dep_inst_id deps p <= 1).

(** The node kinds for which [sr_lydmods_moddep_add] records an
    instance-identifier. *)
Definition data_instantiable (t : lys_nodetype) : bool :=
  match t with
  | LYS_LEAF | LYS_LEAFLIST | LYS_CONTAINER | LYS_LIST
  | LYS_ANYDATA | LYS_ANYXML | LYS_NOTIF => true
  | _ => false
  end.

(** A loop that records into a state [s] settles: when it succeeds from
    [s] it ends in a state above [s], and from every state above that one
    it succeeds and changes nothing. *)
Definition settles {S : Type} (le : S -> S -> Prop) (f : S -> res S) : Prop :=
  forall s s', f s = Ok s' -> le s s' /\ forall s'', le s' s'' -> f s'' = Ok s''.

(** A key recorded once stays recorded once. *)
Definition deps_le (d d' : sr_deps) : Prop :=
  (forall m, count_dep_module d m = 1 -> count_dep_module d' m = 1)
  /\ (forall p, count_dep_inst_id d p = 1 -> count_dep_inst_id d' p = 1).

Definition ops_le (c c' : list sr_mod_child) : Prop :=
  forall p, count_op_deps c p = 1 -> count_op_deps c' p = 1.

Definition st_le (s s' : deps_state) : Prop :=
  ops_le (fst s) (fst s') /\ deps_le (snd s) (snd s').

(** The names of the staged entries: the keys of [installed-module]. *)
Definition installed_names (sr_mods : sr_mods_t) : list string :=
  map sm_name (filter is_installed_module sr_mods).

(** The seed data payloads of a staged entry. *)
Definition data_payloads (m : sr_mod) : list string :=
  flat_map (fun c => match c with n_data v => [v] | _ => [] end) (sm_child m).

(** The upward closure of a node: the node is [top] or below it. *)
Fixpoint in_subtree (n top : lysc_node) : bool :=
  node_eqb n top
  || match n with
     | Lysc_node _ (Some p) => in_subtree p top
     | Lysc_node _ None => false
     end.

(** The top-level ancestor of a node. *)
Fixpoint top_ancestor (n : lysc_node) : lysc_node :=
  match n with
  | Lysc_node _ (Some p) => top_ancestor p
  | Lysc_node _ None => n
  end.

Definition apply_warning : sr_log_level * string :=
  (SR_LL_WRN, "Failed to apply some changes, leaving all changes scheduled.").

Definition ignoring_warning (name : string) : sr_log_level * string :=
  (SR_LL_WRN, "Module " ++ quoted name
              ++ " is scheduled for both removal and feature changes, ignoring them.")%string.

(** Induction on types and on schema trees, through the lists. *)
Fixpoint lysc_type_forall_ind (P : lysc_type -> Prop)
    (Hinst : P LY_TYPE_INST) (Href : forall p, P (LY_TYPE_LEAFREF p))
    (Hunion : forall l, Forall P l -> P (LY_TYPE_UNION l)) (Hother : P LY_TYPE_OTHER)
    (t : lysc_type) {struct t} : P t :=
  match t with
  | LY_TYPE_INST => Hinst
  | LY_TYPE_LEAFREF p => Href p
  | LY_TYPE_UNION l =>
      Hunion l ((fix all (l : list lysc_type) : Forall P l :=
                   match l with
                   | [] => Forall_nil P
                   | x :: l' =>
                       Forall_cons x
                         (lysc_type_forall_ind P Hinst Href Hunion Hother x) (all l')
                   end) l)
  | LY_TYPE_OTHER => Hother
  end.

Fixpoint lysc_node_parent_ind (P : lysc_node -> Prop)
    (Htop : forall info, P (Lysc_node info None))
    (Hchild : forall info p, P p -> P (Lysc_node info (Some p)))
    (n : lysc_node) {struct n} : P n :=
  match n with
  | Lysc_node info None => Htop info
  | Lysc_node info (Some p) => Hchild info p (lysc_node_parent_ind P Htop Hchild p)
  end.

Fixpoint lysc_tree_forall_ind (P : lysc_tree -> Prop)
    (H : forall info child output_child,
        Forall P child -> Forall P output_child -> P (Lysc_tree info child output_child))
    (t : lysc_tree) {struct t} : P t :=
  match t with
  | Lysc_tree info child output_child =>
      H info child output_child
        ((fix all (l : list lysc_tree) : Forall P l :=
            match l with
            | [] => Forall_nil P
            | x :: l' => Forall_cons x (lysc_tree_forall_ind P H x) (all l')
            end) child)
        ((fix all (l : list lysc_tree) : Forall P l :=
            match l with
            | [] => Forall_nil P
            | x :: l' => Forall_cons x (lysc_tree_forall_ind P H x) (all l')
            end) output_child)
  end.

(** The collected modules are pairwise different (as pointers). *)
Fixpoint mods_distinct (l : list lys_module_hdr) : bool :=
  match l with
  | [] => true
  | m :: l' => negb (existsb (mod_eqb m) l') && mods_distinct l'
  end.

(** [l'] is [l] with entries added at its end. *)
Definition extends {A : Type} (l l' : list A) : Prop := exists t, l' = l ++ t.

(** A step [f] that, when it succeeds, takes a state to a related one. *)
Definition keeps {S : Type} (R : S -> S -> Prop) (f : S -> res S) : Prop :=
  forall s s', f s = Ok s' -> R s s'.

(** The module array only grows at its end and stays duplicate-free. *)
Definition collects (dm dm' : list lys_module_hdr) : Prop :=
  extends dm dm' /\ (mods_distinct dm = true -> mods_distinct dm' = true).

(** An operation-dependency record. *)
Definition is_op_deps (c : sr_mod_child) : bool :=
  match c with n_op_deps _ _ _ => true | _ => false end.

(** The children of the module entry gain operation-dependency records at
    their end, and the container gains entries at its end. *)
Definition st_grows (s s' : deps_state) : Prop :=
  (exists l, fst s' = fst s ++ l /\ forallb is_op_deps l = true)
  /\ extends (snd s) (snd s').

(** *** A container with an action

    The container [/a:c] of module [a], without expressions, holds the
    action [/a:c/act], which has no data. *)

Definition info_act : lysc_info := Toy.node 2 LYS_ACTION "a" "/a:c/act".

Definition tree_c_act : lysc_tree :=
  Lysc_tree (Toy.node 1 LYS_CONTAINER "a" "/a:c") [Lysc_tree info_act [] []] [].

(** The entry [e'] is [e], possibly with the leaf [inverse-data-deps name]
    added at its end, which [e] did not have. *)
Definition gains_inverse (name : string) (e e' : sr_mod) : Prop :=
  sm_kind e' = sm_kind e /\ sm_name e' = sm_name e
  /\ (sm_child e' = sm_child e
      \/ (inv_data_dep_exists (sm_child e) name = false
          /\ sm_child e' = sm_child e ++ [n_inverse_data_deps name])).

(** *** A module with a notification

    The notification [/a:n] of module [a] has the must [cond-b], which
    refers to [/b:x] of module [b]. *)

Definition info_notif : lysc_info :=
  {| nid := 40; nodetype := LYS_NOTIF; module := Toy.hdr "a"; data_path := "/a:n";
     disabled := false; type := None; dflt := None; dflts := []; when := [];
     musts := ["cond-b"]; input_musts := []; output_musts := [] |}.

Definition mod_a_notif : lys_module :=
  Lys_module (Toy.hdr "a") [] [] [] [Lysc_tree info_notif [] []] [] [].

(** "data, RPCs, notifs" of [sr_lydmods_check_all_deps]: the array of the
    dependency modules of a module. *)
Definition module_dep_mods {SE : SchemaEngine} (ctx : ly_ctx) (ly_mod : lys_module)
    : res (list lys_module_hdr) :=
  dm1 <- fold_res (fun dm root => sr_lydmods_check_deps_r ctx root dm) (ly_data ly_mod) [] ;;
  dm2 <- fold_res (fun dm root => sr_lydmods_check_deps_r ctx root dm) (ly_rpcs ly_mod) dm1 ;;
  fold_res (fun dm root => sr_lydmods_check_deps_r ctx root dm) (ly_notifs ly_mod) dm2.

(** A dependency module that is neither implemented nor staged. *)
Definition missing_dependency (sr_mods : sr_mods_t) (dep : lys_module_hdr) : bool :=
  negb (mod_implemented dep)
  && Nat.eqb (length (find_installed_module sr_mods (mod_name dep))) 0.

Definition is_wrn (e : sr_log_level * string) : bool :=
  match fst e with SR_LL_WRN => true | SR_LL_INF => false end.

(** The module entries that [sr_lydmods_ctx_load_modules] skips because of
    a marker. *)
Definition skipped_for_marker (removed updated : bool) (m : sr_mod) : bool :=
  is_module m
  && ((negb removed && has_removed (sm_child m))
      || (negb updated && has_updated_yang (sm_child m))).

(** The entries that [sr_lydmods_ctx_load_modules] loads. *)
Definition loaded_entry (removed updated : bool) (m : sr_mod) : bool :=
  is_module m && negb (skipped_for_marker removed updated m).

(** *** An expression that refers to a module that is not implemented

    [cond-d] refers to [/d:z] of module [d], which is in the context but
    not implemented; the notification [/a:m] of module [a] has the must
    [cond-d]. *)

Definition node_dz : lysc_node :=
  Lysc_node {| nid := 50; nodetype := LYS_CONTAINER;
               module := {| mod_name := "d"; mod_revision := None;
                            mod_implemented := false |};
               data_path := "/d:z"; disabled := false; type := None; dflt := None;
               dflts := []; when := []; musts := []; input_musts := [];
               output_musts := [] |} None.

Definition atoms_d : lyxp_expr -> option (list lysc_node) :=
  fun e => if String.eqb e "cond-d" then Some [node_dz] else Some [].

Definition SE_d : SchemaEngine := Toy.engine [Toy.mod_a; Toy.mod_b] atoms_d.

Definition mod_a_notif_d : lys_module :=
  Lys_module (Toy.hdr "a") [] [] []
    [Lysc_tree {| nid := 41; nodetype := LYS_NOTIF; module := Toy.hdr "a";
                  data_path := "/a:m"; disabled := false; type := None; dflt := None;
                  dflts := []; when := []; musts := ["cond-d"]; input_musts := [];
                  output_musts := [] |} [] []] [] [].

(** A [module] entry without schedule markers. *)
Definition unscheduled (m : sr_mod) : bool :=
  is_module m && negb (has_removed (sm_child m)) && negb (has_updated_yang (sm_child m))
  && Nat.eqb (length (changed_features (sm_child m))) 0.

(** A child that is neither an enabled feature nor a feature change. *)
Definition not_feature (c : sr_mod_child) : bool :=
  match c with
  | n_enabled_feature _ | n_changed_feature _ _ => false
  | _ => true
  end.

(** The body of the loop of
    [sr_lydmods_sched_finalize_module_change_features] for a
    [changed-feature] child, in the module [name]: the children of the
    entry and the log after it. *)
Definition change_feature_step (name : string) (s : list sr_mod_child * sr_log)
    (cf : string * string) : res (list sr_mod_child * sr_log) :=
  let (feat_name, change) := cf in
  let enable := String.eqb change "enable" in
  children <-
    (if enable then Ok (fst s ++ [n_enabled_feature feat_name])
     else
       _ <- assert (Nat.eqb
              (length (filter (String.eqb feat_name) (enabled_features (fst s)))) 1) ;;
       Ok (remove_enabled_feature (fst s) feat_name)) ;;
  Ok (children,
      snd s ++ [(SR_LL_INF,
         "Module " ++ quoted name ++ " feature " ++ quoted feat_name
         ++ " was " ++ (if enable then "enabled" else "disabled") ++ ".")%string]).

(** A [module] entry as [sr_lydmods_add_module] creates it: a revision
    and enabled features, no marker and no dependency. *)
Definition fresh_entry (e : sr_mod) : bool :=
  is_module e
  && forallb (fun c => match c with
                       | n_revision _ | n_enabled_feature _ => true
                       | _ => false
                       end) (sm_child e).

(** The names of the [module] entries: the keys of the list [module]. *)
Definition module_names (sr_mods : sr_mods_t) : list string :=
  map sm_name (filter is_module sr_mods).

(** The tree gains fresh [module] entries at its end, the names of the
    [module] entries stay distinct, and the log gains messages. *)
Definition installs {SE : SchemaEngine} {DS : Datastore SE} (st st' : commit_st) : Prop :=
  (exists l, c_mods st' = c_mods st ++ l /\ forallb fresh_entry l = true)
  /\ (NoDup (module_names (c_mods st)) -> NoDup (module_names (c_mods st')))
  /\ extends (c_log st) (c_log st').

(** [m'] is [m], or is reached from [m] through the imports of modules and
    of their submodules. *)
Inductive imports_rec : lys_module -> lys_module -> Prop :=
| imports_self (m : lys_module) : imports_rec m m
| imports_import (m i m' : lys_module) :
    In i (ly_imports m) -> imports_rec i m' -> imports_rec m m'
| imports_include (m : lys_module) (sub : list lys_module) (i m' : lys_module) :
    In sub (ly_includes m) -> In i sub -> imports_rec i m' -> imports_rec m m'.

(** Induction on modules, through the imports and the includes. *)
Fixpoint lys_module_forall_ind (P : lys_module -> Prop)
    (H : forall hdr features data rpcs notifs imports includes,
        Forall P imports -> Forall (Forall P) includes ->
        P (Lys_module hdr features data rpcs notifs imports includes))
    (m : lys_module) {struct m} : P m :=
  match m with
  | Lys_module hdr features data rpcs notifs imports includes =>
      H hdr features data rpcs notifs imports includes
        ((fix all (l : list lys_module) : Forall P l :=
            match l with
            | [] => Forall_nil P
            | x :: l' => Forall_cons x (lys_module_forall_ind P H x) (all l')
            end) imports)
        ((fix alls (ll : list (list lys_module)) : Forall (Forall P) ll :=
            match ll with
            | [] => Forall_nil (Forall P)
            | l :: ll' =>
                Forall_cons l
                  ((fix all (l : list lys_module) : Forall P l :=
                      match l with
                      | [] => Forall_nil P
                      | x :: l' => Forall_cons x (lys_module_forall_ind P H x) (all l')
                      end) l) (alls ll')
            end) includes)
  end.

(** The kind and the name of a list entry. *)
Definition entry_key (m : sr_mod) : sr_mod_kind * string := (sm_kind m, sm_name m).

(** The number of [replay-support] children of an entry (at most one: it
    is a leaf). *)
Definition replay_count (m : sr_mod) : nat :=
  length (filter is_replay_support (sm_child m)).

(** [m'] is [m], or is reached from [m] through implemented imports. *)
Inductive implemented_imports_rec : lys_module -> lys_module -> Prop :=
| implemented_self (m : lys_module) : implemented_imports_rec m m
| implemented_import (m i m' : lys_module) :
    In i (ly_imports m) -> ly_implemented i = true ->
    implemented_imports_rec i m' -> implemented_imports_rec m m'.

(** The entry [m'] is [m] without some of its [removed] markers. *)
Definition unmarked (m m' : sr_mod) : Prop :=
  entry_key m' = entry_key m
  /\ filter (fun c => negb (is_removed c)) (sm_child m')
     = filter (fun c => negb (is_removed c)) (sm_child m)
  /\ length (filter is_removed (sm_child m')) <= length (filter is_removed (sm_child m)).

(** [fail] and the log across a step: [fail] is not cleared, the log
    gains entries at its end, and a warning is among them when the step
    sets [fail]. *)
Definition warned (fl fl' : bool * sr_log) : Prop :=
  (fst fl = true -> fst fl' = true)
  /\ exists t, snd fl' = snd fl ++ t
               /\ (fst fl = false -> fst fl' = true -> existsb is_wrn t = true).

(** The same across a context phase, which does not clear [change]. *)
Definition phase_step {SE : SchemaEngine} (st st' : apply_st) : Prop :=
  (st_change st = true -> st_change st' = true)
  /\ warned (st_fail st, st_log st) (st_fail st', st_log st').

(** A module and the modules it reaches: the implemented ones have a
    [module] entry. *)
Definition all_installed {SE : SchemaEngine} {DS : Datastore SE} (m : lys_module)
    (st : commit_st) : Prop :=
  forall m', imports_rec m m' -> ly_implemented m' = true ->
             In (ly_name m') (module_names (c_mods st)).

(** The tree during "update LY sysrepo data": [i] entries are done,
    [n] entries are to be visited, and the entries after them were added
    meanwhile; the done and the added ones are [module] entries. *)
Definition commit_inv (n i : nat) (sr_mods : sr_mods_t) : Prop :=
  exists done todo added,
    sr_mods = done ++ todo ++ added
    /\ length done = i /\ length todo = n
    /\ forallb is_module done = true /\ forallb is_module added = true.

(** * Properties *)

Lemma bind_ok {A B : Type} (c : res A) (k : A -> res B) (b : B) :
  bind c k = Ok b -> exists a, c = Ok a /\ k a = Ok b.
Proof. destruct c; simpl; intros H; try discriminate; eauto. Qed.

Lemma assert_ok (b : bool) (u : unit) : assert b = Ok u -> b = true.
Proof. destruct b; simpl; [reflexivity | discriminate]. Qed.

Ltac bind_inv H :=
  let x := fresh "x" in
  let Hx := fresh "Hx" in
  apply bind_ok in H; destruct H as (x & Hx & H).

Tactic Notation "bind_as" hyp(H) ident(x) ident(Hx) :=
  apply bind_ok in H; destruct H as (x & Hx & H).

(** ** Duplicate-free dependency sets *)

Lemma count_dep_module_app (d1 d2 : sr_deps) (m : string) :
  count_dep_module (d1 ++ d2) m = count_dep_module d1 m + count_dep_module d2 m.
Proof. unfold count_dep_module. now rewrite filter_app, length_app. Qed.

Lemma count_dep_inst_id_app (d1 d2 : sr_deps) (p : string) :
  count_dep_inst_id (d1 ++ d2) p = count_dep_inst_id d1 p + count_dep_inst_id d2 p.
Proof. unfold count_dep_inst_id. now rewrite filter_app, length_app. Qed.

Lemma count_dep_module_in (deps : sr_deps) (m : string) :
  In (dep_module m) deps -> 0 < count_dep_module deps m.
Proof.
  intros H. unfold count_dep_module.
  assert (Hf : In (dep_module m)
                 (filter (fun d => match d with
                                   | dep_module v => String.eqb v m
                                   | _ => false
                                   end) deps)).
  { apply filter_In. split; [assumption | apply String.eqb_refl]. }
  destruct (filter _ deps); [destruct Hf | simpl; lia].
Qed.

Lemma count_dep_inst_id_in (deps : sr_deps) (p : string) (dm : option string) :
  In (dep_inst_id p dm) deps -> 0 < count_dep_inst_id deps p.
Proof.
  intros H. unfold count_dep_inst_id.
  assert (Hf : In (dep_inst_id p dm)
                 (filter (fun d => match d with
                                   | dep_inst_id x _ => String.eqb x p
                                   | _ => false
                                   end) deps)).
  { apply filter_In. split; [assumption | apply String.eqb_refl]. }
  destruct (filter _ deps); [destruct Hf | simpl; lia].
Qed.

(** [sr_lydmods_moddep_add] for a module reference, by the number of
    matches. *)
Lemma moddep_add_ref (deps : sr_deps) (m : string) (node : option lysc_node) :
  sr_lydmods_moddep_add deps SR_DEP_REF (Some m) node =
  if 1 <? count_dep_module deps m then Err SR_ERRINFO_INT
  else if 0 <? count_dep_module deps m then Ok deps
  else Ok (deps ++ [dep_module m]).
Proof. reflexivity. Qed.

(** [sr_lydmods_moddep_add] for an instance-identifier at a
    data-instantiable node, by the number of matches. *)
Lemma moddep_add_instid (deps : sr_deps) (dm : option string) (n : lysc_node) :
  data_instantiable (nodetype (node_info n)) = true ->
  sr_lydmods_moddep_add deps SR_DEP_INSTID dm (Some n) =
  if 1 <? count_dep_inst_id deps (data_path (node_info n)) then Err SR_ERRINFO_INT
  else if 0 <? count_dep_inst_id deps (data_path (node_info n)) then Ok deps
  else Ok (deps ++ [dep_inst_id (data_path (node_info n)) dm]).
Proof.
  intros H. unfold sr_lydmods_moddep_add. simpl.
  destruct (nodetype (node_info n)); try discriminate; destruct dm; reflexivity.
Qed.

(** What a successful [sr_lydmods_moddep_add] does to the set: nothing,
    or one entry with a key that was absent. *)
Local Ltac absent_key E0 := split; [apply Nat.ltb_ge in E0; lia | reflexivity].

Lemma moddep_add_ok (deps : sr_deps) (ty : sr_mod_dep_type) (dm : option string)
    (node : option lysc_node) (deps' : sr_deps) :
  sr_lydmods_moddep_add deps ty dm node = Ok deps' ->
  deps' = deps
  \/ (exists m, count_dep_module deps m = 0 /\ deps' = deps ++ [dep_module m])
  \/ (exists p d, count_dep_inst_id deps p = 0 /\ deps' = deps ++ [dep_inst_id p d]).
Proof.
  unfold sr_lydmods_moddep_add. intros H. bind_inv H. clear Hx.
  destruct ty, dm as [m|], node as [n|]; try discriminate.
  1,2: destruct (1 <? count_dep_module deps m); try discriminate;
       destruct (0 <? count_dep_module deps m) eqn:E0; inversion H; subst; auto;
       right; left; exists m; absent_key E0.
  1,2: destruct (nodetype (node_info n)); try discriminate;
       destruct (1 <? count_dep_inst_id deps (data_path (node_info n))); try discriminate;
       destruct (0 <? count_dep_inst_id deps (data_path (node_info n))) eqn:E0;
       inversion H; subst; auto;
       right; right; exists (data_path (node_info n)); eexists; absent_key E0.
Qed.

Lemma moddep_add_unique (deps : sr_deps) (ty : sr_mod_dep_type) (dm : option string)
    (node : option lysc_node) (deps' : sr_deps) :
  deps_unique deps ->
  sr_lydmods_moddep_add deps ty dm node = Ok deps' ->
  deps_unique deps'.
Proof.
  intros [Hm Hp] H. apply moddep_add_ok in H.
  destruct H as [-> | [(m & H0 & ->) | (p & d & H0 & ->)]]; [split; assumption | |].
  - split; intros k.
    + rewrite count_dep_module_app. simpl. unfold count_dep_module at 2. simpl.
      destruct (String.eqb_spec m k); simpl; [subst; lia | specialize (Hm k); lia].
    + rewrite count_dep_inst_id_app. simpl. specialize (Hp k).
      unfold count_dep_inst_id at 2. simpl. lia.
  - split; intros k.
    + rewrite count_dep_module_app. specialize (Hm k).
      unfold count_dep_module at 2. simpl. lia.
    + rewrite count_dep_inst_id_app. unfold count_dep_inst_id at 2. simpl.
      destruct (String.eqb_spec p k); simpl; [subst; lia | specialize (Hp k); lia].
Qed.

Lemma moddep_add_ref_present (deps : sr_deps) (m : string) :
  deps_unique deps -> In (dep_module m) deps ->
  sr_lydmods_moddep_add deps SR_DEP_REF (Some m) None = Ok deps.
Proof.
  intros [Hm _] Hin. rewrite moddep_add_ref.
  apply count_dep_module_in in Hin. specialize (Hm m).
  destruct (Nat.ltb_spec 1 (count_dep_module deps m)); [lia |].
  destruct (Nat.ltb_spec 0 (count_dep_module deps m)); [reflexivity | lia].
Qed.

Lemma moddep_add_instid_present (deps : sr_deps) (n : lysc_node) (dm dm' : option string) :
  deps_unique deps -> data_instantiable (nodetype (node_info n)) = true ->
  In (dep_inst_id (data_path (node_info n)) dm') deps ->
  sr_lydmods_moddep_add deps SR_DEP_INSTID dm (Some n) = Ok deps.
Proof.
  intros [_ Hp] Hk Hin. rewrite moddep_add_instid by assumption.
  apply count_dep_inst_id_in in Hin. specialize (Hp (data_path (node_info n))).
  destruct (Nat.ltb_spec 1 (count_dep_inst_id deps (data_path (node_info n)))); [lia |].
  destruct (Nat.ltb_spec 0 (count_dep_inst_id deps (data_path (node_info n))));
    [reflexivity | lia].
Qed.

Lemma inv_data_dep_exists_in (children : list sr_mod_child) (name : string) :
  In (n_inverse_data_deps name) children -> inv_data_dep_exists children name = true.
Proof.
  induction children as [|c rest IH]; simpl; [intros [] |].
  intros [-> | Hin].
  - now rewrite String.eqb_refl.
  - destruct c; auto. destruct (String.eqb value name); auto.
Qed.

Lemma add_inv_data_dep_present (m : sr_mod) (name : string) :
  In (n_inverse_data_deps name) (sm_child m) ->
  sr_lydmods_add_inv_data_dep m name = Ok m.
Proof.
  intros H. unfold sr_lydmods_add_inv_data_dep.
  now rewrite (inv_data_dep_exists_in _ _ H).
Qed.

(** ** Settled sets: a second extraction changes nothing *)

Section Settles.
Context {S : Type}.
Variable le : S -> S -> Prop.
Hypothesis le_refl : forall s, le s s.
Hypothesis le_trans : forall a b c, le a b -> le b c -> le a c.

Local Abbreviation settles := (settles le).

Lemma settles_ret : settles (fun s => Ok s).
Proof. intros s s' H. inversion H; subst. split; [apply le_refl | reflexivity]. Qed.

Lemma settles_err (e : sr_error_info) : settles (fun _ => Err e).
Proof. intros s s' H. discriminate. Qed.

Lemma settles_bind (f g : S -> res S) :
  settles f -> settles g -> settles (fun s => x <- f s ;; g x).
Proof.
  intros Hf Hg s s' H. bind_inv H.
  destruct (Hf _ _ Hx) as [L1 S1]. destruct (Hg _ _ H) as [L2 S2].
  split; [eapply le_trans; eassumption |].
  intros s'' L. rewrite S1 by (eapply le_trans; eassumption). simpl. now apply S2.
Qed.

Lemma settles_pure {X : Type} (c : res X) (k : X -> S -> res S) :
  (forall x, settles (k x)) -> settles (fun s => x <- c ;; k x s).
Proof.
  intros Hk s s' H. destruct c as [x| |]; simpl in *; try discriminate.
  now apply Hk.
Qed.

Lemma settles_ext (f g : S -> res S) :
  (forall s, f s = g s) -> settles f -> settles g.
Proof.
  intros E Hf s s' H. rewrite <- E in H. destruct (Hf _ _ H) as [L St].
  split; [assumption |]. intros s'' L'. rewrite <- E. now apply St.
Qed.

Lemma settles_fold {A : Type} (f : S -> A -> res S) (l : list A) :
  Forall (fun a => settles (fun s => f s a)) l -> settles (fold_res f l).
Proof.
  induction 1 as [|a l Ha _ IH]; simpl.
  - apply settles_ret.
  - now apply (settles_bind (fun s => f s a)).
Qed.
End Settles.

Lemma deps_le_refl (d : sr_deps) : deps_le d d.
Proof. split; auto. Qed.

Lemma deps_le_trans (a b c : sr_deps) : deps_le a b -> deps_le b c -> deps_le a c.
Proof. intros [A1 A2] [B1 B2]. split; auto. Qed.

Lemma ops_le_refl (c : list sr_mod_child) : ops_le c c.
Proof. intros p H. exact H. Qed.

Lemma ops_le_trans (a b c : list sr_mod_child) : ops_le a b -> ops_le b c -> ops_le a c.
Proof. intros A B p H. auto. Qed.

Lemma st_le_refl (s : deps_state) : st_le s s.
Proof. split; [apply ops_le_refl | apply deps_le_refl]. Qed.

Lemma st_le_trans (a b c : deps_state) : st_le a b -> st_le b c -> st_le a c.
Proof.
  intros [A1 A2] [B1 B2].
  split; [eapply ops_le_trans | eapply deps_le_trans]; eassumption.
Qed.

Create HintDb settle.
#[local] Hint Resolve deps_le_refl deps_le_trans st_le_refl st_le_trans
  ops_le_refl ops_le_trans : settle.

Lemma count_dep_module_snoc (d : sr_deps) (x : dep_node) (k : string) :
  count_dep_module (d ++ [x]) k =
  count_dep_module d k
  + match x with dep_module v => if String.eqb v k then 1 else 0 | _ => 0 end.
Proof.
  rewrite count_dep_module_app. f_equal. unfold count_dep_module. simpl.
  destruct x; [destruct (String.eqb value k) |]; reflexivity.
Qed.

Lemma count_dep_inst_id_snoc (d : sr_deps) (x : dep_node) (k : string) :
  count_dep_inst_id (d ++ [x]) k =
  count_dep_inst_id d k
  + match x with dep_inst_id v _ => if String.eqb v k then 1 else 0 | _ => 0 end.
Proof.
  rewrite count_dep_inst_id_app. f_equal. unfold count_dep_inst_id. simpl.
  destruct x; [| destruct (String.eqb xpath k)]; reflexivity.
Qed.

Lemma moddep_add_le (d : sr_deps) (ty : sr_mod_dep_type) (dm : option string)
    (node : option lysc_node) (d' : sr_deps) :
  sr_lydmods_moddep_add d ty dm node = Ok d' -> deps_le d d'.
Proof.
  intros H. apply moddep_add_ok in H.
  destruct H as [-> | [(m & H0 & ->) | (p & x & H0 & ->)]]; [apply deps_le_refl | |].
  - split; intros k Hk.
    + rewrite count_dep_module_snoc. destruct (String.eqb_spec m k); [subst; lia | lia].
    + rewrite count_dep_inst_id_snoc. lia.
  - split; intros k Hk.
    + rewrite count_dep_module_snoc. lia.
    + rewrite count_dep_inst_id_snoc. destruct (String.eqb_spec p k); [subst; lia | lia].
Qed.

Lemma moddep_add_ref_once (d : sr_deps) (m : string) (node : option lysc_node) :
  count_dep_module d m = 1 ->
  sr_lydmods_moddep_add d SR_DEP_REF (Some m) node = Ok d.
Proof. intros E. rewrite moddep_add_ref, E. reflexivity. Qed.

Lemma moddep_add_instid_once (d : sr_deps) (dm : option string) (n : lysc_node) :
  data_instantiable (nodetype (node_info n)) = true ->
  count_dep_inst_id d (data_path (node_info n)) = 1 ->
  sr_lydmods_moddep_add d SR_DEP_INSTID dm (Some n) = Ok d.
Proof. intros K E. rewrite moddep_add_instid by assumption. rewrite E. reflexivity. Qed.

(** After a successful call the key of the call is recorded once. *)
Lemma moddep_add_recorded (d : sr_deps) (ty : sr_mod_dep_type) (dm : option string)
    (node : option lysc_node) (d' : sr_deps) :
  sr_lydmods_moddep_add d ty dm node = Ok d' ->
  match ty with
  | SR_DEP_REF => exists m, dm = Some m /\ count_dep_module d' m = 1
  | SR_DEP_INSTID =>
      exists n, node = Some n /\ data_instantiable (nodetype (node_info n)) = true
                /\ count_dep_inst_id d' (data_path (node_info n)) = 1
  end.
Proof.
  unfold sr_lydmods_moddep_add. intros H. bind_inv H. clear Hx.
  destruct ty, dm as [m|], node as [n|]; try discriminate.
  - exists m. split; [reflexivity |].
    destruct (Nat.ltb_spec 1 (count_dep_module d m)); try discriminate.
    destruct (Nat.ltb_spec 0 (count_dep_module d m)); inversion H; subst; [lia |].
    rewrite count_dep_module_snoc, String.eqb_refl. lia.
  - exists m. split; [reflexivity |].
    destruct (Nat.ltb_spec 1 (count_dep_module d m)); try discriminate.
    destruct (Nat.ltb_spec 0 (count_dep_module d m)); inversion H; subst; [lia |].
    rewrite count_dep_module_snoc, String.eqb_refl. lia.
  - exists n. split; [reflexivity |].
    destruct (nodetype (node_info n)); try discriminate; (split; [reflexivity |]);
      destruct (Nat.ltb_spec 1 (count_dep_inst_id d (data_path (node_info n))));
      try discriminate;
      destruct (Nat.ltb_spec 0 (count_dep_inst_id d (data_path (node_info n))));
      inversion H; subst; try lia;
      rewrite count_dep_inst_id_snoc, String.eqb_refl; lia.
  - exists n. split; [reflexivity |].
    destruct (nodetype (node_info n)); try discriminate; (split; [reflexivity |]);
      destruct (Nat.ltb_spec 1 (count_dep_inst_id d (data_path (node_info n))));
      try discriminate;
      destruct (Nat.ltb_spec 0 (count_dep_inst_id d (data_path (node_info n))));
      inversion H; subst; try lia;
      rewrite count_dep_inst_id_snoc, String.eqb_refl; lia.
Qed.

Lemma moddep_add_settles (ty : sr_mod_dep_type) (dm : option string)
    (node : option lysc_node) :
  settles deps_le (fun d => sr_lydmods_moddep_add d ty dm node).
Proof.
  intros d d' H. split; [eapply moddep_add_le; eassumption |].
  intros d'' [Lm Lp]. apply moddep_add_recorded in H. destruct ty.
  - destruct H as (m & -> & E). apply moddep_add_ref_once. now apply Lm.
  - destruct H as (n & -> & K & E). apply moddep_add_instid_once; [assumption |].
    now apply Lp.
Qed.

Lemma count_op_deps_app (c1 c2 : list sr_mod_child) (p : string) :
  count_op_deps (c1 ++ c2) p = count_op_deps c1 p + count_op_deps c2 p.
Proof. unfold count_op_deps. now rewrite filter_app, length_app. Qed.

Lemma count_op_deps_update_nth (f : sr_mod_child -> sr_mod_child) (i : nat)
    (l : list sr_mod_child) (p : string) :
  (forall c, op_deps_match p (f c) = op_deps_match p c) ->
  count_op_deps (update_nth i f l) p = count_op_deps l p.
Proof.
  intros Hf. unfold count_op_deps. revert i.
  induction l as [|a l IH]; intros [|i]; simpl; try reflexivity.
  - rewrite Hf. now destruct (op_deps_match p a).
  - destruct (op_deps_match p a); simpl; now rewrite IH.
Qed.

Lemma op_deps_match_set_in (p : string) (d : sr_deps) (c : sr_mod_child) :
  op_deps_match p (set_in_deps d c) = op_deps_match p c.
Proof. destruct c; reflexivity. Qed.

Lemma op_deps_match_set_out (p : string) (d : sr_deps) (c : sr_mod_child) :
  op_deps_match p (set_out_deps d c) = op_deps_match p c.
Proof. destruct c; reflexivity. Qed.

Section Idempotence.
Context {SE : SchemaEngine}.
Variable ctx : ly_ctx.

Lemma moddep_type_settles (node : lysc_node) (t : lysc_type) :
  settles deps_le (sr_lydmods_moddep_type ctx t node).
Proof.
  induction t as [| p | l IH |] using lysc_type_forall_ind; simpl.
  - apply (settles_pure deps_le). intros dm. apply moddep_add_settles.
  - apply (settles_pure deps_le). intros dm.
    apply (settles_pure deps_le). intros _.
    destruct dm; [apply (settles_ret deps_le deps_le_refl) | apply moddep_add_settles].
  - apply (settles_ext deps_le (fold_res (fun d t => sr_lydmods_moddep_type ctx t node d) l));
      [reflexivity |].
    apply (settles_fold deps_le deps_le_refl deps_le_trans). exact IH.
  - apply (settles_ret deps_le deps_le_refl).
Qed.

Lemma add_elem_deps_settles (elem : lysc_node) (ty : option lysc_type)
    (when_ musts_ : list lyxp_expr) (opts : lyxp_opt) :
  settles deps_le (add_elem_deps ctx elem ty when_ musts_ opts).
Proof.
  unfold add_elem_deps.
  apply (settles_bind deps_le deps_le_trans
           (fun d => match ty with
                     | Some t => sr_lydmods_moddep_type ctx t elem d
                     | None => Ok d
                     end)).
  - destruct ty; [apply moddep_type_settles | apply (settles_ret deps_le deps_le_refl)].
  - apply (settles_pure deps_le). intros dm1.
    apply (settles_pure deps_le). intros dm2.
    apply (settles_fold deps_le deps_le_refl deps_le_trans).
    apply Forall_forall. intros m _. apply moddep_add_settles.
Qed.

(** A step on the container lifts to the analyzer state. *)
Lemma settles_on_deps (g : sr_deps -> res sr_deps) (k : deps_state -> res deps_state) :
  settles deps_le g -> settles st_le k ->
  settles st_le (fun s => d' <- g (snd s) ;; k (fst s, d')).
Proof.
  intros Hg Hk s s' H. bind_inv H.
  destruct (Hg _ _ Hx) as [L1 S1]. destruct (Hk _ _ H) as [L2 S2].
  split.
  - eapply st_le_trans; [| exact L2]. split; [apply ops_le_refl | exact L1].
  - intros s'' L. destruct s'' as [m'' d'']. simpl.
    rewrite S1; simpl.
    + now apply S2.
    + eapply deps_le_trans; [apply L2 | apply L].
Qed.

Section Node.
Variable rec : bool -> nat -> option lysc_node -> lysc_tree -> deps_state -> res deps_state.
Variables (info : lysc_info) (parent : option lysc_node).
Variables (child output_child : list lysc_tree).
Hypothesis rec_child :
  Forall (fun c => forall out r par, settles st_le (rec out r par c)) child.
Hypothesis rec_output_child :
  Forall (fun c => forall out r par, settles st_le (rec out r par c)) output_child.

Lemma dfs_below_settles (out : bool) (r : nat) :
  settles st_le (dfs_below rec info parent child output_child out r).
Proof.
  unfold dfs_below.
  apply (settles_bind st_le st_le_trans
           (fold_res (fun s c => rec out r (Some (Lysc_node info parent)) c s) child)).
  - apply (settles_fold st_le st_le_refl st_le_trans).
    eapply Forall_impl; [| exact rec_child]. intros c Hc. apply Hc.
  - destruct (is_rpc_or_action (nodetype info)).
    + apply (settles_fold st_le st_le_refl st_le_trans).
      eapply Forall_impl; [| exact rec_output_child]. intros c Hc. apply Hc.
    + apply (settles_ret st_le st_le_refl).
Qed.

Lemma dfs_visit_settles (out : bool) (r : nat) (ty : option lysc_type)
    (when_ musts_ : list lyxp_expr) (opts : lyxp_opt) :
  settles st_le (dfs_visit ctx rec info parent child output_child out r ty when_ musts_ opts).
Proof.
  unfold dfs_visit.
  apply (settles_on_deps (add_elem_deps ctx (Lysc_node info parent) ty when_ musts_ opts)
           (dfs_below rec info parent child output_child out r)).
  - apply add_elem_deps_settles.
  - apply dfs_below_settles.
Qed.

Lemma dfs_first_of_le (out : bool) (l : list lysc_tree) (s s' : deps_state) :
  Forall (fun c => forall out r par, settles st_le (rec out r par c)) l ->
  dfs_first_of rec info parent out l s = Ok s' -> st_le s s'.
Proof.
  intros Hl H. destruct l as [|c l]; simpl in H.
  - inversion H; subst. apply st_le_refl.
  - inversion Hl as [|? ? Hc _]; subst. exact (proj1 (Hc _ _ _ _ _ H)).
Qed.

(** Appending the record of an operation that has none. *)
Lemma ops_le_new_op (c : list sr_mod_child) (p : string) (i o : option sr_deps) :
  count_op_deps c p = 0 ->
  ops_le c (c ++ [n_op_deps p i o]) /\ count_op_deps (c ++ [n_op_deps p i o]) p = 1.
Proof.
  intros H0. split.
  - intros k Hk. rewrite count_op_deps_app. unfold count_op_deps at 2. simpl.
    destruct (String.eqb_spec p k); simpl; [subst; lia | lia].
  - rewrite count_op_deps_app, H0. unfold count_op_deps. simpl.
    now rewrite String.eqb_refl.
Qed.

Lemma ops_le_update_nth (f : sr_mod_child -> sr_mod_child) (i : nat)
    (l : list sr_mod_child) :
  (forall p c, op_deps_match p (f c) = op_deps_match p c) ->
  ops_le l (update_nth i f l).
Proof. intros Hf p H. rewrite count_op_deps_update_nth; auto. Qed.

Lemma dfs_op_deps_action_settles :
  settles st_le (dfs_op_deps_action rec info parent child output_child).
Proof.
  intros s s' H. unfold dfs_op_deps_action in *.
  destruct (Nat.eqb_spec (count_op_deps (fst s) (data_path info)) 1) as [E1 | N1].
  - inversion H; subst. split; [apply st_le_refl |].
    intros s'' [L _]. now rewrite (L _ E1).
  - bind_inv H. apply assert_ok, Nat.eqb_eq in Hx.
    apply bind_ok in H. destruct H as (s1 & H1 & H).
    apply bind_ok in H. destruct H as (s2 & H2 & H).
    inversion H; subst; clear H.
    destruct (ops_le_new_op (fst s) (data_path info) (Some []) None Hx) as [La Ea].
    apply dfs_first_of_le in H1; [| exact rec_child].
    apply dfs_first_of_le in H2; [| exact rec_output_child].
    assert (Lall : ops_le (fst s)
                     (update_nth (length (fst s)) (set_out_deps (snd s2)) (fst s2))).
    { eapply ops_le_trans; [exact La |].
      eapply ops_le_trans; [exact (proj1 H1) |]. simpl.
      eapply ops_le_trans;
        [apply (ops_le_update_nth
                  (fun c => set_out_deps [] (set_in_deps (snd s1) c)) (length (fst s)))|].
      { intros p c. now rewrite op_deps_match_set_out, op_deps_match_set_in. }
      eapply ops_le_trans; [exact (proj1 H2) |]. simpl.
      apply ops_le_update_nth. intros p c. apply op_deps_match_set_out. }
    assert (Eall : count_op_deps
                     (update_nth (length (fst s)) (set_out_deps (snd s2)) (fst s2))
                     (data_path info) = 1).
    { rewrite count_op_deps_update_nth by (intros c; apply op_deps_match_set_out).
      apply (proj1 H2). simpl.
      rewrite count_op_deps_update_nth
        by (intros c; now rewrite op_deps_match_set_out, op_deps_match_set_in).
      apply (proj1 H1). exact Ea. }
    split.
    + split; [exact Lall | apply deps_le_refl].
    + intros s'' [L _]. simpl in L. now rewrite (L _ Eall).
Qed.

Lemma dfs_op_deps_notif_settles :
  settles st_le (dfs_op_deps_notif ctx rec info parent child output_child).
Proof.
  intros s s' H. unfold dfs_op_deps_notif in *.
  destruct (Nat.eqb_spec (count_op_deps (fst s) (data_path info)) 1) as [E1 | N1].
  - inversion H; subst. split; [apply st_le_refl |].
    intros s'' [L _]. now rewrite (L _ E1).
  - bind_inv H. apply assert_ok, Nat.eqb_eq in Hx.
    apply bind_ok in H. destruct H as (s1 & H1 & H).
    inversion H; subst; clear H.
    destruct (ops_le_new_op (fst s) (data_path info) (Some []) None Hx) as [La Ea].
    apply dfs_visit_settles in H1. destruct H1 as [[L1 _] _]. simpl in L1.
    assert (Lall : ops_le (fst s)
                     (update_nth (length (fst s)) (set_in_deps (snd s1)) (fst s1))).
    { eapply ops_le_trans; [exact La |].
      eapply ops_le_trans; [exact L1 |].
      apply ops_le_update_nth. intros p c. apply op_deps_match_set_in. }
    assert (Eall : count_op_deps
                     (update_nth (length (fst s)) (set_in_deps (snd s1)) (fst s1))
                     (data_path info) = 1).
    { rewrite count_op_deps_update_nth by (intros c; apply op_deps_match_set_in).
      apply L1. exact Ea. }
    split.
    + split; [exact Lall | apply deps_le_refl].
    + intros s'' [L _]. simpl in L. now rewrite (L _ Eall).
Qed.

Lemma dfs_node_settles (output : bool) (root : nat) :
  settles st_le (dfs_node ctx rec info parent child output_child output root).
Proof.
  unfold dfs_node.
  destruct (disabled info); [apply (settles_ret st_le st_le_refl) |].
  destruct (nodetype info);
    try apply dfs_visit_settles;
    try (destruct (Nat.eqb (nid info) root);
         [ try destruct output; apply dfs_visit_settles
         | first [apply dfs_op_deps_action_settles | apply dfs_op_deps_notif_settles] ]).
  apply settles_err.
Qed.
End Node.

Lemma add_data_deps_dfs_settles (t : lysc_tree) :
  forall output root parent, settles st_le (fun s => add_data_deps_dfs ctx output root parent t s).
Proof.
  induction t as [info child output_child IHc IHo] using lysc_tree_forall_ind.
  intros output root parent. simpl.
  apply (settles_ext st_le (dfs_node ctx (add_data_deps_dfs ctx) info parent child output_child
                             output root)); [reflexivity |].
  apply dfs_node_settles.
  - eapply Forall_impl; [| exact IHc]. intros c Hc out r par. apply Hc.
  - eapply Forall_impl; [| exact IHo]. intros c Hc out r par. apply Hc.
Qed.

(** A second extraction over the same tree, into what the first one left,
    succeeds and changes nothing. *)
Lemma add_data_deps_r_twice (sr_mod_ : list sr_mod_child) (parent : option lysc_node)
    (data_root : lysc_tree) (output : bool) (deps : sr_deps) (st' : deps_state) :
  sr_lydmods_add_data_deps_r ctx sr_mod_ parent data_root output deps = Ok st' ->
  sr_lydmods_add_data_deps_r ctx (fst st') parent data_root output (snd st') = Ok st'.
Proof.
  unfold sr_lydmods_add_data_deps_r. intros H.
  apply add_data_deps_dfs_settles in H. destruct H as [_ S].
  rewrite <- surjective_pairing. apply S, st_le_refl.
Qed.
Lemma add_roots_deps_settles (roots : list lysc_tree) :
  settles st_le (add_roots_deps ctx roots).
Proof.
  unfold add_roots_deps. apply (settles_fold st_le st_le_refl st_le_trans).
  apply Forall_forall. intros root _.
  apply (settles_ext st_le
           (fun s => add_data_deps_dfs ctx false (nid (tree_info root)) None root s)).
  - intros [m d]. reflexivity.
  - apply add_data_deps_dfs_settles.
Qed.

Lemma add_module_deps_settles (ly_mod : lys_module) :
  settles st_le (add_module_deps ctx ly_mod).
Proof.
  unfold add_module_deps.
  apply (settles_bind st_le st_le_trans (add_roots_deps ctx (ly_data ly_mod)));
    [apply add_roots_deps_settles |].
  apply (settles_bind st_le st_le_trans (add_roots_deps ctx (ly_rpcs ly_mod)));
    apply add_roots_deps_settles.
Qed.

(** The same over all the data, RPCs and notifications of a module. *)
Lemma add_module_deps_twice (ly_mod : lys_module) (st st' : deps_state) :
  add_module_deps ctx ly_mod st = Ok st' -> add_module_deps ctx ly_mod st' = Ok st'.
Proof.
  intros H. apply add_module_deps_settles in H. destruct H as [_ S].
  apply S, st_le_refl.
Qed.
End Idempotence.

(** ** The apply engine does not touch what it fails on *)

Section ApplyProps.
Context {SE : SchemaEngine} {DS : Datastore SE}.

Lemma apply_cleanup_ok (sr_mods : sr_mods_t) (fs : files) (st : apply_st) (r : apply_result) :
  apply_cleanup sr_mods fs st = Ok r ->
  r_mods r = sr_mods /\ r_files r = fs /\ r_fail r = st_fail st
  /\ r_ctx r = st_ctx st
  /\ (st_fail st = true -> r_change r = false /\ In apply_warning (r_log r)).
Proof.
  unfold apply_cleanup. intros H.
  destruct (st_fail st) eqn:F; [| destruct (st_change st)];
    inversion H; subst; simpl; repeat split; try discriminate; auto.
  apply in_or_app. right. left. reflexivity.
Qed.

(** The data check writes no file when it sets [fail]. *)
Lemma update_data_ok (sr_mods : sr_mods_t) (fs fs' : files) (st st' : apply_st) :
  sr_lydmods_sched_update_data sr_mods fs st = Ok (fs', st') ->
  (fs' = fs /\ st' = set_fail_ly st) \/ st' = st.
Proof.
  unfold sr_lydmods_sched_update_data, update_data_failed. intros H.
  match type of H with
  | match ?c with _ => _ end = _ => destruct c as [[fs1 st1]| |] eqn:E; try discriminate
  end.
  inversion H; subst; clear H.
  bind_as E old_ctx0 E0. bind_as E old E1. bind_as E acc E2.
  destruct acc as [[old_start old_run] set].
  destruct (lyd_print_mem old_start); try discriminate.
  destruct (lyd_print_mem old_run); try discriminate.
  destruct (lyd_parse_data_mem (st_ctx st) s false);
    [| inversion E; auto].
  destruct (lyd_parse_data_mem (st_ctx st) s0 false);
    [| inversion E; auto].
  bind_as E acc2 E3. destruct acc2 as [[ns nr] set1].
  destruct (lyd_validate_all ns (st_ctx st)); [| inversion E; auto].
  destruct (lyd_validate_all nr (st_ctx st)); [| inversion E; auto].
  bind_as E fs2 E4. inversion E; auto.
Qed.

Lemma update_data_fail (sr_mods : sr_mods_t) (fs fs' : files) (st st' : apply_st) :
  sr_lydmods_sched_update_data sr_mods fs st = Ok (fs', st') ->
  st_fail st = false -> st_fail st' = true -> fs' = fs.
Proof.
  intros H F F'. apply update_data_ok in H. destruct H as [[-> _] | ->]; [reflexivity |].
  congruence.
Qed.

Lemma check_removed_loop_fail (new_ctx : ly_ctx) (set : sr_mods_t) (fail : bool)
    (log : sr_log) :
  (exists m, In m set /\ removed_still_implemented new_ctx m = true) ->
  fst (check_removed_loop new_ctx set fail log) = true.
Proof.
  induction set as [|a set IH]; simpl; intros (m & Hin & Hm); [destruct Hin |].
  destruct (removed_still_implemented new_ctx a) eqn:E; [reflexivity |].
  apply IH. destruct Hin as [-> | Hin]; [congruence | eauto].
Qed.

End ApplyProps.

Section ApplyClaims.
Context {SE : SchemaEngine} {DS : Datastore SE}.

(** C1. When [sr_lydmods_sched_apply] returns without an error and
    reports [fail], the registry tree is the one it was given, with every
    schedule marker, module record and staged entry, the datastore files
    are as they were, the reported [change] is 0 and the warning that all
    changes stay scheduled is logged: the apply can be retried. *)
Theorem sched_apply_fail_keeps_registry (sr_mods : sr_mods_t) (new_ctx : ly_ctx)
    (fs : files) (r : apply_result) :
  sr_lydmods_sched_apply sr_mods new_ctx fs = Ok r ->
  r_fail r = true ->
  r_mods r = sr_mods /\ r_files r = fs /\ r_change r = false
  /\ In apply_warning (r_log r).
Proof.
  unfold sr_lydmods_sched_apply. intros H Hfail.
  bind_as H st4 H4.
  destruct (st_fail st4) eqn:F4.
  { apply apply_cleanup_ok in H. destruct H as (Hm & Hf & _ & _ & Hc).
    destruct (Hc F4). auto. }
  destruct (st_change st4).
  2:{ apply apply_cleanup_ok in H. destruct H as (_ & _ & Hr & _). congruence. }
  bind_as H st5 H5.
  destruct (st_fail st5) eqn:F5.
  { apply apply_cleanup_ok in H. destruct H as (Hm & Hf & _ & _ & Hc).
    destruct (Hc F5). auto. }
  bind_as H ud H6. destruct ud as [fs' st6]. simpl in H.
  destruct (st_fail st6) eqn:F6.
  { apply apply_cleanup_ok in H. destruct H as (Hm & Hf & _ & _ & Hc).
    destruct (Hc F6). rewrite (update_data_fail _ _ _ _ _ H6 F5 F6) in Hf. auto. }
  bind_as H c Hc. bind_as H sr_mods' Hr.
  apply apply_cleanup_ok in H. destruct H as (_ & _ & Hr' & _). simpl in Hr'. congruence.
Qed.

(** C4. When the context phases have set [change] and not [fail], and a
    module carrying a [removed] marker is, by its name and recorded
    revision, still implemented in the new context, the apply returns
    with [fail] set and [change] cleared, before any commit: the registry
    tree and the files are as they were and the module is still a
    [module] entry of the registry. *)
Theorem removed_module_still_implemented_fails (sr_mods : sr_mods_t) (new_ctx : ly_ctx)
    (fs : files) (st4 : apply_st) (m : sr_mod) :
  sched_create_new_ctx sr_mods new_ctx = Ok st4 ->
  st_fail st4 = false ->
  st_change st4 = true ->
  In m sr_mods -> is_module m = true -> has_removed (sm_child m) = true ->
  removed_still_implemented (st_ctx st4) m = true ->
  exists r,
    sr_lydmods_sched_apply sr_mods new_ctx fs = Ok r
    /\ r_fail r = true /\ r_change r = false
    /\ r_mods r = sr_mods /\ r_files r = fs
    /\ In m (r_mods r) /\ is_module m = true.
Proof.
  intros H4 F4 C4 Hin Hmod Hrem Himpl.
  assert (Hf : forall fail log,
             fst (check_removed_loop (st_ctx st4) (removed_set sr_mods) fail log) = true).
  { intros fail log. apply check_removed_loop_fail. exists m. split; [| assumption].
    unfold removed_set. apply filter_In. split; [assumption |].
    now rewrite Hmod, Hrem. }
  unfold sr_lydmods_sched_apply. rewrite H4. simpl. rewrite F4, C4.
  unfold sr_lydmods_sched_check_removed_modules. simpl.
  specialize (Hf false (st_log st4)).
  destruct (check_removed_loop (st_ctx st4) (removed_set sr_mods) false (st_log st4))
    as [f l].
  simpl in Hf. subst f. simpl. unfold apply_cleanup. simpl.
  eexists. split; [reflexivity |]. simpl. auto 10.
Qed.

End ApplyClaims.

(** The apply of "remove [b]" while [a] imports [b]. *)
Lemma sched_apply_fail_keeps_registry_witness :
  let sr_mods := [Toy.module_entry "a" []; Toy.module_entry "b" [n_removed]] in
  exists r,
    @sr_lydmods_sched_apply Toy.SE_ab Toy.DS_ab sr_mods [] Toy.no_files = Ok r
    /\ r_fail r = true
    /\ r_mods r = sr_mods /\ r_files r = Toy.no_files /\ r_change r = false
    /\ In apply_warning (r_log r).
Proof.
  intros sr_mods.
  destruct (@sr_lydmods_sched_apply Toy.SE_ab Toy.DS_ab sr_mods [] Toy.no_files)
    as [r| |] eqn:E; try (vm_compute in E; discriminate).
  exists r.
  assert (F : r_fail r = true) by (vm_compute in E; inversion E; reflexivity).
  split; [reflexivity |]. split; [exact F |].
  exact (@sched_apply_fail_keeps_registry Toy.SE_ab Toy.DS_ab sr_mods [] Toy.no_files r E F).
Defined.

Lemma removed_module_still_implemented_fails_witness :
  let sr_mods := [Toy.module_entry "a" []; Toy.module_entry "b" [n_removed]] in
  exists r,
    @sr_lydmods_sched_apply Toy.SE_ab Toy.DS_ab sr_mods [] Toy.no_files = Ok r
    /\ r_fail r = true /\ r_change r = false
    /\ r_mods r = sr_mods /\ r_files r = Toy.no_files
    /\ In (Toy.module_entry "b" [n_removed]) (r_mods r)
    /\ is_module (Toy.module_entry "b" [n_removed]) = true.
Proof.
  intros sr_mods.
  destruct (@sched_create_new_ctx Toy.SE_ab sr_mods []) as [st4| |] eqn:E;
    try (vm_compute in E; discriminate).
  apply (@removed_module_still_implemented_fails Toy.SE_ab Toy.DS_ab sr_mods []
           Toy.no_files st4 (Toy.module_entry "b" [n_removed]) E);
    try (vm_compute in E; inversion E; reflexivity).
  right. left. reflexivity.
Defined.

(** ** The analyzer claims *)

(** C7. Dependency recording keeps a set duplicate-free: in such a set,
    adding a module reference whose module already appears, or an
    instance-identifier whose data path already appears, leaves the set as
    it is, and so does adding an inverse dependency whose module name
    already appears; therefore a second extraction over the same compiled
    schema (a subtree, or all the data, RPCs and notifications of a
    module), into what the first one left, succeeds and leaves the same
    fact sets. *)
Theorem dependency_recording_idempotent {SE : SchemaEngine} (ctx : ly_ctx) :
  (forall deps ty dm node deps',
      deps_unique deps ->
      sr_lydmods_moddep_add deps ty dm node = Ok deps' -> deps_unique deps')
  /\ (forall deps m,
      deps_unique deps -> In (dep_module m) deps ->
      sr_lydmods_moddep_add deps SR_DEP_REF (Some m) None = Ok deps)
  /\ (forall deps n dm dm',
      deps_unique deps -> data_instantiable (nodetype (node_info n)) = true ->
      In (dep_inst_id (data_path (node_info n)) dm') deps ->
      sr_lydmods_moddep_add deps SR_DEP_INSTID dm (Some n) = Ok deps)
  /\ (forall sr_mod_ name,
      In (n_inverse_data_deps name) (sm_child sr_mod_) ->
      sr_lydmods_add_inv_data_dep sr_mod_ name = Ok sr_mod_)
  /\ (forall sr_mod_ parent data_root output deps st',
      sr_lydmods_add_data_deps_r ctx sr_mod_ parent data_root output deps = Ok st' ->
      sr_lydmods_add_data_deps_r ctx (fst st') parent data_root output (snd st') = Ok st')
  /\ (forall ly_mod st st',
      add_module_deps ctx ly_mod st = Ok st' -> add_module_deps ctx ly_mod st' = Ok st').
Proof.
  split; [| split; [| split; [| split; [| split]]]].
  - intros. eapply moddep_add_unique; eassumption.
  - intros. now apply moddep_add_ref_present.
  - intros. eapply moddep_add_instid_present; eassumption.
  - intros. now apply add_inv_data_dep_present.
  - intros. eapply add_data_deps_r_twice; eassumption.
  - intros. eapply add_module_deps_twice; eassumption.
Qed.

Lemma deps_unique_b : deps_unique [dep_module "b"].
Proof.
  split; intros k; [| vm_compute; lia].
  unfold count_dep_module. cbn [filter]. destruct (String.eqb "b" k); simpl; lia.
Qed.

Lemma dependency_recording_idempotent_witness :
  sr_lydmods_moddep_add [dep_module "b"] SR_DEP_REF (Some "b") None = Ok [dep_module "b"]
  /\ sr_lydmods_add_inv_data_dep (Toy.module_entry "b" [n_inverse_data_deps "a"]) "a"
     = Ok (Toy.module_entry "b" [n_inverse_data_deps "a"])
  /\ @sr_lydmods_add_data_deps_r Toy.SE_bc [] [] None Toy.rpc_r true [dep_module "b"]
     = Ok ([], [dep_module "b"]).
Proof.
  destruct (@dependency_recording_idempotent Toy.SE_bc []) as (_ & H2 & _ & H4 & H5 & _).
  split; [| split].
  - apply H2; [exact deps_unique_b | left; reflexivity].
  - apply H4. left. reflexivity.
  - apply (H5 [] None Toy.rpc_r true [] ([], [dep_module "b"])). vm_compute. reflexivity.
Defined.

(** The assertion of [sr_lydmods_moddep_expr_atom_is_foreign] fails for
    every top node that is not an operation and has no parent. *)
Lemma atom_is_foreign_top_level_aborts (atom top_node : lysc_node) :
  node_parent top_node = None -> is_op (nodetype (node_info top_node)) = false ->
  sr_lydmods_moddep_expr_atom_is_foreign atom top_node = Abort.
Proof.
  intros Hp Ho. unfold sr_lydmods_moddep_expr_atom_is_foreign. now rewrite Hp, Ho.
Qed.

(** The top node that [sr_lydmods_moddep_expr_get_dep_mods] finds is an
    action, a notification or a node without parent. *)
Lemma expr_top_node_kind (ctx_node : lysc_node) :
  is_action_or_notif (nodetype (node_info (expr_top_node ctx_node))) = true
  \/ node_parent (expr_top_node ctx_node) = None.
Proof.
  induction ctx_node as [info | info p IH] using lysc_node_parent_ind; simpl.
  - right. reflexivity.
  - destruct (is_action_or_notif (nodetype info)) eqn:E; [left; exact E | exact IH].
Qed.

(** So for every expression of a node that is not inside an action or a
    notification and not inside an RPC, the check of an atom aborts. *)
Lemma atom_is_foreign_outside_operations_aborts (atom ctx_node : lysc_node) :
  is_op (nodetype (node_info (expr_top_node ctx_node))) = false ->
  sr_lydmods_moddep_expr_atom_is_foreign atom (expr_top_node ctx_node) = Abort.
Proof.
  intros Ho. apply atom_is_foreign_top_level_aborts; [| exact Ho].
  destruct (expr_top_node_kind ctx_node) as [K | K]; [| exact K].
  destruct (nodetype (node_info (expr_top_node ctx_node))); discriminate.
Qed.

(** What the loop of [sr_lydmods_moddep_expr_atom_is_foreign] reaches:
    [top_node] when the atom is below it, else the top-level ancestor of
    the atom. *)
Lemma atom_walk_up_spec (atom top_node : lysc_node) :
  (node_eqb (atom_walk_up atom top_node) top_node = true
   /\ in_subtree atom top_node = true)
  \/ (node_eqb (atom_walk_up atom top_node) top_node = false
      /\ in_subtree atom top_node = false
      /\ atom_walk_up atom top_node = top_ancestor atom).
Proof.
  induction atom as [info | info p IH] using lysc_node_parent_ind.
  - simpl. destruct (node_eqb (Lysc_node info None) top_node) eqn:E; auto.
  - cbn [atom_walk_up in_subtree top_ancestor].
    destruct (node_eqb (Lysc_node info (Some p)) top_node) eqn:E.
    + left. rewrite E. auto.
    + simpl. exact IH.
Qed.

(** The rule the statements after the assertion implement, for a top
    node that is an operation: an atom is foreign exactly when it is
    outside the subtree of the operation, whatever its module, and the
    module reported is that of its top-level ancestor. *)
Lemma atom_is_foreign_body_operation (atom top_node : lysc_node) :
  is_op (nodetype (node_info top_node)) = true ->
  atom_is_foreign_body atom top_node =
  if in_subtree atom top_node then None
  else Some (module (node_info (top_ancestor atom))).
Proof.
  intros Ho. unfold atom_is_foreign_body. rewrite Ho.
  destruct (atom_walk_up_spec atom top_node) as [[E S] | (E & S & W)]; rewrite E, S.
  - reflexivity.
  - now rewrite W.
Qed.

(** The same for a top node that is a top-level node and not an
    operation: an atom outside its subtree is foreign exactly when the
    module of its top-level ancestor is another one. *)
Lemma atom_is_foreign_body_top_level (atom top_node : lysc_node) :
  is_op (nodetype (node_info top_node)) = false ->
  atom_is_foreign_body atom top_node =
  if in_subtree atom top_node then None
  else if mod_eqb (module (node_info (top_ancestor atom))) (module (node_info top_node))
       then None
       else Some (module (node_info (top_ancestor atom))).
Proof.
  intros Ho. unfold atom_is_foreign_body. rewrite Ho.
  destruct (atom_walk_up_spec atom top_node) as [[E S] | (E & S & W)]; rewrite E, S.
  - reflexivity.
  - rewrite W.
    now destruct (mod_eqb (module (node_info (top_ancestor atom)))
                    (module (node_info top_node))).
Qed.

(** C2. The container [/a:c] of module [a] has a must that refers to
    [/b:x] of module [b]. The statements after the assertion find the
    foreign module [b], as the claim says, but the assertion requires a
    top node with a parent or an operation, which the top-level container
    is not: the check of the atom aborts, and with it the collection for
    the expression and the extraction over the container. *)
Lemma foreign_atom_of_top_level_node_aborts :
  atom_is_foreign_body Toy.node_bx (Lysc_node Toy.info_ac None) = Some (Toy.hdr "b")
  /\ sr_lydmods_moddep_expr_atom_is_foreign Toy.node_bx (Lysc_node Toy.info_ac None) = Abort
  /\ @sr_lydmods_moddep_expr_get_dep_mods Toy.SE_bc [] (Lysc_node Toy.info_ac None)
       "cond-b" LYXP_SCNODE_SCHEMA [] = Abort
  /\ @sr_lydmods_add_data_deps_r Toy.SE_bc [] [] None (Lysc_tree Toy.info_ac [] []) false []
     = Abort.
Proof. repeat split. Qed.

(** C3. The RPC [/a:r] has the input must [cond-b] (module [b]) and the
    output must [cond-c] (module [c]). Traversed as the root for the
    input side the extraction records [c], the module of the output must,
    and for the output side [b], the module of the input must; the
    operation-dependency record that [sr_lydmods_add_op_deps] builds for
    it has neither. The read-only check takes the input musts for the
    input side and the output musts for the output side. *)
Lemma rpc_musts_taken_from_the_other_side :
  @sr_lydmods_add_data_deps_r Toy.SE_bc [] [] None Toy.rpc_r false []
  = Ok ([], [dep_module "c"])
  /\ @sr_lydmods_add_data_deps_r Toy.SE_bc [] [] None Toy.rpc_r true []
     = Ok ([], [dep_module "b"])
  /\ @sr_lydmods_add_op_deps Toy.SE_bc [] [] None Toy.rpc_r
     = Ok [n_op_deps "/a:r" (Some []) (Some [])]
  /\ @sr_lydmods_check_deps_r Toy.SE_bc [] Toy.rpc_r [] = Ok [Toy.hdr "b"; Toy.hdr "c"].
Proof. repeat split. Qed.

Lemma bind_then_pair {A B C : Type} (v : res A) (g : A -> B) (c : C) :
  (x <- v ;; Ok (g x, c)) = (y <- (x <- v ;; Ok (g x)) ;; Ok (y, c)).
Proof. destruct v; reflexivity. Qed.

(** The branch of the traversal for a nested operation is
    [sr_lydmods_add_op_deps]. *)
Lemma add_data_deps_dfs_nested_op {SE : SchemaEngine} (ctx : ly_ctx) (output : bool)
    (root : nat) (parent : option lysc_node) (t : lysc_tree)
    (sr_mod_ : list sr_mod_child) (deps : sr_deps) :
  disabled (tree_info t) = false ->
  is_op (nodetype (tree_info t)) = true ->
  Nat.eqb (nid (tree_info t)) root = false ->
  add_data_deps_dfs ctx output root parent t (sr_mod_, deps) =
  (c <- sr_lydmods_add_op_deps ctx sr_mod_ parent t ;; Ok (c, deps)).
Proof.
  destruct t as [info child output_child]. simpl. intros Hd Ho Hr.
  unfold dfs_node, sr_lydmods_add_op_deps. simpl. rewrite Hd, Hr, Ho. simpl.
  destruct (nodetype info) eqn:K; try discriminate.
  - unfold dfs_op_deps_action. simpl.
    destruct (Nat.eqb (count_op_deps sr_mod_ (data_path info)) 1); [reflexivity |].
    destruct (Nat.eqb (count_op_deps sr_mod_ (data_path info)) 0); [| reflexivity]. simpl.
    unfold add_data_deps_first, sr_lydmods_add_data_deps_r.
    destruct child as [|c child]; simpl.
    + destruct output_child as [|o output_child]; simpl; [reflexivity |].
      destruct (add_data_deps_dfs ctx true _ _ o _); reflexivity.
    + destruct (add_data_deps_dfs ctx false _ _ c _) as [s1| |]; simpl; try reflexivity.
      destruct output_child as [|o output_child]; simpl; [reflexivity |].
      destruct (add_data_deps_dfs ctx true _ _ o _); reflexivity.
  - unfold dfs_op_deps_action. simpl.
    destruct (Nat.eqb (count_op_deps sr_mod_ (data_path info)) 1); [reflexivity |].
    destruct (Nat.eqb (count_op_deps sr_mod_ (data_path info)) 0); [| reflexivity]. simpl.
    unfold add_data_deps_first, sr_lydmods_add_data_deps_r.
    destruct child as [|c child]; simpl.
    + destruct output_child as [|o output_child]; simpl; [reflexivity |].
      destruct (add_data_deps_dfs ctx true _ _ o _); reflexivity.
    + destruct (add_data_deps_dfs ctx false _ _ c _) as [s1| |]; simpl; try reflexivity.
      destruct output_child as [|o output_child]; simpl; [reflexivity |].
      destruct (add_data_deps_dfs ctx true _ _ o _); reflexivity.
  - unfold dfs_op_deps_notif. simpl.
    destruct (Nat.eqb (count_op_deps sr_mod_ (data_path info)) 1); [reflexivity |].
    destruct (Nat.eqb (count_op_deps sr_mod_ (data_path info)) 0); [| reflexivity]. simpl.
    unfold sr_lydmods_add_data_deps_r. simpl. unfold dfs_node.
    rewrite Hd, K, Nat.eqb_refl.
    exact (bind_then_pair
             (dfs_visit ctx (add_data_deps_dfs ctx) info parent child output_child false
                (nid info) None [] (musts info) LYXP_SCNODE_SCHEMA
                (sr_mod_ ++ [n_op_deps (data_path info) (Some []) None], []))
             (fun s1 => update_nth (length sr_mod_) (set_in_deps (snd s1)) (fst s1)) deps).
Qed.

(** ** The schedule manager claims *)

Lemma find_installed_from_count (i : nat) (sr_mods : sr_mods_t) (name : string) :
  length (find_installed_from i sr_mods name)
  = count_occ string_dec (installed_names sr_mods) name.
Proof.
  revert i. induction sr_mods as [|m l IH]; intros i; simpl; [reflexivity |].
  unfold installed_names in *. simpl.
  destruct (is_installed_module m); simpl; [| apply IH].
  destruct (String.eqb_spec (sm_name m) name) as [E | N];
    destruct (string_dec (sm_name m) name); try contradiction; simpl; now rewrite IH.
Qed.

Lemma find_installed_count (sr_mods : sr_mods_t) (name : string) :
  length (find_installed_module sr_mods name)
  = count_occ string_dec (installed_names sr_mods) name.
Proof. apply find_installed_from_count. Qed.

Section ScheduleClaims.
Context {SE : SchemaEngine} {DS : Datastore SE}.

Lemma parse_change_print_err (fs : files) (ctx : ly_ctx) (sr_mods : sr_mods_t)
    (change : sr_mods_t -> res sr_mods_t) (e : sr_error_info) :
  sr_lydmods_parse fs ctx = Ok sr_mods -> change sr_mods = Err e ->
  parse_change_print fs ctx change = (Err e, fs).
Proof. intros P C. unfold parse_change_print. now rewrite P, C. Qed.

(** C5. With the registry loaded and the names of the staged entries
    distinct (they are the keys of the list): scheduling the installation
    of a module for which a staged entry exists fails with the "already
    scheduled" error and unscheduling the installation of a module for
    which none exists fails with the "not scheduled" error; in both cases
    nothing is added and the registry file is not written. *)
Theorem sched_install_twice_unsched_unknown (fs : files) (ctx : ly_ctx)
    (sr_mods : sr_mods_t) (ly_mod : lys_module) (features : list string)
    (module_name : string) :
  sr_lydmods_parse fs ctx = Ok sr_mods ->
  NoDup (installed_names sr_mods) ->
  (In (ly_name ly_mod) (installed_names sr_mods) ->
   sr_lydmods_deferred_add_module fs ctx ly_mod features
   = (Err [(SR_ERR_EXISTS,
            "Module " ++ quoted (ly_name ly_mod) ++ " already scheduled for installation."
           )%string], fs))
  /\ (~ In module_name (installed_names sr_mods) ->
      sr_lydmods_unsched_add_module fs ctx module_name
      = (Err [(SR_ERR_NOT_FOUND,
               "Module " ++ quoted module_name ++ " not scheduled for installation."
              )%string], fs)).
Proof.
  intros P U. split; intros H.
  - apply (parse_change_print_err fs ctx sr_mods); [exact P |].
    rewrite find_installed_count.
    assert (E : count_occ string_dec (installed_names sr_mods) (ly_name ly_mod) = 1).
    { apply (count_occ_In string_dec) in H.
      pose proof (proj1 (NoDup_count_occ string_dec _) U (ly_name ly_mod)). lia. }
    now rewrite E.
  - apply (parse_change_print_err fs ctx sr_mods); [exact P |].
    rewrite find_installed_count.
    now rewrite (proj1 (count_occ_not_In string_dec _ _) H).
Qed.

(** C9. With the registry loaded: scheduling a feature change fails when
    the one change scheduled for that feature is the same change, and,
    when no change is scheduled for that feature, fails when the feature
    is already in the requested state; in both cases the registry file is
    not written. *)
Theorem deferred_change_feature_rejects (fs : files) (ctx : ly_ctx) (sr_mods : sr_mods_t)
    (ly_mod : lys_module) (feat_name : string) (to_enable is_enabled : bool) :
  sr_lydmods_parse fs ctx = Ok sr_mods ->
  ((exists n,
       module_children sr_mods (ly_name ly_mod) (is_changed_feature_named feat_name)
       = [n_changed_feature n (if to_enable then "enable" else "disable")]) ->
   sr_lydmods_deferred_change_feature fs ctx ly_mod feat_name to_enable is_enabled
   = (Err [(SR_ERR_EXISTS,
            "Module " ++ quoted (ly_name ly_mod) ++ " feature " ++ quoted feat_name
            ++ " already scheduled to be "
            ++ (if to_enable then "enabled" else "disabled") ++ ".")%string], fs))
  /\ (module_children sr_mods (ly_name ly_mod) (is_changed_feature_named feat_name) = [] ->
      is_enabled = to_enable ->
      sr_lydmods_deferred_change_feature fs ctx ly_mod feat_name to_enable is_enabled
      = (Err [(SR_ERR_EXISTS,
               "Module " ++ quoted (ly_name ly_mod) ++ " feature " ++ quoted feat_name
               ++ " is already " ++ (if to_enable then "enabled" else "disabled") ++ "."
              )%string], fs)).
Proof.
  intros P. split.
  - intros [n E]. apply (parse_change_print_err fs ctx sr_mods); [exact P |].
    rewrite E. destruct to_enable; reflexivity.
  - intros E ->. apply (parse_change_print_err fs ctx sr_mods); [exact P |].
    rewrite E. destruct to_enable; reflexivity.
Qed.

Lemma find_map_first {A : Type} (p : A -> bool) (f : A -> A) (l : list A) (a : A) :
  (forall x, p (f x) = p x) ->
  find p l = Some a -> find p (map_first p f l) = Some (f a).
Proof.
  intros Hp. induction l as [|x l IH]; simpl; [discriminate |].
  destruct (p x) eqn:E; simpl.
  - intros H. inversion H; subst. rewrite Hp, E. reflexivity.
  - rewrite E. exact IH.
Qed.

Lemma data_payloads_remove_first (children : list sr_mod_child) :
  flat_map (fun c => match c with n_data v => [v] | _ => [] end)
    (remove_first is_data children)
  = tl (flat_map (fun c => match c with n_data v => [v] | _ => [] end) children).
Proof.
  induction children as [|c l IH]; simpl; [reflexivity |].
  destruct c; simpl; try exact IH. reflexivity.
Qed.

Lemma find_installed_some (sr_mods : sr_mods_t) (name : string) (m : sr_mod) (i : nat) :
  find (is_installed_named name) sr_mods = Some m ->
  find_installed_from i sr_mods name <> [].
Proof.
  revert i. induction sr_mods as [|x l IH]; simpl; intros i H; [discriminate |].
  unfold is_installed_named in H at 1.
  destruct (is_installed_module x && String.eqb (sm_name x) name); [discriminate |].
  now apply IH.
Qed.

(** What [sr_lydmods_deferred_add_module_data] leaves in the staged
    entry: the payloads it had less the first one, then the new one. *)
Lemma deferred_add_module_data_payloads (sr_mods : sr_mods_t) (module_name : string)
    (data : option lyd_tree) (m : sr_mod) (data_json : string) :
  find (is_installed_named module_name) sr_mods = Some m ->
  lyd_print_mem data = Some data_json ->
  exists sr_mods' m',
    sr_lydmods_deferred_add_module_data sr_mods module_name data = (Ok tt, sr_mods')
    /\ find (is_installed_named module_name) sr_mods' = Some m'
    /\ data_payloads m' = tl (data_payloads m) ++ [data_json].
Proof.
  intros Hm Hj. unfold sr_lydmods_deferred_add_module_data.
  destruct (Nat.eqb_spec (length (find_installed_module sr_mods module_name)) 0) as [E | N].
  { exfalso. apply (find_installed_some sr_mods module_name m 0 Hm).
    unfold find_installed_module in E. now destruct (find_installed_from 0 sr_mods module_name). }
  rewrite Hj.
  assert (Hk : forall (g : sr_mod -> list sr_mod_child) (x : sr_mod),
             is_installed_named module_name (with_child x (g x))
             = is_installed_named module_name x) by reflexivity.
  eexists _, _. split; [reflexivity |]. split.
  { apply (find_map_first _ (fun x => with_child x (sm_child x ++ [n_data data_json])));
      [apply (Hk (fun x => sm_child x ++ [n_data data_json])) |].
    apply (find_map_first _ (fun x => with_child x (remove_first is_data (sm_child x))));
      [apply (Hk (fun x => remove_first is_data (sm_child x))) | exact Hm]. }
  unfold data_payloads. simpl. rewrite flat_map_app, data_payloads_remove_first.
  reflexivity.
Qed.

(** C10. When the staged entry exists, holds at most one payload (the
    [data] leaf) and the new data can be serialized, attaching the data
    succeeds and the entry then holds exactly one payload, the
    serialization of the new data: the previous payload is replaced. *)
Theorem deferred_add_module_data_replaces (sr_mods : sr_mods_t) (module_name : string)
    (data : option lyd_tree) (m : sr_mod) (data_json : string) :
  find (is_installed_named module_name) sr_mods = Some m ->
  length (data_payloads m) <= 1 ->
  lyd_print_mem data = Some data_json ->
  exists sr_mods' m',
    sr_lydmods_deferred_add_module_data sr_mods module_name data = (Ok tt, sr_mods')
    /\ find (is_installed_named module_name) sr_mods' = Some m'
    /\ data_payloads m' = [data_json].
Proof.
  intros Hm L Hj.
  destruct (deferred_add_module_data_payloads sr_mods module_name data m data_json Hm Hj)
    as (sr_mods' & m' & H & Hm' & Hp).
  exists sr_mods', m'. split; [exact H |]. split; [exact Hm' |].
  rewrite Hp. destruct (data_payloads m) as [|a [|b l]]; simpl in *;
    [reflexivity | reflexivity | lia].
Qed.

(** C8, as amended. A module entry with feature changes and the removed
    marker that is not implemented in the new context: the feature-change
    phase does not touch the context for it, logs the warning, sets
    neither [change] nor [fail], and goes on with the next entry. *)
Theorem change_features_skipped_when_not_implemented (sr_mods rest : sr_mods_t)
    (sr_mod_ : sr_mod) (st : apply_st) :
  changed_features (sm_child sr_mod_) <> [] ->
  has_removed (sm_child sr_mod_) = true ->
  ly_ctx_get_module_implemented (st_ctx st) (sm_name sr_mod_) = None ->
  change_features_loop sr_mods (sr_mod_ :: rest) st
  = change_features_loop sr_mods rest
      {| st_ctx := st_ctx st; st_change := st_change st; st_fail := st_fail st;
         st_log := st_log st ++ [ignoring_warning (sm_name sr_mod_)] |}.
Proof.
  intros Hc Hr Hn. simpl.
  destruct (changed_features (sm_child sr_mod_)); [contradiction |].
  rewrite Hn, Hr. reflexivity.
Qed.

End ScheduleClaims.

Lemma sched_install_twice_unsched_unknown_witness :
  let fs := {| Toy.f_startup := []; Toy.f_running := []; Toy.f_yang := [];
               Toy.f_registry := Some [Toy.installed_entry "b" [n_module_yang "b"]] |} in
  @sr_lydmods_deferred_add_module Toy.SE_ab Toy.DS_ab fs [] Toy.mod_b []
  = (Err [(SR_ERR_EXISTS,
           "Module " ++ quoted "b" ++ " already scheduled for installation.")%string], fs)
  /\ @sr_lydmods_unsched_add_module Toy.SE_ab Toy.DS_ab fs [] "a"
     = (Err [(SR_ERR_NOT_FOUND,
              "Module " ++ quoted "a" ++ " not scheduled for installation.")%string], fs).
Proof.
  intros fs.
  assert (U : NoDup (installed_names [Toy.installed_entry "b" [n_module_yang "b"]])).
  { simpl. constructor; [intros [] | constructor]. }
  destruct (@sched_install_twice_unsched_unknown Toy.SE_ab Toy.DS_ab fs []
              [Toy.installed_entry "b" [n_module_yang "b"]] Toy.mod_b [] "a"
              eq_refl U) as [H1 H2].
  split.
  - apply H1. simpl. left. reflexivity.
  - apply H2. simpl. intros [H | []]. discriminate.
Defined.

Lemma deferred_change_feature_rejects_witness :
  let fs := {| Toy.f_startup := []; Toy.f_running := []; Toy.f_yang := [];
               Toy.f_registry := Some [Toy.module_entry "b" [n_changed_feature "f" "enable"]]
            |} in
  @sr_lydmods_deferred_change_feature Toy.SE_ab Toy.DS_ab fs [] Toy.mod_b "f" true false
  = (Err [(SR_ERR_EXISTS,
           "Module " ++ quoted "b" ++ " feature " ++ quoted "f"
           ++ " already scheduled to be enabled.")%string], fs)
  /\ @sr_lydmods_deferred_change_feature Toy.SE_ab Toy.DS_ab fs [] Toy.mod_b "g" false false
     = (Err [(SR_ERR_EXISTS,
              "Module " ++ quoted "b" ++ " feature " ++ quoted "g"
              ++ " is already disabled.")%string], fs).
Proof.
  intros fs. split.
  - apply (proj1 (@deferred_change_feature_rejects Toy.SE_ab Toy.DS_ab fs []
                    [Toy.module_entry "b" [n_changed_feature "f" "enable"]]
                    Toy.mod_b "f" true false eq_refl)).
    exists "f". reflexivity.
  - apply (proj2 (@deferred_change_feature_rejects Toy.SE_ab Toy.DS_ab fs []
                    [Toy.module_entry "b" [n_changed_feature "f" "enable"]]
                    Toy.mod_b "g" false false eq_refl)); reflexivity.
Defined.

Lemma deferred_add_module_data_replaces_witness :
  exists sr_mods' m',
    @sr_lydmods_deferred_add_module_data Toy.SE_ab Toy.DS_ab
      [Toy.installed_entry "b" [n_module_yang "b"; n_data "old"]] "b" None
    = (Ok tt, sr_mods')
    /\ find (is_installed_named "b") sr_mods' = Some m'
    /\ data_payloads m' = [""].
Proof.
  apply (@deferred_add_module_data_replaces Toy.SE_ab Toy.DS_ab
           [Toy.installed_entry "b" [n_module_yang "b"; n_data "old"]] "b" None
           (Toy.installed_entry "b" [n_module_yang "b"; n_data "old"]) "").
  - reflexivity.
  - simpl. lia.
  - reflexivity.
Defined.

Lemma change_features_skipped_when_not_implemented_witness :
  @change_features_loop Toy.SE_ab Toy.mods_b_removed_feature
    [Toy.entry_b_removed_feature]
    {| st_ctx := ([] : @ly_ctx Toy.SE_ab); st_change := true; st_fail := false; st_log := [] |}
  = Ok {| st_ctx := ([] : @ly_ctx Toy.SE_ab); st_change := true; st_fail := false;
          st_log := [ignoring_warning "b"] |}.
Proof.
  rewrite (@change_features_skipped_when_not_implemented Toy.SE_ab
             Toy.mods_b_removed_feature [] Toy.entry_b_removed_feature).
  - reflexivity.
  - discriminate.
  - reflexivity.
  - reflexivity.
Defined.

(** C6. On a registry without a staged entry for [x], attaching seed data
    for [x] reports "not scheduled for installation" with the error kind
    [SR_ERR_EXISTS]; unscheduling the installation of [x] reports the
    same condition with [SR_ERR_NOT_FOUND]. *)
Lemma add_module_data_not_scheduled_reports_exists :
  fst (@sr_lydmods_deferred_add_module_data Toy.SE_ab Toy.DS_ab [] "x" None)
  = Err [(SR_ERR_EXISTS, "Module " ++ quoted "x" ++ " not scheduled for installation.")%string]
  /\ fst (@sr_lydmods_unsched_add_module Toy.SE_ab Toy.DS_ab
            {| Toy.f_startup := []; Toy.f_running := []; Toy.f_yang := [];
               Toy.f_registry := Some [] |} [] "x")
     = Err [(SR_ERR_NOT_FOUND,
             "Module " ++ quoted "x" ++ " not scheduled for installation.")%string].
Proof. split; reflexivity. Qed.

(** C8, as stated, fails. [b] carries the removed marker and the feature
    change "enable [f]", and is implemented in the new context as an
    import of [a]: the feature-change phase enables [f] of [b] in the new
    context, sets [change] and logs no warning; the apply then fails on
    the removal of [b]. *)
Lemma removed_module_feature_change_applied :
  has_removed (sm_child Toy.entry_b_removed_feature) = true
  /\ changed_features (sm_child Toy.entry_b_removed_feature) <> []
  /\ (exists st',
        @sr_lydmods_sched_ctx_change_features Toy.SE_ab Toy.mods_b_removed_feature
          {| st_ctx := [Toy.mod_a; Toy.mod_b] : @ly_ctx Toy.SE_ab;
             st_change := false; st_fail := false; st_log := [] |}
        = Ok st'
        /\ st_ctx st' = [Toy.mod_a; Toy.set_feature true "f" Toy.mod_b]
        /\ st_change st' = true
        /\ st_log st' = [])
  /\ (exists r,
        @sr_lydmods_sched_apply Toy.SE_ab Toy.DS_ab Toy.mods_b_removed_feature []
          Toy.no_files = Ok r
        /\ r_fail r = true
        /\ ~ In (ignoring_warning "b") (r_log r)).
Proof.
  split; [reflexivity |]. split; [discriminate |]. split.
  - eexists. split; [vm_compute; reflexivity |]. repeat split.
  - eexists. split; [vm_compute; reflexivity |]. split; [reflexivity |].
    simpl. intros [H | [H | [H | []]]]; discriminate.
Qed.

Section Keeps.
Context {S : Type}.
Variable R : S -> S -> Prop.
Hypothesis R_refl : forall s, R s s.
Hypothesis R_trans : forall a b c, R a b -> R b c -> R a c.

Lemma keeps_ret : keeps R (fun s => Ok s).
Proof. intros s s' H. inversion H; subst. apply R_refl. Qed.

Lemma keeps_bind (f g : S -> res S) :
  keeps R f -> keeps R g -> keeps R (fun s => x <- f s ;; g x).
Proof.
  intros Hf Hg s s' H. bind_inv H. eapply R_trans; [apply Hf | apply Hg]; eassumption.
Qed.

Lemma keeps_pure {X : Type} (c : res X) (k : X -> S -> res S) :
  (forall x, keeps R (k x)) -> keeps R (fun s => x <- c ;; k x s).
Proof.
  intros Hk s s' H. destruct c as [x| |]; simpl in H; try discriminate. now apply (Hk x).
Qed.

Lemma keeps_fold {A : Type} (f : S -> A -> res S) (l : list A) :
  Forall (fun a => keeps R (fun s => f s a)) l -> keeps R (fold_res f l).
Proof.
  induction 1 as [|a l Ha _ IH]; simpl.
  - apply keeps_ret.
  - now apply (keeps_bind (fun s => f s a)).
Qed.
End Keeps.

Lemma extends_refl {A : Type} (l : list A) : extends l l.
Proof. exists []. now rewrite app_nil_r. Qed.

Lemma extends_trans {A : Type} (a b c : list A) : extends a b -> extends b c -> extends a c.
Proof. intros [t ->] [u ->]. exists (t ++ u). now rewrite app_assoc. Qed.

Lemma collects_refl (l : list lys_module_hdr) : collects l l.
Proof. split; [apply extends_refl | auto]. Qed.

Lemma collects_trans (a b c : list lys_module_hdr) :
  collects a b -> collects b c -> collects a c.
Proof. intros [E1 D1] [E2 D2]. split; [eapply extends_trans; eassumption | auto]. Qed.

Lemma opt_string_eqb_sym (a b : option string) : opt_string_eqb a b = opt_string_eqb b a.
Proof. destruct a, b; simpl; auto using String.eqb_sym. Qed.

Lemma mod_eqb_sym (a b : lys_module_hdr) : mod_eqb a b = mod_eqb b a.
Proof. unfold mod_eqb. now rewrite String.eqb_sym, opt_string_eqb_sym. Qed.

Lemma mods_distinct_snoc (l : list lys_module_hdr) (d : lys_module_hdr) :
  existsb (mod_eqb d) l = false -> mods_distinct l = true -> mods_distinct (l ++ [d]) = true.
Proof.
  induction l as [|m l IH]; simpl; [reflexivity |].
  intros H D. apply orb_false_iff in H. destruct H as [Hm Hl].
  apply andb_true_iff in D. destruct D as [D1 D2].
  rewrite existsb_app. simpl. rewrite mod_eqb_sym, Hm, orb_false_r.
  apply negb_true_iff in D1. rewrite D1. simpl. now apply IH.
Qed.

Section Collect.
Context {SE : SchemaEngine}.
Variable ctx : ly_ctx.

Lemma dep_mods_add_atom_collects (top_node atom : lysc_node) :
  keeps collects (fun dm => dep_mods_add_atom top_node dm atom).
Proof.
  intros dm dm' H. unfold dep_mods_add_atom in H. bind_inv H.
  destruct x as [d|]; [| inversion H; subst; apply collects_refl].
  destruct (existsb (mod_eqb d) dm) eqn:E; inversion H; subst; [apply collects_refl |].
  split; [now exists [d] | now apply mods_distinct_snoc].
Qed.

Lemma get_dep_mods_collects (ctx_node : lysc_node) (expr : lyxp_expr) (opt : lyxp_opt) :
  keeps collects (sr_lydmods_moddep_expr_get_dep_mods ctx ctx_node expr opt).
Proof.
  intros dm dm' H. unfold sr_lydmods_moddep_expr_get_dep_mods in H.
  destruct (lys_atomize_xpath ctx ctx_node expr opt) as [set|]; [| discriminate].
  revert H. apply (keeps_fold collects collects_refl collects_trans).
  apply Forall_forall. intros a _. apply dep_mods_add_atom_collects.
Qed.

Lemma get_dep_mods_sound_complete (ctx_node : lysc_node) (expr : lyxp_expr) (opt : lyxp_opt)
    (set : list lysc_node) (dm dm' : list lys_module_hdr) :
  lys_atomize_xpath ctx ctx_node expr opt = Some set ->
  sr_lydmods_moddep_expr_get_dep_mods ctx ctx_node expr opt dm = Ok dm' ->
  (forall m, In m dm' ->
     In m dm \/ exists a, In a set
                  /\ atom_is_foreign_body a (expr_top_node ctx_node) = Some m)
  /\ (forall a m, In a set ->
        atom_is_foreign_body a (expr_top_node ctx_node) = Some m ->
        existsb (mod_eqb m) dm' = true).
Proof.
  intros Hs H. unfold sr_lydmods_moddep_expr_get_dep_mods in H. rewrite Hs in H.
  clear Hs. revert dm H. induction set as [|a set IH]; intros dm H; simpl in H.
  - inversion H; subst. split; [auto | intros a m []].
  - bind_as H dm1 H1. destruct (IH _ H) as [S C]. clear IH.
    pose proof (keeps_fold collects collects_refl collects_trans
                  (dep_mods_add_atom (expr_top_node ctx_node)) set
                  (proj2 (Forall_forall _ _)
                     (fun a _ => dep_mods_add_atom_collects (expr_top_node ctx_node) a))
                  _ _ H) as [[t Et] _].
    unfold dep_mods_add_atom, sr_lydmods_moddep_expr_atom_is_foreign in H1.
    bind_inv H1. bind_inv Hx. inversion Hx; subst x; clear Hx Hx0.
    split.
    + intros m Hm. destruct (S m Hm) as [Hin | (b & Hb & Eb)].
      * destruct (atom_is_foreign_body a (expr_top_node ctx_node)) as [d|] eqn:Ea;
          [| inversion H1; subst; auto].
        destruct (existsb (mod_eqb d) dm); inversion H1; subst; auto.
        apply in_app_or in Hin. destruct Hin as [Hin | [<- | []]]; auto.
        right. exists a. split; [left; reflexivity | exact Ea].
      * right. exists b. split; [right; exact Hb | exact Eb].
    + intros b m [<- | Hb] Eb; [| eapply C; eassumption].
      rewrite Eb in H1. subst dm'. rewrite existsb_app. apply orb_true_iff. left.
      destruct (existsb (mod_eqb m) dm) eqn:E; inversion H1; subst; [exact E |].
      rewrite existsb_app. simpl. unfold mod_eqb at 2.
      rewrite String.eqb_refl. simpl.
      destruct (mod_revision m); simpl; [rewrite String.eqb_refl |]; apply orb_true_r.
Qed.

Lemma moddep_check_type_collects (node : lysc_node) (t : lysc_type) :
  keeps collects (sr_lydmods_moddep_check_type ctx t node).
Proof.
  induction t as [| p | l IH |] using lysc_type_forall_ind; simpl.
  - destruct (nodetype (node_info node));
      try apply (keeps_ret collects collects_refl).
    + destruct (dflt (node_info node));
        [apply get_dep_mods_collects | apply (keeps_ret collects collects_refl)].
    + apply (keeps_fold collects collects_refl collects_trans).
      apply Forall_forall. intros d _. apply get_dep_mods_collects.
  - apply (keeps_ret collects collects_refl).
  - intros dm dm' H. revert H.
    apply (keeps_fold collects collects_refl collects_trans
             (fun d t => sr_lydmods_moddep_check_type ctx t node d)). exact IH.
  - apply (keeps_ret collects collects_refl).
Qed.

Lemma check_elem_deps_collects (elem : lysc_node) (ty : option lysc_type)
    (when_ musts_ : list lyxp_expr) (opts : lyxp_opt) :
  keeps collects (check_elem_deps ctx elem ty when_ musts_ opts).
Proof.
  unfold check_elem_deps.
  apply (keeps_bind collects collects_trans
           (fun dm => match ty with
                      | Some t => sr_lydmods_moddep_check_type ctx t elem dm
                      | None => Ok dm
                      end)).
  - destruct ty; [apply moddep_check_type_collects | apply (keeps_ret collects collects_refl)].
  - apply (keeps_bind collects collects_trans
             (fold_res (fun dm e => sr_lydmods_moddep_expr_get_dep_mods ctx elem e opts dm)
                when_));
      apply (keeps_fold collects collects_refl collects_trans);
      apply Forall_forall; intros e _; apply get_dep_mods_collects.
Qed.

Lemma check_deps_dfs_collects (t : lysc_tree) :
  forall parent, keeps collects (check_deps_dfs ctx parent t).
Proof.
  induction t as [info child output_child IHc IHo] using lysc_tree_forall_ind.
  intros parent. simpl.
  destruct (disabled info); [apply (keeps_ret collects collects_refl) |].
  apply (keeps_bind collects collects_trans
           (fun dep_mods =>
              match nodetype info with
              | LYS_LEAF | LYS_LEAFLIST =>
                  check_elem_deps ctx (Lysc_node info parent) (type info) (when info)
                    (musts info) LYXP_SCNODE_SCHEMA dep_mods
              | LYS_CONTAINER | LYS_LIST | LYS_ANYDATA | LYS_ANYXML =>
                  check_elem_deps ctx (Lysc_node info parent) None (when info) (musts info)
                    LYXP_SCNODE_SCHEMA dep_mods
              | LYS_CHOICE | LYS_CASE =>
                  check_elem_deps ctx (Lysc_node info parent) None (when info) []
                    LYXP_SCNODE_SCHEMA dep_mods
              | LYS_RPC | LYS_ACTION =>
                  dm1 <- check_elem_deps ctx (Lysc_node info parent) None []
                           (input_musts info) LYXP_SCNODE_SCHEMA dep_mods ;;
                  check_elem_deps ctx (Lysc_node info parent) None [] (output_musts info)
                    LYXP_SCNODE_OUTPUT dm1
              | LYS_NOTIF =>
                  check_elem_deps ctx (Lysc_node info parent) None [] (musts info)
                    LYXP_SCNODE_SCHEMA dep_mods
              | LYS_OTHER => Err SR_ERRINFO_INT
              end)).
  - destruct (nodetype info); try apply check_elem_deps_collects;
      try (apply (keeps_bind collects collects_trans
                    (check_elem_deps ctx (Lysc_node info parent) None []
                       (input_musts info) LYXP_SCNODE_SCHEMA));
           apply check_elem_deps_collects).
    intros s s' H. discriminate.
  - apply (keeps_bind collects collects_trans
             (fold_res (fun dm c => check_deps_dfs ctx (Some (Lysc_node info parent)) c dm)
                child)).
    + apply (keeps_fold collects collects_refl collects_trans).
      eapply Forall_impl; [| exact IHc]. intros c Hc. apply Hc.
    + destruct (is_rpc_or_action (nodetype info)).
      * apply (keeps_fold collects collects_refl collects_trans).
        eapply Forall_impl; [| exact IHo]. intros c Hc. apply Hc.
      * apply (keeps_ret collects collects_refl).
Qed.

End Collect.

(** ** The extraction only adds *)

Lemma st_grows_refl (s : deps_state) : st_grows s s.
Proof. split; [exists []; now rewrite app_nil_r | apply extends_refl]. Qed.

Lemma st_grows_trans (a b c : deps_state) : st_grows a b -> st_grows b c -> st_grows a c.
Proof.
  intros [(l1 & E1 & F1) X1] [(l2 & E2 & F2) X2]. split.
  - exists (l1 ++ l2). rewrite E2, E1, app_assoc, forallb_app, F1, F2. auto.
  - eapply extends_trans; eassumption.
Qed.

Lemma update_nth_app_length {A : Type} (f : A -> A) (a : list A) (x : A) (b : list A) :
  update_nth (length a) f (a ++ x :: b) = a ++ f x :: b.
Proof. induction a as [|y a IH]; simpl; [reflexivity | now rewrite IH]. Qed.

Lemma snoc_app {A : Type} (a : list A) (x : A) (b : list A) :
  (a ++ [x]) ++ b = a ++ x :: b.
Proof. now rewrite <- app_assoc. Qed.

Lemma count_op_deps_replace (a : list sr_mod_child) (x y : sr_mod_child)
    (b : list sr_mod_child) (p : string) :
  op_deps_match p x = op_deps_match p y ->
  count_op_deps (a ++ x :: b) p = count_op_deps (a ++ y :: b) p.
Proof.
  intros E. rewrite !count_op_deps_app. f_equal. unfold count_op_deps. simpl.
  rewrite E. destruct (op_deps_match p y); reflexivity.
Qed.

Lemma moddep_add_extends (ty : sr_mod_dep_type) (dm : option string)
    (node : option lysc_node) :
  keeps extends (fun d => sr_lydmods_moddep_add d ty dm node).
Proof.
  intros d d' H. apply moddep_add_ok in H.
  destruct H as [-> | [(m & _ & ->) | (p & x & _ & ->)]];
    [apply extends_refl | eexists; reflexivity | eexists; reflexivity].
Qed.

Section Growth.
Context {SE : SchemaEngine}.
Variable ctx : ly_ctx.

Lemma moddep_type_extends (node : lysc_node) (t : lysc_type) :
  keeps extends (sr_lydmods_moddep_type ctx t node).
Proof.
  induction t as [| p | l IH |] using lysc_type_forall_ind; simpl.
  - apply (keeps_pure extends). intros dm. apply moddep_add_extends.
  - apply (keeps_pure extends). intros dm. apply (keeps_pure extends). intros _.
    destruct dm; [apply (keeps_ret extends extends_refl) | apply moddep_add_extends].
  - intros d d' H. revert H.
    apply (keeps_fold extends extends_refl extends_trans
             (fun d t => sr_lydmods_moddep_type ctx t node d)). exact IH.
  - apply (keeps_ret extends extends_refl).
Qed.

Lemma add_elem_deps_extends (elem : lysc_node) (ty : option lysc_type)
    (when_ musts_ : list lyxp_expr) (opts : lyxp_opt) :
  keeps extends (add_elem_deps ctx elem ty when_ musts_ opts).
Proof.
  unfold add_elem_deps.
  apply (keeps_bind extends extends_trans
           (fun d => match ty with
                     | Some t => sr_lydmods_moddep_type ctx t elem d
                     | None => Ok d
                     end)).
  - destruct ty; [apply moddep_type_extends | apply (keeps_ret extends extends_refl)].
  - apply (keeps_pure extends). intros dm1. apply (keeps_pure extends). intros dm2.
    apply (keeps_fold extends extends_refl extends_trans).
    apply Forall_forall. intros m _. apply moddep_add_extends.
Qed.

Section NodeGrowth.
Variable rec : bool -> nat -> option lysc_node -> lysc_tree -> deps_state -> res deps_state.
Variables (info : lysc_info) (parent : option lysc_node).
Variables (child output_child : list lysc_tree).
Hypothesis rec_child :
  Forall (fun c => forall out r par, keeps st_grows (rec out r par c)) child.
Hypothesis rec_output_child :
  Forall (fun c => forall out r par, keeps st_grows (rec out r par c)) output_child.

Lemma dfs_below_grows (out : bool) (r : nat) :
  keeps st_grows (dfs_below rec info parent child output_child out r).
Proof.
  unfold dfs_below.
  apply (keeps_bind st_grows st_grows_trans
           (fold_res (fun s c => rec out r (Some (Lysc_node info parent)) c s) child)).
  - apply (keeps_fold st_grows st_grows_refl st_grows_trans).
    eapply Forall_impl; [| exact rec_child]. intros c Hc. apply Hc.
  - destruct (is_rpc_or_action (nodetype info)).
    + apply (keeps_fold st_grows st_grows_refl st_grows_trans).
      eapply Forall_impl; [| exact rec_output_child]. intros c Hc. apply Hc.
    + apply (keeps_ret st_grows st_grows_refl).
Qed.

Lemma dfs_visit_grows (out : bool) (r : nat) (ty : option lysc_type)
    (when_ musts_ : list lyxp_expr) (opts : lyxp_opt) :
  keeps st_grows (dfs_visit ctx rec info parent child output_child out r ty when_ musts_ opts).
Proof.
  intros s s' H. unfold dfs_visit in H. bind_as H d1 H1.
  apply add_elem_deps_extends in H1. apply dfs_below_grows in H.
  eapply st_grows_trans; [| exact H]. split; [exists []; now rewrite app_nil_r | exact H1].
Qed.

Lemma dfs_first_of_grows (out : bool) (l : list lysc_tree) :
  Forall (fun c => forall out r par, keeps st_grows (rec out r par c)) l ->
  keeps st_grows (dfs_first_of rec info parent out l).
Proof.
  intros Hl s s' H. destruct l as [|c l]; simpl in H.
  - inversion H; subst. apply st_grows_refl.
  - inversion Hl as [|? ? Hc _]; subst. exact (Hc _ _ _ _ _ H).
Qed.

Lemma dfs_op_deps_action_grows :
  keeps st_grows (dfs_op_deps_action rec info parent child output_child).
Proof.
  intros s s' H. unfold dfs_op_deps_action in H.
  destruct (Nat.eqb (count_op_deps (fst s) (data_path info)) 1);
    [inversion H; subst; apply st_grows_refl |].
  bind_inv H. clear Hx. bind_as H s1 H1. bind_as H s2 H2. inversion H; subst; clear H.
  apply (dfs_first_of_grows false child rec_child) in H1.
  destruct H1 as [(l1 & E1 & F1) _]. simpl in E1.
  rewrite E1, <- app_assoc in H2. simpl in H2. rewrite update_nth_app_length in H2.
  apply (dfs_first_of_grows true output_child rec_output_child) in H2.
  destruct H2 as [(l2 & E2 & F2) _]. simpl in E2.
  split; [| apply extends_refl]. simpl.
  rewrite E2, <- app_assoc. simpl. rewrite update_nth_app_length.
  eexists. split; [reflexivity |]. simpl. now rewrite forallb_app, F1, F2.
Qed.

Lemma dfs_op_deps_notif_grows :
  keeps st_grows (dfs_op_deps_notif ctx rec info parent child output_child).
Proof.
  intros s s' H. unfold dfs_op_deps_notif in H.
  destruct (Nat.eqb (count_op_deps (fst s) (data_path info)) 1);
    [inversion H; subst; apply st_grows_refl |].
  bind_inv H. clear Hx. bind_as H s1 H1. inversion H; subst; clear H.
  apply dfs_visit_grows in H1. destruct H1 as [(l1 & E1 & F1) _]. simpl in E1.
  split; [| apply extends_refl]. simpl.
  rewrite E1, <- app_assoc. simpl. rewrite update_nth_app_length.
  eexists. split; [reflexivity |]. simpl. exact F1.
Qed.

Lemma dfs_node_grows (output : bool) (root : nat) :
  keeps st_grows (dfs_node ctx rec info parent child output_child output root).
Proof.
  unfold dfs_node.
  destruct (disabled info); [apply (keeps_ret st_grows st_grows_refl) |].
  destruct (nodetype info);
    try apply dfs_visit_grows;
    try (destruct (Nat.eqb (nid info) root);
         [ try destruct output; apply dfs_visit_grows
         | first [apply dfs_op_deps_action_grows | apply dfs_op_deps_notif_grows] ]).
  intros s s' H. discriminate.
Qed.
End NodeGrowth.

Lemma add_data_deps_dfs_grows (t : lysc_tree) :
  forall output root parent, keeps st_grows (add_data_deps_dfs ctx output root parent t).
Proof.
  induction t as [info child output_child IHc IHo] using lysc_tree_forall_ind.
  intros output root parent s s' H. simpl in H. revert H. apply dfs_node_grows.
  - eapply Forall_impl; [| exact IHc]. intros c Hc out r par. apply Hc.
  - eapply Forall_impl; [| exact IHo]. intros c Hc out r par. apply Hc.
Qed.

End Growth.

(** ** Props: the dependency analyzer *)

Section AnalyzerProps.
Context {SE : SchemaEngine}.
Variable ctx : ly_ctx.

(** X1. Collecting the modules of an expression only adds modules at the
    end of the array and keeps it free of duplicates; a module it holds
    afterwards was there before or is the module reported for one of the
    atoms of the expression, and the module reported for an atom is in the
    array afterwards. *)
Theorem get_dep_mods_collects_foreign_modules (ctx_node : lysc_node) (expr : lyxp_expr)
    (opt : lyxp_opt) (set : list lysc_node) (dm dm' : list lys_module_hdr) :
  lys_atomize_xpath ctx ctx_node expr opt = Some set ->
  sr_lydmods_moddep_expr_get_dep_mods ctx ctx_node expr opt dm = Ok dm' ->
  extends dm dm'
  /\ (mods_distinct dm = true -> mods_distinct dm' = true)
  /\ (forall m, In m dm' ->
        In m dm \/ exists a, In a set
                     /\ atom_is_foreign_body a (expr_top_node ctx_node) = Some m)
  /\ (forall a m, In a set ->
        atom_is_foreign_body a (expr_top_node ctx_node) = Some m ->
        existsb (mod_eqb m) dm' = true).
Proof.
  intros Hs H. destruct (get_dep_mods_collects ctx ctx_node expr opt dm dm' H) as [E D].
  destruct (get_dep_mods_sound_complete ctx ctx_node expr opt set dm dm' Hs H) as [S C].
  auto.
Qed.

(** X2. The read-only check of a schema subtree only adds modules at the
    end of the array of dependency modules and never adds one that the
    array holds already. *)
Theorem check_deps_r_collects_without_duplicates (root : lysc_tree)
    (dm dm' : list lys_module_hdr) :
  sr_lydmods_check_deps_r ctx root dm = Ok dm' ->
  extends dm dm' /\ (mods_distinct dm = true -> mods_distinct dm' = true).
Proof. intros H. exact (check_deps_dfs_collects ctx root None dm dm' H). Qed.

(** X3. The extraction over a schema subtree never removes, replaces or
    reorders what the module entry and the dependency container hold: the
    children of the entry are the ones it had followed by new
    operation-dependency records, and the container is the one it was
    followed by new entries. *)
Theorem add_data_deps_r_only_appends (sr_mod_ : list sr_mod_child)
    (parent : option lysc_node) (data_root : lysc_tree) (output : bool) (deps : sr_deps)
    (st' : deps_state) :
  sr_lydmods_add_data_deps_r ctx sr_mod_ parent data_root output deps = Ok st' ->
  (exists ops, fst st' = sr_mod_ ++ ops /\ forallb is_op_deps ops = true)
  /\ (exists d, snd st' = deps ++ d).
Proof.
  unfold sr_lydmods_add_data_deps_r. intros H.
  exact (add_data_deps_dfs_grows ctx data_root output _ parent _ _ H).
Qed.

(** X4. When [sr_lydmods_add_op_deps] succeeds, the root is an operation,
    the module entry holds exactly one record for the data path of the
    operation, the children the entry had are all kept in front of the
    new records, and a second call changes nothing. *)
Theorem add_op_deps_one_record (sr_mod_ : list sr_mod_child) (parent : option lysc_node)
    (op_root : lysc_tree) (sr_mod' : list sr_mod_child) :
  sr_lydmods_add_op_deps ctx sr_mod_ parent op_root = Ok sr_mod' ->
  is_op (nodetype (tree_info op_root)) = true
  /\ count_op_deps sr_mod' (data_path (tree_info op_root)) = 1
  /\ (exists ops, sr_mod' = sr_mod_ ++ ops /\ forallb is_op_deps ops = true)
  /\ sr_lydmods_add_op_deps ctx sr_mod' parent op_root = Ok sr_mod'.
Proof.
  intros H.
  assert (Hop : is_op (nodetype (tree_info op_root)) = true).
  { unfold sr_lydmods_add_op_deps in H. bind_inv H. now apply assert_ok in Hx. }
  assert (Hone : count_op_deps sr_mod' (data_path (tree_info op_root)) = 1
                 /\ exists ops, sr_mod' = sr_mod_ ++ ops /\ forallb is_op_deps ops = true).
  { unfold sr_lydmods_add_op_deps in H. bind_inv H. clear Hx.
    destruct (Nat.eqb_spec (count_op_deps sr_mod_ (data_path (tree_info op_root))) 1)
      as [E1 | N1].
    { inversion H; subst. split; [exact E1 | exists []; now rewrite app_nil_r]. }
    bind_inv H. apply assert_ok, Nat.eqb_eq in Hx.
    destruct (ops_le_new_op sr_mod_ (data_path (tree_info op_root)) (Some []) None Hx)
      as [_ Ea].
    assert (Hst : forall side out sr_mod1 s,
               add_data_deps_first ctx sr_mod1 (Lysc_node (tree_info op_root) parent)
                 side out [] = Ok s ->
               st_le (sr_mod1, []) s /\ st_grows (sr_mod1, []) s).
    { intros side out sr_mod1 s Hs. destruct side as [|c side]; simpl in Hs.
      - inversion Hs; subst. split; [apply st_le_refl | apply st_grows_refl].
      - unfold sr_lydmods_add_data_deps_r in Hs. split.
        + exact (proj1 (add_data_deps_dfs_settles ctx c out _ _ _ _ Hs)).
        + exact (add_data_deps_dfs_grows ctx c out _ _ _ _ Hs). }
    destruct (nodetype (tree_info op_root)); try discriminate.
    - bind_as H s1 H1. bind_as H s2 H2. inversion H; subst; clear H.
      destruct (Hst _ _ _ _ H1) as [[L1 _] [(l1 & E1 & F1) _]]. simpl in L1, E1.
      rewrite E1, <- app_assoc in H2. simpl in H2. rewrite update_nth_app_length in H2.
      destruct (Hst _ _ _ _ H2) as [[L2 _] [(l2 & E2 & F2) _]]. simpl in L2, E2.
      split.
      + rewrite count_op_deps_update_nth by (intros c; apply op_deps_match_set_out).
        apply L2.
        rewrite (count_op_deps_replace sr_mod_ _
                   (n_op_deps (data_path (tree_info op_root)) (Some []) None))
          by reflexivity.
        rewrite <- snoc_app, <- E1. apply L1. exact Ea.
      + rewrite E2, <- app_assoc. simpl. rewrite update_nth_app_length.
        eexists. split; [reflexivity |]. simpl. now rewrite forallb_app, F1, F2.
    - bind_as H s1 H1. bind_as H s2 H2. inversion H; subst; clear H.
      destruct (Hst _ _ _ _ H1) as [[L1 _] [(l1 & E1 & F1) _]]. simpl in L1, E1.
      rewrite E1, <- app_assoc in H2. simpl in H2. rewrite update_nth_app_length in H2.
      destruct (Hst _ _ _ _ H2) as [[L2 _] [(l2 & E2 & F2) _]]. simpl in L2, E2.
      split.
      + rewrite count_op_deps_update_nth by (intros c; apply op_deps_match_set_out).
        apply L2.
        rewrite (count_op_deps_replace sr_mod_ _
                   (n_op_deps (data_path (tree_info op_root)) (Some []) None))
          by reflexivity.
        rewrite <- snoc_app, <- E1. apply L1. exact Ea.
      + rewrite E2, <- app_assoc. simpl. rewrite update_nth_app_length.
        eexists. split; [reflexivity |]. simpl. now rewrite forallb_app, F1, F2.
    - bind_as H s1 H1. inversion H; subst; clear H.
      unfold sr_lydmods_add_data_deps_r in H1.
      pose proof (proj1 (add_data_deps_dfs_settles ctx op_root false _ _ _ _ H1)) as [L1 _].
      pose proof (add_data_deps_dfs_grows ctx op_root false _ _ _ _ H1)
        as [(l1 & E1 & F1) _].
      simpl in L1, E1. split.
      + rewrite count_op_deps_update_nth by (intros c; apply op_deps_match_set_in).
        apply L1. exact Ea.
      + rewrite E1, <- app_assoc. simpl. rewrite update_nth_app_length.
        eexists. split; [reflexivity |]. simpl. exact F1. }
  destruct Hone as [Hc Ha]. split; [exact Hop |]. split; [exact Hc |]. split; [exact Ha |].
  unfold sr_lydmods_add_op_deps. rewrite Hop, Hc. reflexivity.
Qed.

End AnalyzerProps.

Lemma get_dep_mods_collects_foreign_modules_witness :
  extends [] [Toy.hdr "b"]
  /\ (mods_distinct [] = true -> mods_distinct [Toy.hdr "b"] = true)
  /\ (forall m, In m [Toy.hdr "b"] ->
        In m [] \/ exists a, In a [Toy.node_bx]
                     /\ atom_is_foreign_body a
                          (expr_top_node (Lysc_node Toy.info_rpc None)) = Some m)
  /\ (forall a m, In a [Toy.node_bx] ->
        atom_is_foreign_body a (expr_top_node (Lysc_node Toy.info_rpc None)) = Some m ->
        existsb (mod_eqb m) [Toy.hdr "b"] = true).
Proof.
  apply (@get_dep_mods_collects_foreign_modules Toy.SE_bc [] (Lysc_node Toy.info_rpc None)
           "cond-b" LYXP_SCNODE_SCHEMA); reflexivity.
Defined.

Lemma check_deps_r_collects_without_duplicates_witness :
  extends [Toy.hdr "b"] [Toy.hdr "b"; Toy.hdr "c"]
  /\ (mods_distinct [Toy.hdr "b"] = true -> mods_distinct [Toy.hdr "b"; Toy.hdr "c"] = true).
Proof.
  apply (@check_deps_r_collects_without_duplicates Toy.SE_bc [] Toy.rpc_r). reflexivity.
Defined.

Lemma add_data_deps_r_only_appends_witness :
  (exists ops,
      [n_revision "r"; n_op_deps "/a:c/act" (Some []) (Some [])] = [n_revision "r"] ++ ops
      /\ forallb is_op_deps ops = true)
  /\ (exists d, [dep_module "x"] = [dep_module "x"] ++ d).
Proof.
  apply (@add_data_deps_r_only_appends Toy.SE_bc [] [n_revision "r"] None tree_c_act false
           [dep_module "x"]
           ([n_revision "r"; n_op_deps "/a:c/act" (Some []) (Some [])], [dep_module "x"])).
  reflexivity.
Defined.

Lemma add_op_deps_one_record_witness :
  is_op (nodetype (tree_info Toy.rpc_r)) = true
  /\ count_op_deps [n_revision "r"; n_op_deps "/a:r" (Some []) (Some [])]
       (data_path (tree_info Toy.rpc_r)) = 1
  /\ (exists ops,
         [n_revision "r"; n_op_deps "/a:r" (Some []) (Some [])] = [n_revision "r"] ++ ops
         /\ forallb is_op_deps ops = true)
  /\ @sr_lydmods_add_op_deps Toy.SE_bc []
       [n_revision "r"; n_op_deps "/a:r" (Some []) (Some [])] None Toy.rpc_r
     = Ok [n_revision "r"; n_op_deps "/a:r" (Some []) (Some [])].
Proof.
  apply (@add_op_deps_one_record Toy.SE_bc [] [n_revision "r"] None Toy.rpc_r). reflexivity.
Defined.

(** ** Props: all the dependencies of a module *)

Lemma gains_inverse_refl (name : string) (e : sr_mod) : gains_inverse name e e.
Proof. repeat split; auto. Qed.

Lemma gains_inverse_trans (name : string) (a b c : sr_mod) :
  gains_inverse name a b -> gains_inverse name b c -> gains_inverse name a c.
Proof.
  intros (K1 & N1 & C1) (K2 & N2 & C2).
  split; [congruence |]. split; [congruence |].
  destruct C2 as [-> | [X2 E2]]; [exact C1 |].
  destruct C1 as [E1 | [X1 E1]]; rewrite E1 in *.
  - right. auto.
  - rewrite inv_data_dep_exists_in in X2; [discriminate |].
    apply in_or_app. right. left. reflexivity.
Qed.

Lemma Forall2_same {A : Type} (R : A -> A -> Prop) (l : list A) :
  (forall x, R x x) -> Forall2 R l l.
Proof. intros H. induction l; constructor; auto. Qed.

Lemma Forall2_compose {A : Type} (R : A -> A -> Prop) (a b c : list A) :
  (forall x y z, R x y -> R y z -> R x z) ->
  Forall2 R a b -> Forall2 R b c -> Forall2 R a c.
Proof.
  intros T H. revert c. induction H as [|x y a b Hxy _ IH]; intros c Hc; inversion Hc; subst.
  - constructor.
  - constructor; [eapply T; eassumption | now apply IH].
Qed.

Lemma Forall2_In_l {A : Type} (R : A -> A -> Prop) (a b : list A) (x : A) :
  Forall2 R a b -> In x a -> exists y, In y b /\ R x y.
Proof.
  induction 1 as [|u v a b Huv _ IH]; intros Hin; [destruct Hin |].
  destruct Hin as [<- | Hin].
  - exists v. split; [left; reflexivity | exact Huv].
  - destruct (IH Hin) as (y & Hy & Hr). exists y. split; [right; exact Hy | exact Hr].
Qed.

Lemma Forall2_nth_error_l {A : Type} (R : A -> A -> Prop) (a b : list A) (i : nat) (x : A) :
  Forall2 R a b -> nth_error a i = Some x -> exists y, nth_error b i = Some y /\ R x y.
Proof.
  intros H. revert i. induction H as [|u v a b Huv _ IH]; intros [|i] Hi; simpl in *;
    try discriminate.
  - inversion Hi; subst. eauto.
  - now apply IH.
Qed.

Lemma Forall2_update_nth {A : Type} (R : A -> A -> Prop) (l : list A) (j : nat)
    (f : A -> A) :
  (forall x, R x x) -> (forall x, nth_error l j = Some x -> R x (f x)) ->
  Forall2 R l (update_nth j f l).
Proof.
  intros Hr. revert j. induction l as [|a l IH]; intros [|j] Hj; simpl; constructor.
  - apply Hj. reflexivity.
  - apply Forall2_same. exact Hr.
  - apply Hr.
  - apply IH. intros x Hx. apply Hj. exact Hx.
Qed.

Lemma nth_error_update_nth {A : Type} (l : list A) (j : nat) (f : A -> A) (x : A) :
  nth_error l j = Some x -> nth_error (update_nth j f l) j = Some (f x).
Proof.
  revert j. induction l as [|a l IH]; intros [|j] H; simpl in *; try discriminate.
  - now inversion H.
  - now apply IH.
Qed.

Lemma find_module_from_nth (k : nat) (l : sr_mods_t) (name : string) (j : nat) :
  In j (find_module_from k l name) ->
  k <= j /\ exists m, nth_error l (j - k) = Some m /\ is_module m = true /\ sm_name m = name.
Proof.
  revert k. induction l as [|a l IH]; intros k H; simpl in H; [destruct H |].
  assert (Hrest : In j (find_module_from (S k) l name) ->
                  k <= j /\ exists m, nth_error (a :: l) (j - k) = Some m
                                      /\ is_module m = true /\ sm_name m = name).
  { intros Hin. destruct (IH _ Hin) as (Hle & m & Hn & Hm).
    split; [lia |]. exists m. split; [| exact Hm].
    replace (j - k) with (S (j - S k)) by lia. exact Hn. }
  destruct (is_module a && String.eqb (sm_name a) name) eqn:E; [| now apply Hrest].
  destruct H as [<- | Hin]; [| now apply Hrest].
  apply andb_true_iff in E. destruct E as [E1 E2]. apply String.eqb_eq in E2.
  split; [lia |]. exists a. rewrite Nat.sub_diag. auto.
Qed.

Lemma data_deps_modules_app (a b : list sr_mod_child) :
  data_deps_modules (a ++ b) = data_deps_modules a ++ data_deps_modules b.
Proof. unfold data_deps_modules. apply flat_map_app. Qed.

Lemma data_deps_modules_no_deps (l : list sr_mod_child) :
  has_deps l = false -> data_deps_modules l = [].
Proof.
  induction l as [|c l IH]; simpl; [reflexivity |].
  intros H. apply orb_false_iff in H. destruct H as [Hc Hl].
  destruct c; try discriminate; simpl; auto.
Qed.

Lemma data_deps_modules_op_deps (l : list sr_mod_child) :
  forallb is_op_deps l = true -> data_deps_modules l = [].
Proof.
  induction l as [|c l IH]; simpl; [reflexivity |].
  intros H. apply andb_true_iff in H. destruct H as [Hc Hl].
  destruct c; try discriminate; simpl; auto.
Qed.

Section AllDeps.
Context {SE : SchemaEngine}.
Variable ctx : ly_ctx.

Lemma add_module_deps_grows (ly_mod : lys_module) :
  keeps st_grows (add_module_deps ctx ly_mod).
Proof.
  assert (R : forall roots, keeps st_grows (add_roots_deps ctx roots)).
  { intros roots. unfold add_roots_deps.
    apply (keeps_fold st_grows st_grows_refl st_grows_trans).
    apply Forall_forall. intros root _ [m d] s' H.
    exact (add_data_deps_dfs_grows ctx root false _ None _ _ H). }
  unfold add_module_deps.
  apply (keeps_bind st_grows st_grows_trans (add_roots_deps ctx (ly_data ly_mod)));
    [apply R |].
  apply (keeps_bind st_grows st_grows_trans (add_roots_deps ctx (ly_rpcs ly_mod))); apply R.
Qed.

(** The loop "add inverse data deps" for the module [name]. *)
Lemma add_inverse_loop (name : string) (deps : list string) (mods mods' : sr_mods_t) :
  fold_res (fun mods dep =>
              match find_module mods dep with
              | [j] =>
                  match nth_error mods j with
                  | Some target =>
                      target' <- sr_lydmods_add_inv_data_dep target name ;;
                      Ok (update_nth j (fun _ => target') mods)
                  | None => Abort
                  end
              | _ => Abort
              end) deps mods = Ok mods' ->
  Forall2 (gains_inverse name) mods mods'
  /\ forall dep, In dep deps ->
       exists t, In t mods' /\ is_module t = true /\ sm_name t = dep
                 /\ In (n_inverse_data_deps name) (sm_child t).
Proof.
  revert mods. induction deps as [|dep deps IH]; intros mods H; simpl in H.
  - inversion H; subst. split; [apply Forall2_same, gains_inverse_refl | intros d []].
  - bind_as H mods1 H1. destruct (IH _ H) as [G P]. clear IH.
    destruct (find_module mods dep) as [|j [|]] eqn:Ef; try discriminate.
    destruct (nth_error mods j) as [target|] eqn:En; [| discriminate].
    assert (Hj : In j (find_module_from 0 mods dep)) by (unfold find_module in Ef; rewrite Ef; now left).
    apply find_module_from_nth in Hj. destruct Hj as (_ & m & Hn & Hm & Hname).
    rewrite Nat.sub_0_r, En in Hn. inversion Hn; subst m; clear Hn.
    unfold sr_lydmods_add_inv_data_dep in H1.
    assert (Ht : exists target',
               mods1 = update_nth j (fun _ => target') mods
               /\ gains_inverse name target target'
               /\ In (n_inverse_data_deps name) (sm_child target')).
    { destruct (inv_data_dep_exists (sm_child target) name) eqn:Ex; simpl in H1;
        inversion H1; subst; clear H1; eexists; (split; [reflexivity |]).
      - split; [apply gains_inverse_refl |].
        clear - Ex. induction (sm_child target) as [|c l IHl]; simpl in Ex; [discriminate |].
        destruct c; try (right; now apply IHl).
        destruct (String.eqb_spec value name); [subst; now left | right; now apply IHl].
      - split; [repeat split; auto |]. simpl. apply in_or_app. right. now left. }
    destruct Ht as (target' & -> & Gt & Hin).
    assert (G1 : Forall2 (gains_inverse name) mods (update_nth j (fun _ => target') mods)).
    { apply Forall2_update_nth; [apply gains_inverse_refl |].
      intros x Hx. rewrite En in Hx. inversion Hx; subst. exact Gt. }
    split; [eapply Forall2_compose; [apply gains_inverse_trans | exact G1 | exact G] |].
    intros d [<- | Hd]; [| now apply P].
    pose proof (nth_error_update_nth mods j (fun _ => target') target En) as Hn1.
    destruct (Forall2_nth_error_l _ _ _ _ _ G Hn1) as (t & Ht & (K & N & C)).
    exists t. split; [eapply nth_error_In; eassumption |].
    destruct Gt as (Kt & Nt & _).
    split; [unfold is_module in *; now rewrite K, Kt |].
    split; [congruence |].
    destruct C as [-> | [_ ->]]; [exact Hin | apply in_or_app; now left].
Qed.

(** What [sr_lydmods_add_all_deps] does to the tree. *)
Lemma add_all_deps_inv (sr_mods : sr_mods_t) (i : nat) (ly_mod : lys_module)
    (sr_mods' : sr_mods_t) :
  sr_lydmods_add_all_deps ctx sr_mods i ly_mod = Ok sr_mods' ->
  exists sr_mod_ d ops,
    nth_error sr_mods i = Some sr_mod_
    /\ has_deps (sm_child sr_mod_) = false
    /\ forallb is_op_deps ops = true
    /\ Forall2 (gains_inverse (sm_name sr_mod_))
         (update_nth i (fun m => with_child m (sm_child m ++ n_data_deps d :: ops)) sr_mods)
         sr_mods'
    /\ forall dep, In (dep_module dep) d ->
         exists t, In t sr_mods' /\ is_module t = true /\ sm_name t = dep
                   /\ In (n_inverse_data_deps (sm_name sr_mod_)) (sm_child t).
Proof.
  unfold sr_lydmods_add_all_deps. intros H.
  destruct (nth_error sr_mods i) as [sr_mod_|] eqn:En; [| discriminate].
  bind_inv H. apply assert_ok, negb_true_iff in Hx. bind_as H s Hs.
  apply add_module_deps_grows in Hs. destruct Hs as [(ops & E & F) [d Ed]].
  simpl in E, Ed. rewrite E, snoc_app, update_nth_app_length in H. simpl in H. rewrite Ed in H.
  apply add_inverse_loop in H. destruct H as [G P].
  exists sr_mod_, d, ops. split; [reflexivity |]. split; [exact Hx |]. split; [exact F |].
  split.
  - replace (update_nth i (fun m => with_child m (sm_child m ++ n_data_deps d :: ops)) sr_mods)
      with (update_nth i (fun m => with_child m (sm_child sr_mod_ ++ n_data_deps d :: ops))
              sr_mods); [exact G |].
    clear - En. revert i En. induction sr_mods as [|a l IH]; intros [|i] En; simpl in *;
      try discriminate; [inversion En; now subst | f_equal; now apply IH].
  - intros dep Hd. apply P.
    rewrite data_deps_modules_app, (data_deps_modules_no_deps _ Hx). simpl.
    rewrite (data_deps_modules_op_deps _ F), app_nil_r.
    clear - Hd. induction d as [|x d IH]; [destruct Hd |].
    destruct Hd as [-> | Hd]; simpl; [now left |].
    apply in_or_app. right. now apply IH.
Qed.

End AllDeps.

Section AllDepsProps.
Context {SE : SchemaEngine}.
Variable ctx : ly_ctx.

(** X5. [sr_lydmods_add_all_deps] succeeds only on an entry without stored
    dependencies, and changes nothing but dependencies: the tree keeps
    its entries, in order, with their kinds, names and children; the entry
    of the module gains one [data-deps] container followed by
    operation-dependency records, and an entry gains at most the leaf
    [inverse-data-deps] with the name of the module, which it did not
    have. *)
Theorem add_all_deps_changes_only_dependencies (sr_mods : sr_mods_t) (i : nat)
    (ly_mod : lys_module) (sr_mods' : sr_mods_t) :
  sr_lydmods_add_all_deps ctx sr_mods i ly_mod = Ok sr_mods' ->
  exists sr_mod_ d ops,
    nth_error sr_mods i = Some sr_mod_
    /\ has_deps (sm_child sr_mod_) = false
    /\ forallb is_op_deps ops = true
    /\ Forall2 (gains_inverse (sm_name sr_mod_))
         (update_nth i (fun m => with_child m (sm_child m ++ n_data_deps d :: ops)) sr_mods)
         sr_mods'.
Proof.
  intros H. destruct (add_all_deps_inv ctx _ _ _ _ H) as (m & d & ops & A & B & C & D & _).
  exists m, d, ops. auto.
Qed.

(** X6. After [sr_lydmods_add_all_deps], every module named in the
    [data-deps] of the entry has a [module] entry in the tree that holds
    the leaf [inverse-data-deps] with the name of the entry. *)
Theorem add_all_deps_inverse_recorded (sr_mods : sr_mods_t) (i : nat)
    (ly_mod : lys_module) (sr_mods' : sr_mods_t) (sr_mod_ sr_mod' : sr_mod) (dep : string) :
  sr_lydmods_add_all_deps ctx sr_mods i ly_mod = Ok sr_mods' ->
  nth_error sr_mods i = Some sr_mod_ ->
  nth_error sr_mods' i = Some sr_mod' ->
  In dep (data_deps_modules (sm_child sr_mod')) ->
  exists t, In t sr_mods' /\ is_module t = true /\ sm_name t = dep
            /\ In (n_inverse_data_deps (sm_name sr_mod_)) (sm_child t).
Proof.
  intros H En En' Hd.
  destruct (add_all_deps_inv ctx _ _ _ _ H) as (m & d & ops & A & B & C & G & P).
  rewrite En in A. inversion A; subst m; clear A.
  apply P.
  pose proof (nth_error_update_nth sr_mods i
                (fun m => with_child m (sm_child m ++ n_data_deps d :: ops)) _ En) as E1.
  destruct (Forall2_nth_error_l _ _ _ _ _ G E1) as (y & Hy & _ & _ & Cy).
  rewrite En' in Hy. inversion Hy; subst y; clear Hy. simpl in Cy.
  assert (Hd' : In dep (data_deps_modules (sm_child sr_mod_ ++ n_data_deps d :: ops))).
  { destruct Cy as [E | [_ E]]; rewrite E in Hd; [exact Hd |].
    rewrite data_deps_modules_app in Hd. simpl in Hd. now rewrite app_nil_r in Hd. }
  rewrite data_deps_modules_app, (data_deps_modules_no_deps _ B) in Hd'. simpl in Hd'.
  rewrite (data_deps_modules_op_deps _ C), app_nil_r in Hd'.
  clear - Hd'. induction d as [|x d IH]; [destruct Hd' |]. simpl in Hd'.
  apply in_app_or in Hd'. destruct Hd' as [Hx | Hr]; [| right; now apply IH].
  destruct x; [| destruct Hx]. destruct Hx as [-> | []]. now left.
Qed.

End AllDepsProps.

Lemma add_all_deps_changes_only_dependencies_witness :
  exists sr_mod_ d ops,
    nth_error [Toy.module_entry "a" [n_revision "r"]; Toy.module_entry "b" []] 0
    = Some sr_mod_
    /\ has_deps (sm_child sr_mod_) = false
    /\ forallb is_op_deps ops = true
    /\ Forall2 (gains_inverse (sm_name sr_mod_))
         (update_nth 0 (fun m => with_child m (sm_child m ++ n_data_deps d :: ops))
            [Toy.module_entry "a" [n_revision "r"]; Toy.module_entry "b" []])
         [Toy.module_entry "a" [n_revision "r"; n_data_deps [dep_module "b"]];
          Toy.module_entry "b" [n_inverse_data_deps "a"]].
Proof.
  apply (@add_all_deps_changes_only_dependencies Toy.SE_bc []
           [Toy.module_entry "a" [n_revision "r"]; Toy.module_entry "b" []] 0 mod_a_notif).
  reflexivity.
Defined.

Lemma add_all_deps_inverse_recorded_witness :
  exists t,
    In t [Toy.module_entry "a" [n_revision "r"; n_data_deps [dep_module "b"]];
          Toy.module_entry "b" [n_inverse_data_deps "a"]]
    /\ is_module t = true /\ sm_name t = "b"
    /\ In (n_inverse_data_deps "a") (sm_child t).
Proof.
  apply (@add_all_deps_inverse_recorded Toy.SE_bc []
           [Toy.module_entry "a" [n_revision "r"]; Toy.module_entry "b" []] 0 mod_a_notif
           [Toy.module_entry "a" [n_revision "r"; n_data_deps [dep_module "b"]];
            Toy.module_entry "b" [n_inverse_data_deps "a"]]
           (Toy.module_entry "a" [n_revision "r"])
           (Toy.module_entry "a" [n_revision "r"; n_data_deps [dep_module "b"]]) "b");
    try reflexivity.
  simpl. left. reflexivity.
Defined.

(** ** Props: the checks of the apply engine *)

Section CheckProps.
Context {SE : SchemaEngine} {DS : Datastore SE}.

Lemma check_all_deps_unfold (ctx : ly_ctx) (ly_mod : lys_module) (sr_mods : sr_mods_t)
    (fail : bool) (log : sr_log) :
  sr_lydmods_check_all_deps ctx ly_mod sr_mods fail log =
  (dm <- module_dep_mods ctx ly_mod ;;
   fold_res (fun (fl : bool * sr_log) dep =>
               if mod_implemented dep then Ok fl
               else
                 let count := length (find_installed_module sr_mods (mod_name dep)) in
                 _ <- assert (count <? 2) ;;
                 if Nat.eqb count 0 then
                   Ok (true, snd fl ++ [(SR_LL_WRN,
                         "Module " ++ quoted (ly_name ly_mod) ++ " depends on module "
                         ++ quoted (mod_name dep) ++ ", which is not implemented.")%string])
                 else Ok fl)
     dm (fail, log)).
Proof.
  unfold sr_lydmods_check_all_deps, module_dep_mods.
  destruct (fold_res _ (ly_data ly_mod) []) as [dm1| |]; simpl; try reflexivity.
  destruct (fold_res _ (ly_rpcs ly_mod) dm1) as [dm2| |]; simpl; reflexivity.
Qed.

(** The loop "check all the dependency modules". *)
Lemma check_all_deps_outcome (ctx : ly_ctx) (ly_mod : lys_module)
    (sr_mods : sr_mods_t) (fail : bool) (log : sr_log) (dm : list lys_module_hdr)
    (fl : bool * sr_log) :
  module_dep_mods ctx ly_mod = Ok dm ->
  sr_lydmods_check_all_deps ctx ly_mod sr_mods fail log = Ok fl ->
  fst fl = fail || existsb (missing_dependency sr_mods) dm
  /\ exists t, snd fl = log ++ t
               /\ forallb is_wrn t = true
               /\ length t = length (filter (missing_dependency sr_mods) dm).
Proof.
  intros Hdm H. rewrite check_all_deps_unfold, Hdm in H. simpl in H. clear Hdm.
  revert fail log H. induction dm as [|dep dm IH]; intros fail log H; simpl in H.
  - inversion H; subst. simpl. split; [now rewrite orb_false_r |].
    exists []. now rewrite app_nil_r.
  - bind_as H fl1 H1. destruct fl1 as [f1 l1]. apply IH in H. clear IH.
    destruct H as [Hf (t & Ht & Hw & Hl)]. simpl. unfold missing_dependency at 1 3.
    destruct (mod_implemented dep); simpl.
    + inversion H1; subst. split; [exact Hf | eauto].
    + bind_inv H1. clear Hx.
      destruct (Nat.eqb (length (find_installed_module sr_mods (mod_name dep))) 0);
        inversion H1; subst; clear H1; simpl in *.
      * split; [rewrite Hf; now rewrite orb_true_r |].
        eexists. split; [rewrite Ht, <- app_assoc; reflexivity |].
        simpl. split; [exact Hw | now rewrite Hl].
      * split; [exact Hf | eauto].
Qed.

(** X7. The dependency check of a module never clears [fail]: it leaves
    [fail] as it was, or sets it, exactly when one of the dependency
    modules of the module is neither implemented nor staged for
    installation; the log gains one warning for each such module, and
    nothing else. *)
Theorem check_all_deps_fails_on_missing_dependency (ctx : ly_ctx) (ly_mod : lys_module)
    (sr_mods : sr_mods_t) (fail : bool) (log : sr_log) (dm : list lys_module_hdr)
    (fl : bool * sr_log) :
  module_dep_mods ctx ly_mod = Ok dm ->
  sr_lydmods_check_all_deps ctx ly_mod sr_mods fail log = Ok fl ->
  fst fl = fail || existsb (missing_dependency sr_mods) dm
  /\ exists t, snd fl = log ++ t
               /\ forallb is_wrn t = true
               /\ length t = length (filter (missing_dependency sr_mods) dm).
Proof. apply check_all_deps_outcome. Qed.

(** What [sr_lydmods_sched_check_removed_modules] returns. *)
Lemma check_removed_modules_spec (sr_mods : sr_mods_t) (st : apply_st) :
  exists st',
    sr_lydmods_sched_check_removed_modules sr_mods st = Ok st'
    /\ st_ctx st' = st_ctx st /\ st_change st' = st_change st
    /\ match find (removed_still_implemented (st_ctx st)) (removed_set sr_mods) with
       | Some m =>
           st_fail st' = true
           /\ st_log st' = st_log st ++ [(SR_LL_WRN,
                "Cannot remove module " ++ quoted (sm_name m)
                ++ " because some other installed module depends on it.")%string]
       | None => st_fail st' = st_fail st /\ st_log st' = st_log st
       end.
Proof.
  unfold sr_lydmods_sched_check_removed_modules. eexists. split; [reflexivity |]. simpl.
  split; [reflexivity |]. split; [reflexivity |].
  generalize (st_fail st) (st_log st). intros fail log.
  induction (removed_set sr_mods) as [|m set IH]; simpl; [auto |].
  destruct (removed_still_implemented (st_ctx st) m); simpl; auto.
Qed.

(** X8. The check of the removed modules changes neither the context nor
    [change]; it sets [fail] exactly when a module entry with the
    [removed] marker is still implemented in the new context, and then
    logs one warning, which names the first such entry; otherwise it
    leaves [fail] and the log as they were. *)
Theorem check_removed_modules_outcome (sr_mods : sr_mods_t) (st : apply_st) :
  exists st',
    sr_lydmods_sched_check_removed_modules sr_mods st = Ok st'
    /\ st_ctx st' = st_ctx st /\ st_change st' = st_change st
    /\ match find (removed_still_implemented (st_ctx st)) (removed_set sr_mods) with
       | Some m =>
           st_fail st' = true
           /\ st_log st' = st_log st ++ [(SR_LL_WRN,
                "Cannot remove module " ++ quoted (sm_name m)
                ++ " because some other installed module depends on it.")%string]
       | None => st_fail st' = st_fail st /\ st_log st' = st_log st
       end.
Proof. apply check_removed_modules_spec. Qed.

Lemma ctx_load_modules_spec (sr_mods : sr_mods_t) (ctx : ly_ctx) (removed updated : bool)
    (change : option bool) :
  sr_lydmods_ctx_load_modules sr_mods ctx removed updated change =
  (ctx' <- fold_res (fun c m => r <- sr_lydmods_ctx_load_module m c ;; Ok (fst r))
             (filter (loaded_entry removed updated) sr_mods) ctx ;;
   Ok (ctx', match change with
             | Some c => Some (c || existsb (skipped_for_marker removed updated) sr_mods)
             | None => None
             end)).
Proof.
  revert ctx change. induction sr_mods as [|m l IH]; intros ctx change; simpl.
  - destruct change; simpl; [now rewrite orb_false_r | reflexivity].
  - unfold loaded_entry, skipped_for_marker, is_installed_module.
    destruct (is_module m); simpl; [| apply IH].
    destruct ((negb removed && has_removed (sm_child m))
              || (negb updated && has_updated_yang (sm_child m))); simpl.
    + rewrite IH. destruct (fold_res _ _ ctx); simpl; try reflexivity.
      destruct change; simpl; [now rewrite orb_true_r | reflexivity].
    + destruct (sr_lydmods_ctx_load_module m ctx) as [r| |]; simpl; try reflexivity.
      apply IH.
Qed.

(** X9. Loading the modules of the registry into a context loads the
    [module] entries that are not skipped, in order, and no staged entry;
    an entry is skipped for its [removed] marker unless [removed] is
    asked for, and for its [updated-yang] marker unless [updated] is;
    [change], when given, is never cleared and is set exactly when an
    entry was skipped; without [change] none is reported. *)
Theorem ctx_load_modules_loads_unmarked (sr_mods : sr_mods_t) (ctx ctx' : ly_ctx)
    (removed updated : bool) (change change' : option bool) :
  sr_lydmods_ctx_load_modules sr_mods ctx removed updated change = Ok (ctx', change') ->
  fold_res (fun c m => r <- sr_lydmods_ctx_load_module m c ;; Ok (fst r))
    (filter (loaded_entry removed updated) sr_mods) ctx = Ok ctx'
  /\ change' = match change with
               | Some c => Some (c || existsb (skipped_for_marker removed updated) sr_mods)
               | None => None
               end.
Proof.
  rewrite ctx_load_modules_spec. intros H. bind_as H c1 H1. inversion H; subst. auto.
Qed.

(** X10. An error of the data check always ends with the error "Failed to
    update data for the new context."; when the check returns without an
    error it has changed neither the context nor [change], and either it
    left [fail] and the log as they were, or it wrote no file, set [fail]
    and logged the warning of the schema engine. *)
Theorem sched_update_data_outcomes (sr_mods : sr_mods_t) (fs : files) (st : apply_st) :
  (forall e, sr_lydmods_sched_update_data sr_mods fs st = Err e ->
     exists e0, e = e0 ++ [(SR_ERR_OPERATION_FAILED,
                            "Failed to update data for the new context.")])
  /\ (forall fs' st', sr_lydmods_sched_update_data sr_mods fs st = Ok (fs', st') ->
        st_ctx st' = st_ctx st /\ st_change st' = st_change st
        /\ ((st_fail st' = st_fail st /\ st_log st' = st_log st)
            \/ (fs' = fs /\ st_fail st' = true
                /\ st_log st' = st_log st ++ [(SR_LL_WRN, "libyang error")]))).
Proof.
  split.
  - intros e H. unfold sr_lydmods_sched_update_data, update_data_failed in H.
    match type of H with
    | match ?c with _ => _ end = _ => destruct c as [x|e0|]; try discriminate
    end.
    inversion H. eauto.
  - intros fs' st' H. apply update_data_ok in H.
    destruct H as [[-> ->] | ->]; simpl; auto 10.
Qed.

End CheckProps.

Lemma check_all_deps_fails_on_missing_dependency_witness :
  fst (true, [(SR_LL_WRN,
        "Module " ++ quoted "a" ++ " depends on module " ++ quoted "d"
        ++ ", which is not implemented.")%string])
  = false || existsb (missing_dependency [])
               [{| mod_name := "d"; mod_revision := None; mod_implemented := false |}]
  /\ exists t,
       snd (true, [(SR_LL_WRN,
              "Module " ++ quoted "a" ++ " depends on module " ++ quoted "d"
              ++ ", which is not implemented.")%string]) = [] ++ t
       /\ forallb is_wrn t = true
       /\ length t
          = length (filter (missing_dependency [])
                      [{| mod_name := "d"; mod_revision := None;
                          mod_implemented := false |}]).
Proof.
  apply (@check_all_deps_fails_on_missing_dependency SE_d [] mod_a_notif_d [] false []);
    reflexivity.
Defined.

Lemma ctx_load_modules_loads_unmarked_witness :
  let sr_mods := [Toy.module_entry "a" []; Toy.module_entry "b" [n_removed];
                  Toy.installed_entry "c" [n_module_yang "c"]] in
  fold_res (fun c m => r <- @sr_lydmods_ctx_load_module Toy.SE_ab m c ;; Ok (fst r))
    (filter (loaded_entry false false) sr_mods) [] = Ok [Toy.mod_a; Toy.mod_b]
  /\ Some true = Some (false || existsb (skipped_for_marker false false) sr_mods).
Proof.
  intros sr_mods.
  apply (@ctx_load_modules_loads_unmarked Toy.SE_ab sr_mods [] [Toy.mod_a; Toy.mod_b]
           false false (Some false) (Some true)).
  reflexivity.
Defined.

Lemma sched_update_data_outcomes_witness :
  (exists e0,
      [(SR_ERR_LY, "libyang error");
       (SR_ERR_OPERATION_FAILED, "Failed to update data for the new context.")]
      = e0 ++ [(SR_ERR_OPERATION_FAILED, "Failed to update data for the new context.")])
  /\ exists fs' st',
       @sr_lydmods_sched_update_data Toy.SE_ab Toy.DS_ab [Toy.module_entry "a" []]
         Toy.no_files
         {| st_ctx := [Toy.mod_a; Toy.mod_b] : @ly_ctx Toy.SE_ab; st_change := true;
            st_fail := false; st_log := [] |} = Ok (fs', st')
       /\ st_change st' = true.
Proof.
  split.
  - apply (proj1 (@sched_update_data_outcomes Toy.SE_ab Toy.DS_ab
                    [Toy.module_entry "zz" []] Toy.no_files
                    {| st_ctx := [] : @ly_ctx Toy.SE_ab; st_change := true;
                       st_fail := false; st_log := [] |})).
    reflexivity.
  - destruct (@sr_lydmods_sched_update_data Toy.SE_ab Toy.DS_ab [Toy.module_entry "a" []]
                Toy.no_files
                {| st_ctx := [Toy.mod_a; Toy.mod_b] : @ly_ctx Toy.SE_ab; st_change := true;
                   st_fail := false; st_log := [] |}) as [[fs' st']| |] eqn:E;
      try (vm_compute in E; discriminate).
    exists fs', st'. split; [reflexivity |].
    exact (proj1 (proj2 (proj2 (@sched_update_data_outcomes Toy.SE_ab Toy.DS_ab _ _ _)
                           fs' st' E))).
Defined.

(** ** Props: the apply engine *)

Section ApplyOutcome.
Context {SE : SchemaEngine} {DS : Datastore SE}.

(** X11. An apply that returns without an error and reports no change has
    touched neither the registry tree nor the files; one that reports a
    change has not failed and has logged that the changes were applied. *)
Theorem sched_apply_change_flag (sr_mods : sr_mods_t) (new_ctx : ly_ctx) (fs : files)
    (r : apply_result) :
  sr_lydmods_sched_apply sr_mods new_ctx fs = Ok r ->
  (r_change r = false -> r_mods r = sr_mods /\ r_files r = fs)
  /\ (r_change r = true ->
      r_fail r = false /\ In (SR_LL_INF, "Scheduled changes applied.") (r_log r)).
Proof.
  assert (Hc : forall mods fs0 st r0,
             apply_cleanup mods fs0 st = Ok r0 ->
             r_mods r0 = mods /\ r_files r0 = fs0
             /\ r_change r0 = negb (st_fail st) && st_change st
             /\ r_fail r0 = st_fail st
             /\ (r_change r0 = true ->
                 In (SR_LL_INF, "Scheduled changes applied.") (r_log r0))).
  { intros mods fs0 st r0 H. unfold apply_cleanup in H.
    destruct (st_fail st) eqn:F; [| destruct (st_change st) eqn:C];
      inversion H; subst; simpl; rewrite ?F, ?C; repeat split; try discriminate.
    intros _. apply in_or_app. right. now left. }
  assert (Hu : forall mods fs0 st r0,
             apply_cleanup mods fs0 st = Ok r0 -> mods = sr_mods -> fs0 = fs ->
             (r_change r0 = false -> r_mods r0 = sr_mods /\ r_files r0 = fs)
             /\ (r_change r0 = true ->
                 r_fail r0 = false
                 /\ In (SR_LL_INF, "Scheduled changes applied.") (r_log r0))).
  { intros mods fs0 st r0 H -> ->. destruct (Hc _ _ _ _ H) as (M & F & C & Fl & L).
    split; [auto |]. intros Ct. split; [| auto].
    rewrite Ct in C. symmetry in C. apply andb_true_iff in C. destruct C as [C _].
    rewrite Fl. now apply negb_true_iff. }
  unfold sr_lydmods_sched_apply. intros H. bind_as H st4 H4.
  destruct (st_fail st4) eqn:F4; [now apply (Hu _ _ _ _ H) |].
  destruct (st_change st4) eqn:C4; [| now apply (Hu _ _ _ _ H)].
  bind_as H st5 H5. destruct (st_fail st5) eqn:F5; [now apply (Hu _ _ _ _ H) |].
  bind_as H ud H6. destruct ud as [fs' st6]. simpl in H.
  destruct (st_fail st6) eqn:F6.
  { apply (Hu _ _ _ _ H); [reflexivity |]. eapply update_data_fail; eassumption. }
  bind_as H c Hcm. bind_as H sr_mods' Hr.
  destruct (Hc _ _ _ _ H) as (_ & _ & C & Fl & L). simpl in C, Fl.
  assert (C6 : st_change st6 = true).
  { apply update_data_ok in H6. unfold sr_lydmods_sched_check_removed_modules in H5.
    inversion H5; subst st5; clear H5.
    destruct H6 as [[_ ->] | ->]; simpl; exact C4. }
  rewrite ?F6, C6 in C. simpl in C. rewrite ?F6 in Fl. split; [congruence |].
  intros _. split; [exact Fl | auto].
Qed.

Lemma unscheduled_updated_yang_set (sr_mods : sr_mods_t) :
  forallb unscheduled sr_mods = true -> updated_yang_set sr_mods = [].
Proof.
  induction sr_mods as [|m l IH]; simpl; [reflexivity |].
  intros H. apply andb_true_iff in H. destruct H as [Hm Hl].
  rewrite (IH Hl), app_nil_r. unfold unscheduled in Hm.
  destruct (is_module m); [| reflexivity]. simpl in Hm.
  apply andb_true_iff in Hm. destruct Hm as [Hm _].
  apply andb_true_iff in Hm. destruct Hm as [_ Hu]. apply negb_true_iff in Hu.
  clear - Hu. induction (sm_child m) as [|c cs IHc]; simpl in *; [reflexivity |].
  apply orb_false_iff in Hu. destruct Hu as [Hc Hcs].
  destruct c; try discriminate; simpl; auto.
Qed.

Lemma unscheduled_module_yang_set (sr_mods : sr_mods_t) :
  forallb unscheduled sr_mods = true -> module_yang_set sr_mods = [].
Proof.
  induction sr_mods as [|m l IH]; simpl; [reflexivity |].
  intros H. apply andb_true_iff in H. destruct H as [Hm Hl].
  rewrite (IH Hl), app_nil_r. unfold unscheduled in Hm. unfold is_installed_module.
  destruct (is_module m); [reflexivity | discriminate].
Qed.

Lemma unscheduled_not_skipped (sr_mods : sr_mods_t) :
  forallb unscheduled sr_mods = true ->
  existsb (skipped_for_marker false false) sr_mods = false
  /\ filter (loaded_entry false false) sr_mods = sr_mods.
Proof.
  induction sr_mods as [|m l IH]; simpl; [auto |].
  intros H. apply andb_true_iff in H. destruct H as [Hm Hl].
  destruct (IH Hl) as [E F]. rewrite E, F. clear IH E F.
  unfold unscheduled in Hm. unfold loaded_entry, skipped_for_marker.
  destruct (is_module m); [| discriminate]. simpl in *.
  destruct (has_removed (sm_child m)); [discriminate |].
  destruct (has_updated_yang (sm_child m)); [discriminate |]. auto.
Qed.

Lemma unscheduled_change_features (sr_mods l : sr_mods_t) (st : apply_st) :
  forallb unscheduled l = true -> change_features_loop sr_mods l st = Ok st.
Proof.
  induction l as [|m l IH]; simpl; [reflexivity |].
  intros H. apply andb_true_iff in H. destruct H as [Hm Hl].
  unfold unscheduled in Hm. apply andb_true_iff in Hm. destruct Hm as [_ Hc].
  destruct (changed_features (sm_child m)); [now apply IH | discriminate].
Qed.

(** X12. When the registry holds only [module] entries without schedule
    markers, the apply is the load of these modules into the new context:
    an error of the load is the error of the apply; otherwise the apply
    reports neither a change nor a failure, leaves the registry tree and
    the files as they are and logs that there are no scheduled changes. *)
Theorem sched_apply_nothing_scheduled (sr_mods : sr_mods_t) (new_ctx : ly_ctx)
    (fs : files) :
  forallb unscheduled sr_mods = true ->
  sr_lydmods_sched_apply sr_mods new_ctx fs =
  (ld <- sr_lydmods_ctx_load_modules sr_mods new_ctx false false (Some false) ;;
   Ok {| r_mods := sr_mods; r_ctx := fst ld; r_files := fs;
         r_change := false; r_fail := false;
         r_log := [(SR_LL_INF, "Applying scheduled changes.");
                   (SR_LL_INF, "No scheduled changes.")] |}).
Proof.
  intros H. unfold sr_lydmods_sched_apply, sched_create_new_ctx.
  unfold sr_lydmods_sched_ctx_update_modules, sr_lydmods_sched_ctx_change_features,
    sr_lydmods_sched_ctx_install_modules.
  rewrite (unscheduled_updated_yang_set _ H), (unscheduled_module_yang_set _ H).
  simpl. rewrite !ctx_load_modules_spec.
  destruct (unscheduled_not_skipped _ H) as [E F]. rewrite E, F.
  destruct (fold_res _ sr_mods new_ctx) as [ctx'| |]; simpl; try reflexivity.
  rewrite (unscheduled_change_features _ _ _ H). simpl. reflexivity.
Qed.

End ApplyOutcome.

Lemma sched_apply_change_flag_witness :
  let sr_mods := [Toy.module_entry "a" []; Toy.module_entry "b" [n_removed]] in
  exists r,
    @sr_lydmods_sched_apply Toy.SE_ab Toy.DS_ab sr_mods [] Toy.no_files = Ok r
    /\ (r_change r = false -> r_mods r = sr_mods /\ r_files r = Toy.no_files)
    /\ (r_change r = true ->
        r_fail r = false /\ In (SR_LL_INF, "Scheduled changes applied.") (r_log r)).
Proof.
  intros sr_mods.
  destruct (@sr_lydmods_sched_apply Toy.SE_ab Toy.DS_ab sr_mods [] Toy.no_files)
    as [r| |] eqn:E; try (vm_compute in E; discriminate).
  exists r. split; [reflexivity |].
  exact (@sched_apply_change_flag Toy.SE_ab Toy.DS_ab sr_mods [] Toy.no_files r E).
Defined.

Lemma sched_apply_nothing_scheduled_witness :
  @sr_lydmods_sched_apply Toy.SE_ab Toy.DS_ab [Toy.module_entry "a" [n_revision "r"]] []
    Toy.no_files
  = Ok {| r_mods := [Toy.module_entry "a" [n_revision "r"]];
          r_ctx := [Toy.mod_a; Toy.mod_b] : @ly_ctx Toy.SE_ab;
          r_files := Toy.no_files : @files Toy.SE_ab Toy.DS_ab;
          r_change := false; r_fail := false;
          r_log := [(SR_LL_INF, "Applying scheduled changes.");
                    (SR_LL_INF, "No scheduled changes.")] |}.
Proof.
  rewrite (@sched_apply_nothing_scheduled Toy.SE_ab Toy.DS_ab
             [Toy.module_entry "a" [n_revision "r"]] [] Toy.no_files); reflexivity.
Defined.

(** ** Props: the commit of feature changes *)

Lemma enabled_features_app (a b : list sr_mod_child) :
  enabled_features (a ++ b) = enabled_features a ++ enabled_features b.
Proof. unfold enabled_features. apply flat_map_app. Qed.

Lemma changed_features_app (a b : list sr_mod_child) :
  changed_features (a ++ b) = changed_features a ++ changed_features b.
Proof. unfold changed_features. apply flat_map_app. Qed.

Lemma changed_features_filtered (l : list sr_mod_child) :
  changed_features (filter (fun c => negb (is_changed_feature c)) l) = [].
Proof. induction l as [|c l IH]; simpl; [reflexivity |]. destruct c; simpl; auto. Qed.

Lemma not_feature_filtered (l : list sr_mod_child) :
  filter not_feature (filter (fun c => negb (is_changed_feature c)) l)
  = filter not_feature l.
Proof.
  induction l as [|c l IH]; simpl; [reflexivity |].
  destruct c; simpl; rewrite ?IH; reflexivity.
Qed.

Lemma enabled_features_filtered (l : list sr_mod_child) :
  enabled_features (filter (fun c => negb (is_changed_feature c)) l) = enabled_features l.
Proof.
  induction l as [|c l IH]; simpl; [reflexivity |].
  destruct c; simpl; rewrite ?IH; reflexivity.
Qed.

Lemma remove_enabled_feature_changed (l : list sr_mod_child) (f : string) :
  changed_features (remove_enabled_feature l f) = changed_features l.
Proof.
  induction l as [|c l IH]; simpl; [reflexivity |].
  destruct c; simpl; rewrite ?IH; try reflexivity.
  destruct (String.eqb value f); simpl; auto.
Qed.

Lemma remove_enabled_feature_not_feature (l : list sr_mod_child) (f : string) :
  filter not_feature (remove_enabled_feature l f) = filter not_feature l.
Proof.
  induction l as [|c l IH]; simpl; [reflexivity |].
  destruct c; simpl; rewrite ?IH; try reflexivity.
  destruct (String.eqb value f); simpl; auto.
Qed.

(** Freeing the one match of [enabled-feature[.='f']]. *)
Lemma remove_enabled_feature_in (l : list sr_mod_child) (f g : string) :
  In g (enabled_features (remove_enabled_feature l f)) -> In g (enabled_features l).
Proof.
  induction l as [|c l IH]; simpl; [auto |].
  destruct c; simpl; auto.
  destruct (String.eqb value f); simpl; [auto |]. intros [-> | H]; auto.
Qed.

Lemma remove_enabled_feature_other (l : list sr_mod_child) (f g : string) :
  g <> f -> In g (enabled_features l) -> In g (enabled_features (remove_enabled_feature l f)).
Proof.
  intros N. induction l as [|c l IH]; simpl; [auto |].
  destruct c; simpl; auto.
  destruct (String.eqb_spec value f); simpl.
  - intros [-> | H]; [contradiction | exact H].
  - intros [-> | H]; auto.
Qed.

Lemma remove_enabled_feature_gone (l : list sr_mod_child) (f : string) :
  length (filter (String.eqb f) (enabled_features l)) = 1 ->
  ~ In f (enabled_features (remove_enabled_feature l f)).
Proof.
  induction l as [|c l IH]; simpl; [discriminate |].
  destruct c; simpl; auto.
  rewrite (String.eqb_sym value f). destruct (String.eqb_spec f value); simpl.
  - intros H Hin. inversion H as [H0].
    assert (Hf : In f (filter (String.eqb f) (enabled_features l))).
    { apply filter_In. split; [exact Hin | apply String.eqb_refl]. }
    destruct (filter (String.eqb f) (enabled_features l)); [destruct Hf | discriminate].
  - intros H [-> | Hin]; [contradiction | now apply IH].
Qed.

Section FeatureCommit.
Context {SE : SchemaEngine}.

Lemma change_step_inv (name : string) (s s' : list sr_mod_child * sr_log)
    (f ch : string) :
  change_feature_step name s (f, ch) = Ok s' ->
  changed_features (fst s') = changed_features (fst s)
  /\ filter not_feature (fst s') = filter not_feature (fst s)
  /\ (exists e, snd s' = snd s ++ [e])
  /\ (forall g, In g (enabled_features (fst s')) ->
        In g (enabled_features (fst s)) \/ (g = f /\ ch = "enable"))
  /\ (forall g, In g (enabled_features (fst s)) -> (g = f -> ch = "enable") ->
        In g (enabled_features (fst s')))
  /\ (ch = "enable" -> In f (enabled_features (fst s')))
  /\ (ch <> "enable" -> ~ In f (enabled_features (fst s'))).
Proof.
  unfold change_feature_step. intros H. bind_as H children Hc. inversion H; subst s'; clear H. simpl.
  destruct (String.eqb_spec ch "enable") as [-> | N].
  - inversion Hc; subst children; clear Hc.
    rewrite changed_features_app, filter_app, enabled_features_app. simpl.
    rewrite !app_nil_r. repeat split; eauto.
    + intros g Hg. apply in_app_or in Hg. destruct Hg as [Hg | [<- | []]]; auto.
    + intros g Hg _. apply in_or_app. now left.
    + intros _. apply in_or_app. right. now left.
  - bind_inv Hc. apply assert_ok, Nat.eqb_eq in Hx. inversion Hc; subst children; clear Hc.
    rewrite remove_enabled_feature_changed, remove_enabled_feature_not_feature.
    repeat split; eauto.
    + intros g Hg. left. eapply remove_enabled_feature_in; eassumption.
    + intros g Hg Hf. apply remove_enabled_feature_other; [| exact Hg].
      intros ->. now apply N, Hf.
    + intros C. contradiction.
    + intros _. now apply remove_enabled_feature_gone.
Qed.

Lemma change_fold_inv (name : string) (cfs : list (string * string))
    (s s' : list sr_mod_child * sr_log) :
  fold_res (change_feature_step name) cfs s = Ok s' ->
  changed_features (fst s') = changed_features (fst s)
  /\ filter not_feature (fst s') = filter not_feature (fst s)
  /\ (exists t, snd s' = snd s ++ t /\ length t = length cfs)
  /\ (forall g, In g (enabled_features (fst s')) ->
        In g (enabled_features (fst s)) \/ In (g, "enable") cfs)
  /\ (forall g, In g (enabled_features (fst s)) ->
        (forall ch, In (g, ch) cfs -> ch = "enable") ->
        In g (enabled_features (fst s')))
  /\ (forall g, (exists ch, In (g, ch) cfs) ->
        (forall ch, In (g, ch) cfs -> ch = "enable") ->
        In g (enabled_features (fst s')))
  /\ (forall g, (exists ch, In (g, ch) cfs) -> ~ In (g, "enable") cfs ->
        ~ In g (enabled_features (fst s'))).
Proof.
  revert s. induction cfs as [|[f ch] cfs IH]; intros s H; simpl in H.
  - inversion H; subst. repeat split; auto.
    + exists []. now rewrite app_nil_r.
    + intros g [c []].
    + intros g [c []].
  - bind_as H s1 H1. apply change_step_inv in H1.
    destruct H1 as (C1 & N1 & (e & L1) & In1 & Keep1 & En1 & Dis1).
    destruct (IH _ H) as (C2 & N2 & (t & L2 & Len) & In2 & Keep2 & En2 & Dis2). clear IH.
    split; [congruence |]. split; [congruence |]. split.
    { exists (e :: t). rewrite L2, L1, <- app_assoc. simpl. split; [reflexivity | now rewrite Len]. }
    split.
    { intros g Hg. destruct (In2 g Hg) as [Hg1 | Hc]; [| right; now right].
      destruct (In1 g Hg1) as [Hg0 | [-> ->]]; [now left | right; now left]. }
    assert (K : forall g, In g (enabled_features (fst s1)) ->
                (forall c, In (g, c) ((f, ch) :: cfs) -> c = "enable") ->
                In g (enabled_features (fst s'))).
    { intros g Hg Hall. apply Keep2; [exact Hg |]. intros c Hc. apply Hall. now right. }
    split.
    { intros g Hg Hall. apply K; [| exact Hall].
      apply Keep1; [exact Hg |]. intros ->. apply Hall. now left. }
    split.
    { intros g [c [Hc | Hc]] Hall.
      - inversion Hc; subst g c. apply K; [| exact Hall]. apply En1. apply Hall. now left.
      - apply En2; [eauto |]. intros c' Hc'. apply Hall. now right. }
    intros g [c [Hc | Hc]] Hno.
    + inversion Hc; subst g c. intros Hin.
      destruct (In2 _ Hin) as [Hin1 | Hen]; [| apply Hno; now right].
      revert Hin1. apply Dis1. intros ->. apply Hno. now left.
    + apply Dis2; [eauto |]. intros Hen. apply Hno. now right.
Qed.

(** X13. The commit of the feature changes of a module entry keeps the
    kind and the name of the entry and every child that is not a feature,
    leaves no [changed-feature] child and logs one message for each
    change. A feature is enabled afterwards only if it was enabled or an
    "enable" change named it; a feature named by changes that are all
    "enable" is enabled afterwards, and a feature named by a change but by
    no "enable" change is not. *)
Theorem finalize_change_features_outcome (sr_mod_ sr_mod' : sr_mod) (new_ctx : ly_ctx)
    (log log' : sr_log) :
  sr_lydmods_sched_finalize_module_change_features sr_mod_ new_ctx log
  = Ok (sr_mod', log') ->
  sm_kind sr_mod' = sm_kind sr_mod_ /\ sm_name sr_mod' = sm_name sr_mod_
  /\ changed_features (sm_child sr_mod') = []
  /\ filter not_feature (sm_child sr_mod') = filter not_feature (sm_child sr_mod_)
  /\ (exists t, log' = log ++ t /\ length t = length (changed_features (sm_child sr_mod_)))
  /\ (forall g, In g (enabled_features (sm_child sr_mod')) ->
        In g (enabled_features (sm_child sr_mod_)) \/ In (g, "enable") (changed_features (sm_child sr_mod_)))
  /\ (forall g, (exists ch, In (g, ch) (changed_features (sm_child sr_mod_))) ->
        (forall ch, In (g, ch) (changed_features (sm_child sr_mod_)) -> ch = "enable") ->
        In g (enabled_features (sm_child sr_mod')))
  /\ (forall g, (exists ch, In (g, ch) (changed_features (sm_child sr_mod_))) -> ~ In (g, "enable") (changed_features (sm_child sr_mod_)) ->
        ~ In g (enabled_features (sm_child sr_mod'))).
Proof.
  unfold sr_lydmods_sched_finalize_module_change_features. intros H.
  destruct (ly_ctx_get_module_implemented new_ctx (sm_name sr_mod_)) as [ly_mod|];
    [| discriminate].
  bind_as H r Hr. inversion H; subst; clear H. simpl.
  apply (change_fold_inv (ly_name ly_mod)) in Hr. simpl in Hr.
  rewrite changed_features_filtered, not_feature_filtered, enabled_features_filtered in Hr.
  destruct Hr as (C & N & L & I & _ & E & D). auto 10.
Qed.

End FeatureCommit.

Lemma finalize_change_features_outcome_witness :
  let sr_mod_ := Toy.module_entry "b"
                   [n_revision "r"; n_enabled_feature "g"; n_changed_feature "f" "enable";
                    n_changed_feature "g" "disable"] in
  exists sr_mod' log',
    @sr_lydmods_sched_finalize_module_change_features Toy.SE_ab sr_mod_
      [Toy.mod_a; Toy.mod_b] [] = Ok (sr_mod', log')
    /\ sm_child sr_mod' = [n_revision "r"; n_enabled_feature "f"]
    /\ changed_features (sm_child sr_mod') = []
    /\ In "f" (enabled_features (sm_child sr_mod'))
    /\ ~ In "g" (enabled_features (sm_child sr_mod')).
Proof.
  intros sr_mod_.
  destruct (@sr_lydmods_sched_finalize_module_change_features Toy.SE_ab sr_mod_
              [Toy.mod_a; Toy.mod_b] []) as [[sr_mod' log']| |] eqn:E;
    try (vm_compute in E; discriminate).
  exists sr_mod', log'. split; [reflexivity |].
  destruct (@finalize_change_features_outcome Toy.SE_ab sr_mod_ sr_mod' _ _ _ E)
    as (_ & _ & C & _ & _ & _ & En & Dis).
  split; [vm_compute in E; inversion E; reflexivity |]. split; [exact C |]. split.
  - apply En; [exists "enable"; simpl; auto |].
    intros ch [H | [H | []]]; inversion H; reflexivity.
  - apply Dis; [exists "disable"; simpl; auto |].
    intros [H | [H | []]]; discriminate.
Defined.

(** ** Props: installing modules into the registry *)

Lemma find_module_from_nil (k : nat) (l : sr_mods_t) (name : string) :
  find_module_from k l name = [] <-> ~ In name (module_names l).
Proof.
  revert k. induction l as [|m l IH]; intros k; simpl; [tauto |].
  unfold module_names in *. simpl. destruct (is_module m); simpl; [| apply IH].
  destruct (String.eqb_spec (sm_name m) name) as [E | N].
  - split; [discriminate | intros H; contradiction H; now left].
  - rewrite IH. tauto.
Qed.

Lemma module_names_app (a b : sr_mods_t) :
  module_names (a ++ b) = module_names a ++ module_names b.
Proof. unfold module_names. now rewrite filter_app, map_app. Qed.

Lemma NoDup_snoc {A : Type} (l : list A) (x : A) :
  NoDup l -> ~ In x l -> NoDup (l ++ [x]).
Proof.
  intros Hl Hx. apply NoDup_app; [exact Hl | constructor; [intros [] | constructor] |].
  intros a Ha [<- | []]. contradiction.
Qed.

Section Installs.
Context {SE : SchemaEngine} {DS : Datastore SE}.

Lemma installs_refl (st : commit_st) : installs st st.
Proof.
  split; [exists []; now rewrite app_nil_r |]. split; [auto | apply extends_refl].
Qed.

Lemma installs_trans (a b c : commit_st) : installs a b -> installs b c -> installs a c.
Proof.
  intros ((l1 & E1 & F1) & N1 & X1) ((l2 & E2 & F2) & N2 & X2).
  split; [| split; [auto | eapply extends_trans; eassumption]].
  exists (l1 ++ l2). rewrite E2, E1, app_assoc, forallb_app, F1, F2. auto.
Qed.

Lemma installs_log_inf (st : commit_st) (msg : string) : installs st (log_inf st msg).
Proof.
  split; [exists []; simpl; now rewrite app_nil_r |].
  split; [auto | eexists; reflexivity].
Qed.

Lemma installs_names (st st' : commit_st) (name : string) :
  installs st st' -> In name (module_names (c_mods st)) ->
  In name (module_names (c_mods st')).
Proof.
  intros ((l & E & _) & _) H. rewrite E, module_names_app. apply in_or_app. now left.
Qed.

Lemma all_installed_mono (m : lys_module) (st st' : commit_st) :
  installs st st' -> all_installed m st -> all_installed m st'.
Proof. intros I H m' R K. eapply installs_names; [exact I | now apply H]. Qed.

(** The loops over the imports. *)
Lemma imports_loop_installs (f : lys_module -> commit_st -> res commit_st)
    (l : list lys_module) :
  Forall (fun i => forall s s', f i s = Ok s' -> installs s s' /\ all_installed i s') l ->
  forall s s',
    (fix imps (l : list lys_module) (s : commit_st) : res commit_st :=
       match l with
       | [] => Ok s
       | i :: l' => s' <- f i s ;; imps l' s'
       end) l s = Ok s' ->
    installs s s' /\ forall i, In i l -> all_installed i s'.
Proof.
  induction 1 as [|i l Hi _ IH]; intros s s' H.
  - inversion H; subst. split; [apply installs_refl | intros i []].
  - bind_as H s1 H1. destruct (Hi _ _ H1) as [I1 A1]. destruct (IH _ _ H) as [I2 A2].
    split; [eapply installs_trans; eassumption |].
    intros j [<- | Hj]; [eapply all_installed_mono; eassumption | now apply A2].
Qed.

Lemma add_module_fresh (sr_mods : sr_mods_t) (ly_mod : lys_module) :
  exists e, sr_lydmods_add_module sr_mods ly_mod = sr_mods ++ [e]
            /\ fresh_entry e = true /\ sm_name e = ly_name ly_mod.
Proof.
  unfold sr_lydmods_add_module. eexists. split; [reflexivity |]. split; [| reflexivity].
  unfold fresh_entry. simpl. rewrite forallb_app. apply andb_true_iff. split.
  - destruct (ly_revision ly_mod); reflexivity.
  - induction (map fst (filter (fun f : string * bool => snd f) (ly_features ly_mod)));
      simpl; auto.
Qed.

Lemma add_module_with_imps_installs (ly_mod : lys_module) :
  forall log_first st st',
    sr_lydmods_add_module_with_imps_r ly_mod log_first st = Ok st' ->
    installs st st' /\ all_installed ly_mod st'.
Proof.
  induction ly_mod as [hdr feats data rpcs notifs imports includes IHi IHs]
    using lys_module_forall_ind.
  intros log_first st st' H. simpl in H.
  bind_as H fs1 Hfs. bind_as H r Hr. bind_as H st2 H2.
  set (ly_mod := Lys_module hdr feats data rpcs notifs imports includes) in *.
  assert (Hfst : installs st (fst r)
                 /\ (mod_implemented hdr = true ->
                     In (mod_name hdr) (module_names (c_mods (fst r))))).
  { destruct (mod_implemented hdr).
    - destruct (find_module (c_mods st) (mod_name hdr)) as [|j js] eqn:Ef.
      + bind_as Hr fs2 Hc.
        destruct (add_module_fresh (c_mods st) ly_mod) as (e & Ee & Fe & Ne).
        apply find_module_from_nil in Ef.
        assert (I : installs st {| c_mods := sr_lydmods_add_module (c_mods st) ly_mod;
                                   c_files := fs2; c_log := c_log st |}).
        { split; [exists [e]; simpl; rewrite Ee, Fe; auto |].
          split; [| apply extends_refl]. simpl. intros Hn.
          rewrite Ee, module_names_app. unfold module_names at 2. simpl.
          unfold fresh_entry in Fe. apply andb_true_iff in Fe. destruct Fe as [Fe _].
          rewrite Fe. simpl. apply NoDup_snoc; [exact Hn |]. now rewrite Ne. }
        assert (N : In (mod_name hdr)
                      (module_names (sr_lydmods_add_module (c_mods st) ly_mod))).
        { rewrite Ee, module_names_app. apply in_or_app. right.
          unfold module_names. simpl.
          unfold fresh_entry in Fe. apply andb_true_iff in Fe. destruct Fe as [Fe _].
          rewrite Fe. simpl. left. exact Ne. }
        destruct (Nat.eqb log_first 2); [| destruct (Nat.eqb log_first 1)];
          inversion Hr; subst r; simpl; (split; [| intros _; exact N]);
          try exact I; (eapply installs_trans; [exact I | apply installs_log_inf]).
      + inversion Hr; subst r; simpl. split.
        * split; [exists []; simpl; now rewrite app_nil_r |].
          split; [auto | apply extends_refl].
        * intros _. destruct (in_dec string_dec (mod_name hdr) (module_names (c_mods st)))
            as [Hin | Hn]; [exact Hin |].
          apply (find_module_from_nil 0) in Hn. unfold find_module in Ef. congruence.
    - inversion Hr; subst r; simpl. split; [| discriminate].
      split; [exists []; simpl; now rewrite app_nil_r |].
      split; [auto | apply extends_refl]. }
  destruct Hfst as [I1 N1].
  apply (imports_loop_installs
           (fun i s => sr_lydmods_add_module_with_imps_r i (snd r) s) imports) in H2;
    [| eapply Forall_impl; [| exact IHi]; intros i Hi s s'; apply Hi].
  destruct H2 as [I2 A2].
  assert (H3 : installs st2 st'
               /\ forall sub, In sub includes -> forall i, In i sub -> all_installed i st').
  { clear - H IHs. revert st2 H. induction IHs as [|sub subs Hsub _ IH]; intros st2 H.
    - inversion H; subst. split; [apply installs_refl | intros sub []].
    - bind_as H s1 H1.
      apply (imports_loop_installs
               (fun i s => sr_lydmods_add_module_with_imps_r i (snd r) s) sub) in H1;
        [| eapply Forall_impl; [| exact Hsub]; intros i Hi s s'; apply Hi].
      destruct H1 as [Ia Aa]. destruct (IH _ H) as [Ib Ab].
      split; [eapply installs_trans; eassumption |].
      intros sub' [<- | Hs] i Hi.
      + eapply all_installed_mono; [exact Ib | now apply Aa].
      + now apply (Ab sub'). }
  destruct H3 as [I3 A3].
  split; [eapply installs_trans; [exact I1 | eapply installs_trans; eassumption] |].
  intros m' R K. inversion R as [m0 | m0 i m1 Hi Ri | m0 sub i m1 Hs Hi Ri]; subst.
  - apply (installs_names (fst r)); [eapply installs_trans; [exact I2 | exact I3] |].
    apply N1. exact K.
  - simpl in Hi. exact (all_installed_mono i _ _ I3 (A2 i Hi) m' Ri K).
  - simpl in Hs. exact (A3 sub Hs i Hi m' Ri K).
Qed.

End Installs.

Section InstallProps.
Context {SE : SchemaEngine} {DS : Datastore SE}.

(** X14. Adding a module with its imports keeps every entry of the tree
    and adds, at its end, only fresh [module] entries (a revision and
    enabled features: no marker, no dependency); it never adds a second
    [module] entry with a name the tree holds; and afterwards the module
    and every module reached through imports, of modules or of their
    submodules, has a [module] entry if it is implemented. *)
Theorem add_module_with_imps_installs_closure (ly_mod : lys_module) (log_first : nat)
    (st st' : commit_st) :
  sr_lydmods_add_module_with_imps_r ly_mod log_first st = Ok st' ->
  (exists l, c_mods st' = c_mods st ++ l /\ forallb fresh_entry l = true)
  /\ (NoDup (module_names (c_mods st)) -> NoDup (module_names (c_mods st')))
  /\ (forall m', imports_rec ly_mod m' -> ly_implemented m' = true ->
        In (ly_name m') (module_names (c_mods st'))).
Proof.
  intros H. destruct (add_module_with_imps_installs _ _ _ _ H) as [(A & B & _) C]. auto.
Qed.

Lemma internal_module_installs (st st' : commit_st) (ly_mod : lys_module) :
  create_internal_module st ly_mod = Ok st' -> installs st st'.
Proof.
  unfold create_internal_module. intros H.
  destruct (ly_implemented ly_mod); [| inversion H; subst; apply installs_refl].
  bind_as H st1 H1. inversion H; subst.
  eapply installs_trans; [| apply installs_log_inf].
  exact (proj1 (add_module_with_imps_installs _ _ _ _ H1)).
Qed.

Lemma install_int_mod_installs (yang_mod : string) (dep : bool)
    (s s' : ly_ctx * commit_st) :
  SR_INSTALL_INT_MOD yang_mod dep s = Ok s' -> installs (snd s) (snd s').
Proof.
  unfold SR_INSTALL_INT_MOD. intros H.
  destruct (lys_parse_mem (fst s) yang_mod) as [[ctx1 ly_mod]|]; [| discriminate].
  bind_as H st1 H1. inversion H; subst. simpl.
  eapply installs_trans; [| apply installs_log_inf].
  exact (proj1 (add_module_with_imps_installs _ _ _ _ H1)).
Qed.

(** X15. Creating the registry fails with an internal error when the
    module [sysrepo] is not implemented in the context. When it succeeds,
    the tree holds only fresh [module] entries (no staged entry, no
    schedule marker, no dependency), their names are distinct, and the log
    holds what it held, followed by the messages of the installation. *)
Theorem create_registry_of_fresh_modules
    (y1 y2 y3 y4 y5 y6 y7 : string) (ly_ctx_ : ly_ctx) (fs : files) (log : sr_log) :
  (ly_ctx_get_module_implemented ly_ctx_ SR_YANG_MOD = None ->
   sr_lydmods_create y1 y2 y3 y4 y5 y6 y7 ly_ctx_ fs log = Err SR_ERRINFO_INT)
  /\ (forall ctx' st,
        sr_lydmods_create y1 y2 y3 y4 y5 y6 y7 ly_ctx_ fs log = Ok (ctx', st) ->
        forallb fresh_entry (c_mods st) = true
        /\ NoDup (map sm_name (c_mods st))
        /\ extends log (c_log st)).
Proof.
  unfold sr_lydmods_create. split; [intros ->; reflexivity |].
  intros ctx' st H.
  destruct (ly_ctx_get_module_implemented ly_ctx_ SR_YANG_MOD); [| discriminate].
  bind_as H st1 H1. bind_as H s2 H2. bind_as H s3 H3. bind_as H s4 H4.
  bind_as H s5 H5. bind_as H s6 H6. bind_as H s7 H7.
  apply (keeps_fold installs installs_refl installs_trans) in H1;
    [| apply Forall_forall; intros m _ a b; apply internal_module_installs].
  apply install_int_mod_installs in H2, H3, H4, H5, H6, H7, H. simpl in H2, H.
  assert (I : installs {| c_mods := []; c_files := fs; c_log := log |} st).
  { pose proof (installs_trans _ _ _ H1 H2) as I2. pose proof (installs_trans _ _ _ I2 H3) as I3.
    pose proof (installs_trans _ _ _ I3 H4) as I4. pose proof (installs_trans _ _ _ I4 H5) as I5.
    pose proof (installs_trans _ _ _ I5 H6) as I6. pose proof (installs_trans _ _ _ I6 H7) as I7.
    exact (installs_trans _ _ _ I7 H). }
  destruct I as ((added & E & F) & N & X). simpl in E, N, X. subst added.
  split; [exact F |]. split; [| exact X].
  assert (Hn : module_names (c_mods st) = map sm_name (c_mods st)).
  { unfold module_names. f_equal. clear - F.
    induction (c_mods st) as [|e l IH]; simpl in *; [reflexivity |].
    apply andb_true_iff in F. destruct F as [Fe Fl]. unfold fresh_entry in Fe.
    apply andb_true_iff in Fe. destruct Fe as [Fe _]. rewrite Fe. f_equal. now apply IH. }
  rewrite <- Hn. apply N. constructor.
Qed.

End InstallProps.

Lemma add_module_with_imps_installs_closure_witness :
  exists st',
    @sr_lydmods_add_module_with_imps_r Toy.SE_ab Toy.DS_ab Toy.mod_a 2
      (@Build_commit_st Toy.SE_ab Toy.DS_ab [Toy.module_entry "b" []] Toy.no_files [])
    = Ok st'
    /\ c_mods st' = [Toy.module_entry "b" []; Toy.module_entry "a" []]
    /\ In "b" (module_names (c_mods st')).
Proof.
  destruct (@sr_lydmods_add_module_with_imps_r Toy.SE_ab Toy.DS_ab Toy.mod_a 2
              (@Build_commit_st Toy.SE_ab Toy.DS_ab [Toy.module_entry "b" []]
                 Toy.no_files [])) as [st'| |] eqn:E; try (vm_compute in E; discriminate).
  exists st'. split; [reflexivity |].
  split; [vm_compute in E; inversion E; reflexivity |].
  apply (proj2 (proj2 (@add_module_with_imps_installs_closure Toy.SE_ab Toy.DS_ab _ _ _ _ E))
           Toy.mod_b); [| reflexivity].
  apply (imports_import Toy.mod_a Toy.mod_b); [left; reflexivity | apply imports_self].
Defined.

Lemma create_registry_of_fresh_modules_witness :
  exists ctx' st,
    @sr_lydmods_create Toy.SE_ab Toy.DS_ab "b" "a" "a" "b" "a" "a" "b"
      [Lys_module (Toy.hdr "sysrepo") [] [] [] [] [] []] Toy.no_files [] = Ok (ctx', st)
    /\ c_mods st = [Toy.module_entry "b" []; Toy.module_entry "a" []]
    /\ forallb fresh_entry (c_mods st) = true
    /\ NoDup (map sm_name (c_mods st)).
Proof.
  destruct (@sr_lydmods_create Toy.SE_ab Toy.DS_ab "b" "a" "a" "b" "a" "a" "b"
              [Lys_module (Toy.hdr "sysrepo") [] [] [] [] [] []] Toy.no_files [])
    as [[ctx' st]| |] eqn:E; try (vm_compute in E; discriminate).
  exists ctx', st. split; [reflexivity |].
  split; [vm_compute in E; inversion E; reflexivity |].
  destruct (proj2 (@create_registry_of_fresh_modules Toy.SE_ab Toy.DS_ab
                     "b" "a" "a" "b" "a" "a" "b" _ _ _) ctx' st E) as (F & N & _).
  auto.
Defined.

(** ** Props: staged modules *)

Section StagedProps.
Context {SE : SchemaEngine}.

Lemma load_installed_loop_found (set : list (sr_mod * string)) (ctx ctx' : ly_ctx)
    (module_name : string) (found found' : option lys_module_hdr) :
  load_installed_loop set ctx module_name found = Ok (ctx', found') ->
  found' = found
  \/ exists parent yang ctx0 ctx1 ly_mod,
       In (parent, yang) set /\ lys_parse_mem ctx0 yang = Some (ctx1, ly_mod)
       /\ ly_name ly_mod = module_name /\ found' = Some (ly_hdr ly_mod).
Proof.
  revert ctx found. induction set as [|[parent yang] set IH]; intros ctx found H; simpl in H.
  - inversion H; subst. now left.
  - destruct (lys_parse_mem ctx yang) as [[ctx1 ly_mod]|] eqn:Ep; [| discriminate].
    bind_as H r Hr. apply IH in H. clear IH.
    destruct H as [-> | (p & y & c0 & c1 & m & Hin & Hp & Hn & ->)].
    + destruct (String.eqb_spec (ly_name ly_mod) module_name) as [En | _]; [| now left].
      right. exists parent, yang, ctx, ctx1, ly_mod. repeat split; auto. now left.
    + right. exists p, y, c0, c1, m. repeat split; auto. now right.
Qed.

(** X16. Loading the staged modules to find the one named [module_name]:
    the module it returns has that name and is the module that the YANG
    text of a staged entry parsed to; without staged modules the call
    fails with the "not scheduled for installation" error of the
    not-found kind. *)
Theorem load_installed_module_all_outcome (sr_mods : sr_mods_t) (ctx : ly_ctx)
    (module_name : string) :
  (forall ctx' m,
      sr_lydmods_ctx_load_installed_module_all sr_mods ctx module_name = Ok (ctx', m) ->
      mod_name m = module_name
      /\ exists parent yang ctx0 ctx1 ly_mod,
           In (parent, yang) (module_yang_nodes sr_mods)
           /\ lys_parse_mem ctx0 yang = Some (ctx1, ly_mod) /\ ly_hdr ly_mod = m)
  /\ (module_yang_nodes sr_mods = [] ->
      sr_lydmods_ctx_load_installed_module_all sr_mods ctx module_name
      = Err [(SR_ERR_NOT_FOUND,
              "Module " ++ quoted module_name ++ " not scheduled for installation."
             )%string]).
Proof.
  unfold sr_lydmods_ctx_load_installed_module_all. split.
  - intros ctx' m H. bind_as H r Hr. destruct r as [c found]. simpl in H.
    destruct found as [h|]; [| discriminate]. inversion H; subst; clear H.
    apply load_installed_loop_found in Hr.
    destruct Hr as [Hr | (p & y & c0 & c1 & lm & Hin & Hp & Hn & Hf)]; [discriminate |].
    inversion Hf; subst. split; [reflexivity |]. exists p, y, c0, c1, lm. auto.
  - intros ->. reflexivity.
Qed.

End StagedProps.

Lemma load_installed_module_all_outcome_witness :
  exists ctx' m,
    @sr_lydmods_ctx_load_installed_module_all Toy.SE_ab
      [Toy.module_entry "a" []; Toy.installed_entry "b" [n_module_yang "b"]] [] "b"
    = Ok (ctx', m)
    /\ mod_name m = "b".
Proof.
  destruct (@sr_lydmods_ctx_load_installed_module_all Toy.SE_ab
              [Toy.module_entry "a" []; Toy.installed_entry "b" [n_module_yang "b"]] [] "b")
    as [[ctx' m]| |] eqn:E; try (vm_compute in E; discriminate).
  exists ctx', m. split; [reflexivity |].
  exact (proj1 (proj1 (@load_installed_module_all_outcome Toy.SE_ab _ _ _) ctx' m E)).
Defined.

(** ** Props: replay support *)

Section ReplayProps.
Context {SE : SchemaEngine} {DS : Datastore SE}.
Variable ly_ctx_get_node : ly_ctx -> string -> option lysc_node.
Variable lys_find_child : lysc_node -> string -> option lysc_node.
Variable sr_replay_find_file : files -> string -> Z -> Z -> res (Z * Z).
Variable now : Z.

Lemma replay_filter_remove_first (l : list sr_mod_child) :
  filter is_replay_support (remove_first is_replay_support l)
  = tl (filter is_replay_support l)
  /\ filter (fun c => negb (is_replay_support c)) (remove_first is_replay_support l)
     = filter (fun c => negb (is_replay_support c)) l.
Proof.
  induction l as [|c l [IH1 IH2]]; simpl; [auto |].
  destruct (is_replay_support c) eqn:E; simpl; [auto |].
  rewrite E. simpl. rewrite IH1, IH2. auto.
Qed.

Lemma replay_existsb_count (l : list sr_mod_child) :
  existsb is_replay_support l = negb (Nat.eqb (length (filter is_replay_support l)) 0).
Proof.
  induction l as [|c l IH]; simpl; [reflexivity |].
  destruct (is_replay_support c); simpl; auto.
Qed.

(** What [sr_lydmods_update_replay_support_module] does to an entry. *)
Lemma replay_support_module_inv (fs : files) (sr_mod_ sr_mod' : sr_mod)
    (replay_support : bool) :
  replay_count sr_mod_ <= 1 ->
  sr_lydmods_update_replay_support_module sr_replay_find_file now fs sr_mod_ replay_support
  = Ok sr_mod' ->
  entry_key sr_mod' = entry_key sr_mod_
  /\ filter (fun c => negb (is_replay_support c)) (sm_child sr_mod')
     = filter (fun c => negb (is_replay_support c)) (sm_child sr_mod_)
  /\ replay_count sr_mod' = (if replay_support then 1 else 0)
  /\ (existsb is_replay_support (sm_child sr_mod_) = replay_support -> sr_mod' = sr_mod_)
  /\ sr_lydmods_update_replay_support_module sr_replay_find_file now fs sr_mod'
       replay_support = Ok sr_mod'
  /\ (existsb is_replay_support (sm_child sr_mod_) = false -> replay_support = true ->
      exists ts, sr_replay_find_file fs (sm_name sr_mod_) 1%Z 0%Z = Ok ts
                 /\ sm_child sr_mod'
                    = sm_child sr_mod_
                      ++ [n_replay_support
                            (sprintf_ld (if Z.eqb (fst ts) 0 then now else fst ts))]).
Proof.
  unfold replay_count. intros L H.
  assert (Hmain :
    entry_key sr_mod' = entry_key sr_mod_
    /\ filter (fun c => negb (is_replay_support c)) (sm_child sr_mod')
       = filter (fun c => negb (is_replay_support c)) (sm_child sr_mod_)
    /\ length (filter is_replay_support (sm_child sr_mod'))
       = (if replay_support then 1 else 0)
    /\ (existsb is_replay_support (sm_child sr_mod_) = replay_support -> sr_mod' = sr_mod_)
    /\ (existsb is_replay_support (sm_child sr_mod_) = false -> replay_support = true ->
        exists ts, sr_replay_find_file fs (sm_name sr_mod_) 1%Z 0%Z = Ok ts
                   /\ sm_child sr_mod'
                      = sm_child sr_mod_
                        ++ [n_replay_support
                              (sprintf_ld (if Z.eqb (fst ts) 0 then now else fst ts))])).
  { unfold sr_lydmods_update_replay_support_module in H.
    pose proof (replay_existsb_count (sm_child sr_mod_)) as Hc.
    destruct replay_support, (existsb is_replay_support (sm_child sr_mod_)) eqn:Ex;
      simpl in H.
    - assert (E : sr_mod' = sr_mod_) by congruence. subst sr_mod'. clear H.
      repeat split; try discriminate.
      destruct (filter is_replay_support (sm_child sr_mod_)) as [|a [|b l]];
        simpl in *; [discriminate | reflexivity | lia].
    - bind_as H ts Hts. inversion H; subst; clear H. simpl.
      rewrite !filter_app, length_app. simpl. rewrite app_nil_r.
      destruct (filter is_replay_support (sm_child sr_mod_)); [| discriminate].
      repeat split; try discriminate. intros _ _. exists ts. auto.
    - inversion H; subst; clear H. simpl.
      destruct (replay_filter_remove_first (sm_child sr_mod_)) as [E1 E2].
      rewrite E1, E2.
      destruct (filter is_replay_support (sm_child sr_mod_)) as [|a [|b l]];
        simpl in *; repeat split; try discriminate; lia.
    - assert (E : sr_mod' = sr_mod_) by congruence. subst sr_mod'. clear H.
      repeat split; try discriminate.
      now destruct (filter is_replay_support (sm_child sr_mod_)). }
  destruct Hmain as (K & F & C & U & T).
  split; [exact K |]. split; [exact F |]. split; [exact C |]. split; [exact U |].
  split; [| exact T].
  unfold sr_lydmods_update_replay_support_module.
  rewrite replay_existsb_count, C. now destruct replay_support.
Qed.

(** X17. Setting the replay support of a module entry whose
    [replay-support] leaf occurs at most once keeps the kind, the name and
    every other child of the entry; afterwards the leaf is there exactly
    when replay is to be supported; an entry that is already in the
    requested state is returned as it is, so an existing timestamp is
    kept and a second call changes nothing; and a leaf that is added holds
    the start of the earliest stored notification, or the current time
    when there is none. *)
Theorem update_replay_support_module_outcome (fs : files) (sr_mod_ sr_mod' : sr_mod)
    (replay_support : bool) :
  replay_count sr_mod_ <= 1 ->
  sr_lydmods_update_replay_support_module sr_replay_find_file now fs sr_mod_ replay_support
  = Ok sr_mod' ->
  entry_key sr_mod' = entry_key sr_mod_
  /\ filter (fun c => negb (is_replay_support c)) (sm_child sr_mod')
     = filter (fun c => negb (is_replay_support c)) (sm_child sr_mod_)
  /\ replay_count sr_mod' = (if replay_support then 1 else 0)
  /\ (existsb is_replay_support (sm_child sr_mod_) = replay_support -> sr_mod' = sr_mod_)
  /\ sr_lydmods_update_replay_support_module sr_replay_find_file now fs sr_mod'
       replay_support = Ok sr_mod'
  /\ (existsb is_replay_support (sm_child sr_mod_) = false -> replay_support = true ->
      exists ts, sr_replay_find_file fs (sm_name sr_mod_) 1%Z 0%Z = Ok ts
                 /\ sm_child sr_mod'
                    = sm_child sr_mod_
                      ++ [n_replay_support
                            (sprintf_ld (if Z.eqb (fst ts) 0 then now else fst ts))]).
Proof. apply replay_support_module_inv. Qed.

End ReplayProps.

Lemma update_replay_support_module_outcome_witness :
  let find_file := fun (_ : @files Toy.SE_ab Toy.DS_ab) (_ : string) (_ _ : Z) =>
                     Ok (0%Z, 0%Z) in
  let sr_mod_ := Toy.module_entry "a" [n_revision "r"] in
  let sr_mod' := Toy.module_entry "a" [n_revision "r"; n_replay_support "1600000000"] in
  @sr_lydmods_update_replay_support_module Toy.SE_ab Toy.DS_ab find_file 1600000000%Z
    Toy.no_files sr_mod_ true = Ok sr_mod'
  /\ replay_count sr_mod' = 1
  /\ @sr_lydmods_update_replay_support_module Toy.SE_ab Toy.DS_ab find_file 1600000000%Z
       Toy.no_files sr_mod' true = Ok sr_mod'.
Proof.
  intros find_file sr_mod_ sr_mod'.
  assert (E : @sr_lydmods_update_replay_support_module Toy.SE_ab Toy.DS_ab find_file
                1600000000%Z Toy.no_files sr_mod_ true = Ok sr_mod') by reflexivity.
  split; [exact E |].
  destruct (@update_replay_support_module_outcome Toy.SE_ab Toy.DS_ab find_file
              1600000000%Z Toy.no_files sr_mod_ sr_mod' true)
    as (_ & _ & C & _ & T & _); [vm_compute; lia | exact E |].
  split; [exact C | exact T].
Defined.

Section ReplayAllProps.
Context {SE : SchemaEngine} {DS : Datastore SE}.
Variable ly_ctx_get_node : ly_ctx -> string -> option lysc_node.
Variable lys_find_child : lysc_node -> string -> option lysc_node.
Variable sr_replay_find_file : files -> string -> Z -> Z -> res (Z * Z).
Variable now : Z.

Lemma parse_change_print_ok (fs : files) (ctx : ly_ctx) (sr_mods sr_mods' : sr_mods_t)
    (change : sr_mods_t -> res sr_mods_t) :
  sr_lydmods_parse fs ctx = Ok sr_mods -> change sr_mods = Ok sr_mods' ->
  parse_change_print fs ctx change = sr_lydmods_print fs sr_mods'.
Proof. intros P C. unfold parse_change_print. now rewrite P, C. Qed.

Lemma parse_change_print_abort (fs : files) (ctx : ly_ctx) (sr_mods : sr_mods_t)
    (change : sr_mods_t -> res sr_mods_t) :
  sr_lydmods_parse fs ctx = Ok sr_mods -> change sr_mods = Abort ->
  parse_change_print fs ctx change = (Abort, fs).
Proof. intros P C. unfold parse_change_print. now rewrite P, C. Qed.

(** X18. With the registry loaded and the schema nodes of the list
    [module] and of its leaf [replay-support] found: setting the replay
    support of all modules writes a tree with the same entries, in which
    every staged entry is as it was and every [module] entry (its leaf
    occurring at most once before) has kept its other children and has the
    leaf exactly when replay is to be supported; setting it for a named
    module that has no [module] entry violates the assertion, and the
    registry file is not written. *)
Theorem update_replay_support_outcome (fs : files) (ctx : ly_ctx) (sr_mods : sr_mods_t)
    (replay_support : bool) (s_mod s_replay : lysc_node) :
  ly_ctx_get_node ctx "/sysrepo:sysrepo-modules/module" = Some s_mod ->
  lys_find_child s_mod "replay-support" = Some s_replay ->
  sr_lydmods_parse fs ctx = Ok sr_mods ->
  (forall sr_mods',
      Forall (fun m => replay_count m <= 1) sr_mods ->
      update_replay_support_all sr_replay_find_file now fs sr_mods replay_support
      = Ok sr_mods' ->
      sr_lydmods_update_replay_support ly_ctx_get_node lys_find_child sr_replay_find_file
        now fs ctx None replay_support = sr_lydmods_print fs sr_mods'
      /\ Forall2 (fun m m' =>
                    entry_key m' = entry_key m
                    /\ if is_module m
                       then replay_count m' = (if replay_support then 1 else 0)
                            /\ filter (fun c => negb (is_replay_support c)) (sm_child m')
                               = filter (fun c => negb (is_replay_support c)) (sm_child m)
                       else m' = m) sr_mods sr_mods')
  /\ (forall name,
        find (is_module_named name) sr_mods = None ->
        sr_lydmods_update_replay_support ly_ctx_get_node lys_find_child sr_replay_find_file
          now fs ctx (Some name) replay_support = (Abort, fs)).
Proof.
  intros Hm Hr P. split.
  - intros sr_mods' L H. split.
    + unfold sr_lydmods_update_replay_support. rewrite Hm, Hr.
      now apply (parse_change_print_ok fs ctx sr_mods).
    + clear P. revert sr_mods' H. induction L as [|m l Lm _ IH]; intros sr_mods' H;
        simpl in H.
      * inversion H; subst. constructor.
      * bind_as H m1 H1. bind_as H l1 H2. inversion H; subst; clear H.
        constructor; [| now apply IH].
        destruct (is_module m).
        -- destruct (replay_support_module_inv sr_replay_find_file now
                       fs m m1 replay_support Lm H1) as (K & F & C & _).
           auto.
        -- inversion H1; subst. auto.
  - intros name Hn. unfold sr_lydmods_update_replay_support. rewrite Hm, Hr.
    apply (parse_change_print_abort fs ctx sr_mods); [exact P |]. now rewrite Hn.
Qed.

End ReplayAllProps.

Lemma update_replay_support_outcome_witness :
  let find_file := fun (_ : @files Toy.SE_ab Toy.DS_ab) (_ : string) (_ _ : Z) =>
                     Ok (1500000000%Z, 0%Z) in
  let get_node := fun (_ : @ly_ctx Toy.SE_ab) (_ : string) => Some Toy.node_bx in
  let find_child := fun (_ : lysc_node) (_ : string) => Some Toy.node_bx in
  let sr_mods := [Toy.module_entry "a" []; Toy.installed_entry "b" [n_module_yang "b"]] in
  let fs := {| Toy.f_startup := []; Toy.f_running := []; Toy.f_yang := [];
               Toy.f_registry := Some sr_mods |} in
  @sr_lydmods_update_replay_support Toy.SE_ab Toy.DS_ab get_node find_child find_file
    1600000000%Z fs [] None true
  = @sr_lydmods_print Toy.SE_ab Toy.DS_ab fs
      [Toy.module_entry "a" [n_replay_support "1500000000"];
       Toy.installed_entry "b" [n_module_yang "b"]]
  /\ @sr_lydmods_update_replay_support Toy.SE_ab Toy.DS_ab get_node find_child find_file
       1600000000%Z fs [] (Some "zz") true = (Abort, fs).
Proof.
  intros find_file get_node find_child sr_mods fs.
  destruct (@update_replay_support_outcome Toy.SE_ab Toy.DS_ab get_node find_child
              find_file 1600000000%Z fs [] sr_mods true Toy.node_bx Toy.node_bx
              eq_refl eq_refl eq_refl) as [A B].
  split.
  - apply (A [Toy.module_entry "a" [n_replay_support "1500000000"];
              Toy.installed_entry "b" [n_module_yang "b"]]); [| reflexivity].
    repeat constructor; vm_compute; lia.
  - apply B. reflexivity.
Defined.

(** ** Props: the schedule manager *)

Lemma filter_remove_first {A : Type} (p : A -> bool) (l : list A) :
  filter p (remove_first p l) = tl (filter p l)
  /\ filter (fun c => negb (p c)) (remove_first p l) = filter (fun c => negb (p c)) l.
Proof.
  induction l as [|c l [IH1 IH2]]; simpl; [auto |].
  destruct (p c) eqn:E; simpl; [auto |].
  rewrite E. simpl. rewrite IH1, IH2. auto.
Qed.

Lemma remove_first_snoc {A : Type} (p : A -> bool) (l : list A) (e : A) :
  filter p l = [] -> p e = true -> remove_first p (l ++ [e]) = l.
Proof.
  intros Hl He. induction l as [|a l IH]; simpl in *; [now rewrite He |].
  destruct (p a); [discriminate |]. f_equal. now apply IH.
Qed.

Lemma with_child_same (m : sr_mod) : with_child m (sm_child m) = m.
Proof. now destruct m. Qed.

Lemma existsb_filter_nil {A : Type} (p : A -> bool) (l : list A) :
  filter p l = [] -> existsb p l = false.
Proof.
  induction l as [|a l IH]; simpl; [reflexivity |].
  destruct (p a); [discriminate | exact IH].
Qed.

(** A marker added to the entry of a module that has none of its kind is
    the one match afterwards, and freeing it gives the tree back. *)
Lemma new_then_free_module_child (sr_mods : sr_mods_t) (name : string) (c : sr_mod_child)
    (p : sr_mod_child -> bool) :
  existsb (is_module_named name) sr_mods = true ->
  module_children sr_mods name p = [] -> p c = true ->
  module_children (new_path_module_child sr_mods name c) name p = [c]
  /\ free_module_child (new_path_module_child sr_mods name c) name p = sr_mods.
Proof.
  intros Hex Hnone Hc. unfold new_path_module_child. rewrite Hex.
  unfold module_children, free_module_child in *.
  induction sr_mods as [|m l IH]; simpl in *; [discriminate |].
  destruct (is_module_named name m) eqn:En; simpl in *.
  - apply app_eq_nil in Hnone. destruct Hnone as [Hm Hl].
    assert (Ek : is_module_named name (with_child m (sm_child m ++ [c])) = true)
      by exact En.
    rewrite Ek. simpl. rewrite filter_app, Hm, Hl, existsb_app. simpl. rewrite Hc.
    rewrite orb_true_r. simpl. split; [reflexivity |].
    rewrite (remove_first_snoc p _ c Hm Hc).
    unfold with_child at 1. simpl. fold (with_child m (sm_child m)).
    now rewrite with_child_same.
  - rewrite En. simpl. destruct (IH Hex Hnone) as [E1 E2]. now rewrite E1, E2.
Qed.

Lemma installed_filter_absent (sr_mods : sr_mods_t) (name : string) :
  ~ In name (installed_names sr_mods) -> filter (is_installed_named name) sr_mods = [].
Proof.
  unfold installed_names. induction sr_mods as [|m l IH]; simpl; [reflexivity |].
  unfold is_installed_named at 1. destruct (is_installed_module m); simpl; [| exact IH].
  intros H. destruct (String.eqb_spec (sm_name m) name) as [E | N].
  - contradiction H. now left.
  - apply IH. intros Hin. apply H. now right.
Qed.

Section ScheduleProps.
Context {SE : SchemaEngine} {DS : Datastore SE}.

(** X19. With the registry loaded and no staged entry for the module:
    scheduling its installation writes the tree with one staged entry
    added at the end, which holds the revision, the requested features
    and the YANG text of the module; and unscheduling the installation on
    that tree writes the tree as it was before. *)
Theorem sched_install_unsched_round_trip (fs : files) (ctx : ly_ctx) (sr_mods : sr_mods_t)
    (ly_mod : lys_module) (features : list string) (yang_str : string) :
  sr_lydmods_parse fs ctx = Ok sr_mods ->
  ~ In (ly_name ly_mod) (installed_names sr_mods) ->
  lys_print_mem ly_mod = Some yang_str ->
  let staged :=
    sr_mods ++
    [{| sm_kind := k_installed_module; sm_name := ly_name ly_mod;
        sm_child := (match ly_revision ly_mod with Some r => [n_revision r] | None => [] end)
                    ++ map n_enabled_feature features ++ [n_module_yang yang_str] |}] in
  sr_lydmods_deferred_add_module fs ctx ly_mod features = sr_lydmods_print fs staged
  /\ forall fs', sr_lydmods_parse fs' ctx = Ok staged ->
       sr_lydmods_unsched_add_module fs' ctx (ly_name ly_mod) = sr_lydmods_print fs' sr_mods.
Proof.
  intros P Hn Hy staged.
  pose proof (proj1 (count_occ_not_In string_dec _ _) Hn) as Hc.
  split.
  - unfold sr_lydmods_deferred_add_module.
    apply (parse_change_print_ok fs ctx sr_mods); [exact P |].
    now rewrite find_installed_count, Hc, Hy.
  - intros fs' P'. unfold sr_lydmods_unsched_add_module.
    apply (parse_change_print_ok fs' ctx staged); [exact P' |].
    rewrite find_installed_count. unfold staged at 1, installed_names.
    rewrite filter_app, map_app, count_occ_app. fold (installed_names sr_mods).
    rewrite Hc. simpl. destruct (string_dec (ly_name ly_mod) (ly_name ly_mod));
      [| contradiction]. simpl. f_equal.
    unfold staged. apply remove_first_snoc.
    + now apply installed_filter_absent.
    + unfold is_installed_named. simpl. apply String.eqb_refl.
Qed.

(** X20. With the registry loaded, for a module that has a [module] entry
    and no update scheduled: scheduling the update writes the tree with
    the marker [updated-yang], holding the YANG text of the new module,
    added to that entry, and unscheduling the update on that tree writes
    the tree as it was before. Scheduling an update when one is scheduled
    fails with the exists kind, and unscheduling when none is scheduled
    fails with the not-found kind; neither writes the registry file. *)
Theorem sched_update_unsched_round_trip (fs : files) (ctx : ly_ctx) (sr_mods : sr_mods_t)
    (ly_upd_mod : lys_module) (yang_str : string) :
  sr_lydmods_parse fs ctx = Ok sr_mods ->
  lys_print_mem ly_upd_mod = Some yang_str ->
  (existsb (is_module_named (ly_name ly_upd_mod)) sr_mods = true ->
   module_children sr_mods (ly_name ly_upd_mod) is_updated_yang = [] ->
   let marked := new_path_module_child sr_mods (ly_name ly_upd_mod)
                   (n_updated_yang yang_str) in
   sr_lydmods_deferred_upd_module fs ctx ly_upd_mod = sr_lydmods_print fs marked
   /\ module_children marked (ly_name ly_upd_mod) is_updated_yang = [n_updated_yang yang_str]
   /\ forall fs', sr_lydmods_parse fs' ctx = Ok marked ->
        sr_lydmods_unsched_upd_module fs' ctx (ly_name ly_upd_mod)
        = sr_lydmods_print fs' sr_mods)
  /\ (length (module_children sr_mods (ly_name ly_upd_mod) is_updated_yang) = 1 ->
      sr_lydmods_deferred_upd_module fs ctx ly_upd_mod
      = (Err [(SR_ERR_EXISTS,
               "Module " ++ quoted (ly_name ly_upd_mod)
               ++ " already scheduled for an update.")%string], fs))
  /\ (module_children sr_mods (ly_name ly_upd_mod) is_updated_yang = [] ->
      sr_lydmods_unsched_upd_module fs ctx (ly_name ly_upd_mod)
      = (Err [(SR_ERR_NOT_FOUND,
               "Module " ++ quoted (ly_name ly_upd_mod)
               ++ " not scheduled for an update.")%string], fs)).
Proof.
  intros P Hy. split; [| split].
  - intros Hex Hnone marked.
    destruct (new_then_free_module_child sr_mods (ly_name ly_upd_mod)
                (n_updated_yang yang_str) is_updated_yang Hex Hnone eq_refl) as [E1 E2].
    split; [| split; [exact E1 |]].
    + unfold sr_lydmods_deferred_upd_module.
      apply (parse_change_print_ok fs ctx sr_mods); [exact P |].
      now rewrite Hnone, Hy.
    + intros fs' P'. unfold sr_lydmods_unsched_upd_module.
      apply (parse_change_print_ok fs' ctx marked); [exact P' |].
      fold marked in E1, E2. rewrite E1, E2. reflexivity.
  - intros H1. unfold sr_lydmods_deferred_upd_module.
    apply (parse_change_print_err fs ctx sr_mods); [exact P |]. now rewrite H1.
  - intros H0. unfold sr_lydmods_unsched_upd_module.
    apply (parse_change_print_err fs ctx sr_mods); [exact P |]. now rewrite H0.
Qed.

(** X21. With the registry loaded, for a module that has a [module] entry
    and a feature for which no change is scheduled and which is not in
    the requested state: scheduling the change writes the tree with one
    [changed-feature] marker added to that entry; and requesting the
    opposite change on that tree, whatever the state of the feature is
    said to be, withdraws the marker and writes the tree as it was
    before. *)
Theorem sched_feature_change_opposite_cancels (fs : files) (ctx : ly_ctx)
    (sr_mods : sr_mods_t) (ly_mod : lys_module) (feat_name : string) (to_enable : bool) :
  sr_lydmods_parse fs ctx = Ok sr_mods ->
  existsb (is_module_named (ly_name ly_mod)) sr_mods = true ->
  module_children sr_mods (ly_name ly_mod) (is_changed_feature_named feat_name) = [] ->
  let marked := new_path_module_child sr_mods (ly_name ly_mod)
                  (n_changed_feature feat_name (if to_enable then "enable" else "disable")) in
  sr_lydmods_deferred_change_feature fs ctx ly_mod feat_name to_enable (negb to_enable)
  = sr_lydmods_print fs marked
  /\ forall fs' is_enabled, sr_lydmods_parse fs' ctx = Ok marked ->
       sr_lydmods_deferred_change_feature fs' ctx ly_mod feat_name (negb to_enable)
         is_enabled
       = sr_lydmods_print fs' sr_mods.
Proof.
  intros P Hex Hnone marked.
  assert (Hp : is_changed_feature_named feat_name
                 (n_changed_feature feat_name (if to_enable then "enable" else "disable"))
               = true) by (simpl; apply String.eqb_refl).
  destruct (new_then_free_module_child sr_mods (ly_name ly_mod) _ _ Hex Hnone Hp)
    as [E1 E2].
  fold marked in E1, E2. split.
  - unfold sr_lydmods_deferred_change_feature.
    apply (parse_change_print_ok fs ctx sr_mods); [exact P |].
    rewrite Hnone. now destruct to_enable.
  - intros fs' is_enabled P'. unfold sr_lydmods_deferred_change_feature.
    apply (parse_change_print_ok fs' ctx marked); [exact P' |].
    rewrite E1, E2. now destruct to_enable.
Qed.

End ScheduleProps.

(** *** Unscheduling a deletion *)

Lemma unmarked_refl (m : sr_mod) : unmarked m m.
Proof. repeat split; auto. Qed.

Lemma unmarked_trans (a b c : sr_mod) : unmarked a b -> unmarked b c -> unmarked a c.
Proof.
  intros (K1 & F1 & L1) (K2 & F2 & L2). repeat split; try congruence. lia.
Qed.

Lemma module_children_nil (sr_mods : sr_mods_t) (name : string) (p : sr_mod_child -> bool) :
  module_children sr_mods name p = [] <->
  Forall (fun m => is_module_named name m = true -> filter p (sm_child m) = []) sr_mods.
Proof.
  unfold module_children. induction sr_mods as [|m l IH]; simpl.
  - split; [constructor | reflexivity].
  - split.
    + intros H. apply app_eq_nil in H. destruct H as [Hm Hl].
      constructor; [| now apply IH]. intros E. now rewrite E in Hm.
    + intros H. inversion H as [|? ? Hm Hl]; subst.
      rewrite (proj2 IH Hl), app_nil_r.
      destruct (is_module_named name m); [now apply Hm | reflexivity].
Qed.

Lemma unmarked_module_children (a b : sr_mods_t) (name : string) :
  Forall2 unmarked a b ->
  module_children a name is_removed = [] -> module_children b name is_removed = [].
Proof.
  intros H. rewrite !module_children_nil.
  induction H as [|m m' a b Hm _ IH]; intros Ha; [constructor |].
  inversion Ha as [|? ? Hma Hla]; subst. constructor; [| now apply IH].
  destruct Hm as (K & _ & L). intros E.
  assert (E' : is_module_named name m = true).
  { pose proof (f_equal fst K) as K1. pose proof (f_equal snd K) as K2.
    unfold entry_key in K1, K2. simpl in K1, K2.
    unfold is_module_named, is_module in *. now rewrite <- K1, <- K2. }
  rewrite (Hma E') in L. simpl in L.
  destruct (filter is_removed (sm_child m')); [reflexivity | simpl in L; lia].
Qed.

Lemma free_removed_unmarked (sr_mods : sr_mods_t) (name : string) :
  Forall2 unmarked sr_mods (free_module_child sr_mods name is_removed).
Proof.
  unfold free_module_child. induction sr_mods as [|m l IH]; simpl; [constructor |].
  destruct (is_module_named name m && existsb is_removed (sm_child m)).
  - constructor; [| apply Forall2_same, unmarked_refl].
    destruct (filter_remove_first is_removed (sm_child m)) as [E1 E2].
    split; [reflexivity |]. simpl. rewrite E1, E2. split; [reflexivity |].
    destruct (filter is_removed (sm_child m)); simpl; lia.
  - constructor; [apply unmarked_refl | exact IH].
Qed.

Lemma free_removed_cleared (sr_mods : sr_mods_t) (name : string) :
  length (module_children sr_mods name is_removed) = 1 ->
  module_children (free_module_child sr_mods name is_removed) name is_removed = [].
Proof.
  unfold free_module_child, module_children.
  induction sr_mods as [|m l IH]; simpl; [discriminate |].
  destruct (is_module_named name m) eqn:En; simpl.
  - destruct (existsb is_removed (sm_child m)) eqn:Ex; simpl.
    + assert (Ek : is_module_named name
                     (with_child m (remove_first is_removed (sm_child m))) = true)
        by exact En.
      rewrite Ek. simpl. rewrite (proj1 (filter_remove_first is_removed (sm_child m))).
      rewrite length_app. intros H.
      destruct (filter is_removed (sm_child m)) as [|c cs] eqn:Ef.
      { now rewrite (existsb_filter_nil _ _ Ef) in Ex. }
      simpl in H. assert (cs = []) by (destruct cs; [reflexivity | simpl in H; lia]).
      subst cs. simpl in *.
      destruct (flat_map _ l); [reflexivity | simpl in H; lia].
    + rewrite En. intros H.
      assert (Ef : filter is_removed (sm_child m) = []).
      { clear - Ex. induction (sm_child m) as [|c cs IHc]; simpl in *; [reflexivity |].
        destruct (is_removed c); [discriminate | auto]. }
      rewrite Ef in *. simpl in *. now apply IH.
  - rewrite En. simpl. exact IH.
Qed.

Lemma unsched_del_module_clears (ly_mod : lys_module) :
  forall sr_mods first sr_mods',
    sr_lydmods_unsched_del_module_r sr_mods ly_mod first = Ok sr_mods' ->
    Forall2 unmarked sr_mods sr_mods'
    /\ forall m', implemented_imports_rec ly_mod m' ->
                  module_children sr_mods' (ly_name m') is_removed = [].
Proof.
  induction ly_mod as [hdr feats data rpcs notifs imports includes IHi _]
    using lys_module_forall_ind.
  intros sr_mods first sr_mods' H. simpl in H. bind_as H sr_mods1 H1.
  assert (Hown : Forall2 unmarked sr_mods sr_mods1
                 /\ module_children sr_mods1 (mod_name hdr) is_removed = []).
  { destruct (Nat.eqb_spec (length (module_children sr_mods (mod_name hdr) is_removed)) 0)
      as [E0 | N0].
    - destruct first; [discriminate |]. inversion H1; subst.
      split; [apply Forall2_same, unmarked_refl |].
      now destruct (module_children sr_mods1 (mod_name hdr) is_removed).
    - bind_inv H1. apply assert_ok, Nat.eqb_eq in Hx. inversion H1; subst.
      split; [apply free_removed_unmarked | now apply free_removed_cleared]. }
  destruct Hown as [U1 C1].
  assert (Hloop : Forall2 unmarked sr_mods1 sr_mods'
                  /\ forall i, In i imports -> ly_implemented i = true ->
                       forall m', implemented_imports_rec i m' ->
                                  module_children sr_mods' (ly_name m') is_removed = []).
  { clear - H IHi. revert sr_mods1 H.
    induction IHi as [|i l Hi _ IH]; intros mods H.
    - inversion H; subst. split; [apply Forall2_same, unmarked_refl | intros i []].
    - destruct (ly_implemented i) eqn:Ei.
      + bind_as H mods1 H1. destruct (Hi _ _ _ H1) as [Ua Ca].
        destruct (IH _ H) as [Ub Cb].
        split; [eapply Forall2_compose; [apply unmarked_trans | exact Ua | exact Ub] |].
        intros j [<- | Hj] Kj m' R; [| now apply (Cb j)].
        eapply unmarked_module_children; [exact Ub | now apply Ca].
      + destruct (IH _ H) as [Ub Cb]. split; [exact Ub |].
        intros j [<- | Hj] Kj m' R; [congruence | now apply (Cb j)]. }
  destruct Hloop as [U2 C2].
  split; [eapply Forall2_compose; [apply unmarked_trans | exact U1 | exact U2] |].
  intros m' R. inversion R as [m0 | m0 i m1 Hi Ki Ri]; subst.
  - eapply unmarked_module_children; [exact U2 | exact C1].
  - simpl in Hi. exact (C2 i Hi Ki m' Ri).
Qed.

(** X22. Unscheduling the deletion of a module fails with the not-found
    kind when the module itself has no [removed] marker. When it
    succeeds, the module has no [removed] marker left, and neither has
    any module reached from it through implemented imports; the tree
    keeps its entries with their kinds, names and every child that is not
    a [removed] marker. *)
Theorem unsched_del_module_clears_markers (sr_mods : sr_mods_t) (ly_mod : lys_module) :
  (module_children sr_mods (ly_name ly_mod) is_removed = [] ->
   sr_lydmods_unsched_del_module_r sr_mods ly_mod true
   = Err [(SR_ERR_NOT_FOUND,
           "Module " ++ quoted (ly_name ly_mod) ++ " not scheduled for deletion.")%string])
  /\ (forall first sr_mods',
        sr_lydmods_unsched_del_module_r sr_mods ly_mod first = Ok sr_mods' ->
        (forall m', implemented_imports_rec ly_mod m' ->
                    module_children sr_mods' (ly_name m') is_removed = [])
        /\ Forall2 (fun m m' =>
                      entry_key m' = entry_key m
                      /\ filter (fun c => negb (is_removed c)) (sm_child m')
                         = filter (fun c => negb (is_removed c)) (sm_child m))
             sr_mods sr_mods').
Proof.
  split.
  - intros H. destruct ly_mod as [hdr feats data rpcs notifs imports includes].
    unfold ly_name in *. simpl in *. rewrite H. reflexivity.
  - intros first sr_mods' H. destruct (unsched_del_module_clears _ _ _ _ H) as [U C].
    split; [exact C |]. eapply Forall2_impl; [| exact U].
    intros a b (K & F & _). auto.
Qed.


Lemma sched_install_unsched_round_trip_witness :
  let sr_mods := [Toy.module_entry "a" []] in
  let staged := sr_mods ++ [Toy.installed_entry "b" [n_enabled_feature "f";
                                                     n_module_yang "b"]] in
  let fs := {| Toy.f_startup := []; Toy.f_running := []; Toy.f_yang := [];
               Toy.f_registry := Some sr_mods |} in
  @sr_lydmods_deferred_add_module Toy.SE_ab Toy.DS_ab fs [] Toy.mod_b ["f"]
  = @sr_lydmods_print Toy.SE_ab Toy.DS_ab fs staged
  /\ forall fs', @sr_lydmods_parse Toy.SE_ab Toy.DS_ab fs' [] = Ok staged ->
       @sr_lydmods_unsched_add_module Toy.SE_ab Toy.DS_ab fs' [] "b"
       = @sr_lydmods_print Toy.SE_ab Toy.DS_ab fs' sr_mods.
Proof.
  intros sr_mods staged fs.
  apply (@sched_install_unsched_round_trip Toy.SE_ab Toy.DS_ab fs [] sr_mods Toy.mod_b
           ["f"] "b"); [reflexivity | | reflexivity].
  simpl. intros [].
Defined.

Lemma sched_update_unsched_round_trip_witness :
  let sr_mods := [Toy.module_entry "b" [n_revision "r"]] in
  let marked := [Toy.module_entry "b" [n_revision "r"; n_updated_yang "b"]] in
  let fs := {| Toy.f_startup := []; Toy.f_running := []; Toy.f_yang := [];
               Toy.f_registry := Some sr_mods |} in
  let fs' := {| Toy.f_startup := []; Toy.f_running := []; Toy.f_yang := [];
                Toy.f_registry := Some marked |} in
  @sr_lydmods_deferred_upd_module Toy.SE_ab Toy.DS_ab fs [] Toy.mod_b
  = @sr_lydmods_print Toy.SE_ab Toy.DS_ab fs marked
  /\ @sr_lydmods_unsched_upd_module Toy.SE_ab Toy.DS_ab fs' [] "b"
     = @sr_lydmods_print Toy.SE_ab Toy.DS_ab fs' sr_mods
  /\ fst (@sr_lydmods_deferred_upd_module Toy.SE_ab Toy.DS_ab fs' [] Toy.mod_b)
     = Err [(SR_ERR_EXISTS,
             "Module " ++ quoted "b" ++ " already scheduled for an update.")%string]
  /\ fst (@sr_lydmods_unsched_upd_module Toy.SE_ab Toy.DS_ab fs [] "b")
     = Err [(SR_ERR_NOT_FOUND,
             "Module " ++ quoted "b" ++ " not scheduled for an update.")%string].
Proof.
  intros sr_mods marked fs fs'.
  destruct (@sched_update_unsched_round_trip Toy.SE_ab Toy.DS_ab fs [] sr_mods Toy.mod_b
              "b" eq_refl eq_refl) as (A & _ & C).
  destruct (A eq_refl eq_refl) as (A1 & _ & A3).
  destruct (@sched_update_unsched_round_trip Toy.SE_ab Toy.DS_ab fs' [] marked Toy.mod_b
              "b" eq_refl eq_refl) as (_ & B & _).
  split; [exact A1 |]. split; [exact (A3 fs' eq_refl) |].
  split; [exact (f_equal fst (B eq_refl)) | exact (f_equal fst (C eq_refl))].
Defined.

Lemma sched_feature_change_opposite_cancels_witness :
  let sr_mods := [Toy.module_entry "b" [n_revision "r"]] in
  let marked := [Toy.module_entry "b" [n_revision "r"; n_changed_feature "f" "enable"]] in
  let fs := {| Toy.f_startup := []; Toy.f_running := []; Toy.f_yang := [];
               Toy.f_registry := Some sr_mods |} in
  @sr_lydmods_deferred_change_feature Toy.SE_ab Toy.DS_ab fs [] Toy.mod_b "f" true false
  = @sr_lydmods_print Toy.SE_ab Toy.DS_ab fs marked
  /\ forall fs' is_enabled,
       @sr_lydmods_parse Toy.SE_ab Toy.DS_ab fs' [] = Ok marked ->
       @sr_lydmods_deferred_change_feature Toy.SE_ab Toy.DS_ab fs' [] Toy.mod_b "f" false
         is_enabled
       = @sr_lydmods_print Toy.SE_ab Toy.DS_ab fs' sr_mods.
Proof.
  intros sr_mods marked fs.
  apply (@sched_feature_change_opposite_cancels Toy.SE_ab Toy.DS_ab fs [] sr_mods Toy.mod_b
           "f" true); reflexivity.
Defined.

Lemma unsched_del_module_clears_markers_witness :
  let sr_mods := [Toy.module_entry "a" [n_revision "r"; n_removed];
                  Toy.module_entry "b" [n_removed]] in
  sr_lydmods_unsched_del_module_r sr_mods Toy.mod_a true
  = Ok [Toy.module_entry "a" [n_revision "r"]; Toy.module_entry "b" []]
  /\ module_children [Toy.module_entry "a" [n_revision "r"]; Toy.module_entry "b" []]
       "b" is_removed = [].
Proof.
  intros sr_mods.
  assert (E : sr_lydmods_unsched_del_module_r sr_mods Toy.mod_a true
              = Ok [Toy.module_entry "a" [n_revision "r"]; Toy.module_entry "b" []])
    by reflexivity.
  split; [exact E |].
  apply (proj1 (proj2 (unsched_del_module_clears_markers sr_mods Toy.mod_a) true _ E)
           Toy.mod_b).
  apply (implemented_import Toy.mod_a Toy.mod_b);
    [left; reflexivity | reflexivity | apply implemented_self].
Defined.

(** ** Props: a failed apply says why *)

Lemma warned_refl (fl : bool * sr_log) : warned fl fl.
Proof.
  split; [auto |]. exists []. rewrite app_nil_r. split; [reflexivity | congruence].
Qed.

Lemma warned_trans (a b c : bool * sr_log) : warned a b -> warned b c -> warned a c.
Proof.
  intros [F1 (t1 & L1 & W1)] [F2 (t2 & L2 & W2)]. split; [auto |].
  exists (t1 ++ t2). rewrite L2, L1, app_assoc. split; [reflexivity |].
  intros Fa Fc. rewrite existsb_app. apply orb_true_iff.
  destruct (fst b) eqn:Fb; [left; now apply W1 | right; now apply W2].
Qed.

Section Phases.
Context {SE : SchemaEngine} {DS : Datastore SE}.

Lemma phase_step_refl (st : apply_st) : phase_step st st.
Proof. split; [auto | apply warned_refl]. Qed.

Lemma phase_step_trans (a b c : apply_st) : phase_step a b -> phase_step b c -> phase_step a c.
Proof.
  intros [C1 W1] [C2 W2]. split; [auto | eapply warned_trans; eassumption].
Qed.

Lemma check_all_deps_warned (ctx : ly_ctx) (ly_mod : lys_module) (sr_mods : sr_mods_t)
    (fail : bool) (log : sr_log) (fl : bool * sr_log) :
  sr_lydmods_check_all_deps ctx ly_mod sr_mods fail log = Ok fl -> warned (fail, log) fl.
Proof.
  intros H.
  destruct (module_dep_mods ctx ly_mod) as [dm| |] eqn:Edm;
    try (rewrite check_all_deps_unfold, Edm in H; discriminate).
  destruct (check_all_deps_outcome ctx ly_mod sr_mods fail log dm fl Edm H)
    as [Hf (t & Ht & Hw & Hl)].
  unfold warned. simpl. split; [intros ->; now rewrite Hf |].
  exists t. split; [exact Ht |]. intros -> Hfl. rewrite Hf in Hfl. simpl in Hfl.
  destruct t as [|e t]; simpl in *.
  - destruct (filter (missing_dependency sr_mods) dm) as [|d l] eqn:Ef; [| discriminate].
    rewrite (existsb_filter_nil _ _ Ef) in Hfl. discriminate.
  - apply andb_true_iff in Hw. destruct Hw as [-> _]. reflexivity.
Qed.

Lemma check_importers_warned (ctx : ly_ctx) (ly_mod : lys_module) (sr_mods : sr_mods_t)
    (mods : list lys_module) :
  forall fail log fl,
    check_importers ctx ly_mod sr_mods mods fail log = Ok fl -> warned (fail, log) fl.
Proof.
  induction mods as [|m mods IH]; intros fail log fl H; simpl in H.
  - inversion H; subst. apply warned_refl.
  - destruct (mod_eqb (ly_hdr m) (ly_hdr ly_mod) || negb (ly_implemented m));
      [now apply IH |].
    destruct (negb (existsb _ (ly_imports m))); [now apply IH |].
    bind_as H fl1 H1. apply check_all_deps_warned in H1.
    destruct (fst fl1) eqn:F1.
    + inversion H; subst. exact H1.
    + apply IH in H. eapply warned_trans; [exact H1 |].
      destruct fl1 as [f1 l1]. simpl in *. subst f1. exact H.
Qed.

Lemma update_modules_loop_step (sr_mods : sr_mods_t) (set : list (sr_mod * string)) :
  forall st st', update_modules_loop sr_mods set st = Ok st' -> phase_step st st'.
Proof.
  induction set as [|[m yang] set IH]; intros st st' H; simpl in H.
  - inversion H; subst. apply phase_step_refl.
  - destruct (lys_parse_mem (st_ctx st) yang) as [[ctx1 ly_mod]|]; [| discriminate].
    destruct (enable_features ctx1 ly_mod _) as [[ctx2 ly_mod2]|]; [| discriminate].
    bind_as H fl H1. apply check_all_deps_warned in H1.
    destruct (fst fl) eqn:F.
    + inversion H; subst. split; [auto |]. simpl.
        destruct fl as [f l0]. simpl in *. subst f. exact H1.
    + apply IH in H. eapply phase_step_trans; [| exact H].
      split; [auto |]. simpl. destruct fl as [f l0]. simpl in *. subst f. exact H1.
Qed.

Lemma install_modules_loop_step (sr_mods : sr_mods_t) (set : list string) :
  forall st st', install_modules_loop sr_mods set st = Ok st' -> phase_step st st'.
Proof.
  induction set as [|yang set IH]; intros st st' H; simpl in H.
  - inversion H; subst. apply phase_step_refl.
  - destruct (lys_parse_mem (st_ctx st) yang) as [[ctx1 ly_mod]|].
    + bind_as H fl H1. apply check_all_deps_warned in H1.
      destruct (fst fl) eqn:F.
      * inversion H; subst. split; [auto |]. simpl.
        destruct fl as [f l0]. simpl in *. subst f. exact H1.
      * apply IH in H. eapply phase_step_trans; [| exact H].
        split; [auto |]. simpl. destruct fl as [f l0]. simpl in *. subst f. exact H1.
    + inversion H; subst. split; [auto |]. simpl. split; [auto |].
      eexists. split; [reflexivity |]. reflexivity.
Qed.

Lemma change_features_loop_step (sr_mods l : sr_mods_t) :
  forall st st', change_features_loop sr_mods l st = Ok st' -> phase_step st st'.
Proof.
  induction l as [|m l IH]; intros st st' H; simpl in H.
  - inversion H; subst. apply phase_step_refl.
  - destruct (changed_features (sm_child m)) as [|cf cfs]; [now apply IH |].
    destruct (ly_ctx_get_module_implemented (st_ctx st) (sm_name m)) as [ly_mod|].
    + bind_as H r Hr. bind_as H fl H1. apply check_all_deps_warned in H1.
      destruct (fst fl) eqn:F.
      * inversion H; subst. split; [auto |]. simpl.
        destruct fl as [f l0]. simpl in *. subst f. exact H1.
      * bind_as H fl2 H2. apply check_importers_warned in H2.
        assert (W : warned (st_fail st, st_log st) fl2).
        { eapply warned_trans; [exact H1 |].
          destruct fl as [f l0]. simpl in *. subst f. exact H2. }
        destruct (fst fl2) eqn:F2.
        -- inversion H; subst. split; [auto |]. simpl.
           destruct fl2 as [f2 l2]. simpl in *. subst f2. exact W.
        -- apply IH in H. eapply phase_step_trans; [| exact H].
           split; [auto |]. simpl. destruct fl2 as [f2 l2]. simpl in *. subst f2. exact W.
    + bind_inv H. clear Hx. apply IH in H. eapply phase_step_trans; [| exact H].
      split; [auto |]. unfold warned. simpl. split; [auto |].
      eexists. split; [reflexivity |]. intros A B. rewrite A in B. discriminate.
Qed.

Lemma sched_create_new_ctx_step (sr_mods : sr_mods_t) (new_ctx : ly_ctx) (st4 : apply_st) :
  sched_create_new_ctx sr_mods new_ctx = Ok st4 ->
  phase_step {| st_ctx := new_ctx; st_change := false; st_fail := false;
                st_log := [(SR_LL_INF, "Applying scheduled changes.")] |} st4.
Proof.
  unfold sched_create_new_ctx. intros H. bind_as H st1 H1.
  apply update_modules_loop_step in H1.
  destruct (st_fail st1) eqn:F1; [inversion H; subst; exact H1 |].
  bind_as H ld Hld. bind_as H st3 H3. apply change_features_loop_step in H3.
  assert (S2 : phase_step st1
                 {| st_ctx := fst ld;
                    st_change := match snd ld with Some c => c | None => st_change st1 end;
                    st_fail := st_fail st1; st_log := st_log st1 |}).
  { split; [| apply warned_refl]. simpl. intros C.
    rewrite ctx_load_modules_spec in Hld. bind_as Hld c1 Hc. inversion Hld; subst. simpl.
    now rewrite C. }
  rewrite F1 in S2.
  pose proof (phase_step_trans _ _ _ (phase_step_trans _ _ _ H1 S2) H3) as S3.
  destruct (st_fail st3); [inversion H; subst; exact S3 |].
  apply install_modules_loop_step in H. eapply phase_step_trans; eassumption.
Qed.

(** X23. An apply that returns with [fail] set has logged, between its
    first message and the final warning that the changes stay scheduled,
    at least one warning: the reason of the failure. *)
Theorem sched_apply_failure_is_explained (sr_mods : sr_mods_t) (new_ctx : ly_ctx)
    (fs : files) (r : apply_result) :
  sr_lydmods_sched_apply sr_mods new_ctx fs = Ok r ->
  r_fail r = true ->
  exists t,
    r_log r = (SR_LL_INF, "Applying scheduled changes.") :: t ++ [apply_warning]
    /\ existsb is_wrn t = true.
Proof.
  assert (Hc : forall mods fs0 st r0 t,
             apply_cleanup mods fs0 st = Ok r0 -> r_fail r0 = true ->
             st_log st = (SR_LL_INF, "Applying scheduled changes.") :: t ->
             existsb is_wrn t = true ->
             exists t, r_log r0 = (SR_LL_INF, "Applying scheduled changes.")
                                  :: t ++ [apply_warning]
                       /\ existsb is_wrn t = true).
  { intros mods fs0 st r0 t H F L W. unfold apply_cleanup in H.
    destruct (st_fail st) eqn:Fs; [| destruct (st_change st)];
      inversion H; subst; simpl in *; try congruence.
    exists t. rewrite L. auto. }
  unfold sr_lydmods_sched_apply. intros H F. bind_as H st4 H4.
  apply sched_create_new_ctx_step in H4. destruct H4 as [_ [_ (t4 & L4 & W4)]].
  simpl in L4, W4.
  destruct (st_fail st4) eqn:F4; [exact (Hc _ _ _ _ t4 H F L4 (W4 eq_refl eq_refl)) |].
  destruct (st_change st4) eqn:C4.
  2:{ unfold apply_cleanup in H. rewrite F4, C4 in H. inversion H; subst.
      simpl in F. congruence. }
  bind_as H st5 H5.
  destruct (check_removed_modules_spec sr_mods st4) as (st5' & E5 & _ & _ & M5).
  rewrite H5 in E5. inversion E5; subst st5'; clear E5.
  destruct (st_fail st5) eqn:F5.
  { destruct (find _ (removed_set sr_mods)) as [m|]; [| destruct M5; congruence].
    destruct M5 as [_ L5]. rewrite L4 in L5. simpl in L5.
    apply (Hc _ _ _ _ _ H F L5). rewrite existsb_app. simpl. apply orb_true_r. }
  assert (L5 : st_log st5 = (SR_LL_INF, "Applying scheduled changes.") :: t4).
  { destruct (find _ (removed_set sr_mods)); destruct M5 as [M5f M5l]; [congruence |].
    now rewrite M5l. }
  bind_as H ud H6. destruct ud as [fs' st6]. simpl in H.
  pose proof (update_data_ok _ _ _ _ _ H6) as U.
  destruct (st_fail st6) eqn:F6.
  { destruct U as [[_ ->] | ->]; [| congruence].
    apply (Hc _ _ _ _ (t4 ++ [(SR_LL_WRN, "libyang error")]) H F).
    - simpl. now rewrite L5.
    - rewrite existsb_app. simpl. apply orb_true_r. }
  bind_as H c Hcm. bind_as H sr_mods' Hr. unfold apply_cleanup in H. simpl in H.
  assert (C6 : st_change st6 = true).
  { unfold sr_lydmods_sched_check_removed_modules in H5. inversion H5; subst st5.
    destruct U as [[_ ->] | ->]; simpl; exact C4. }
  rewrite ?F6, C6 in H. inversion H; subst. simpl in F. congruence.
Qed.

End Phases.

Lemma sched_apply_failure_is_explained_witness :
  let sr_mods := [Toy.module_entry "a" []; Toy.module_entry "b" [n_removed]] in
  exists r t,
    @sr_lydmods_sched_apply Toy.SE_ab Toy.DS_ab sr_mods [] Toy.no_files = Ok r
    /\ r_log r = (SR_LL_INF, "Applying scheduled changes.") :: t ++ [apply_warning]
    /\ existsb is_wrn t = true.
Proof.
  intros sr_mods.
  destruct (@sr_lydmods_sched_apply Toy.SE_ab Toy.DS_ab sr_mods [] Toy.no_files)
    as [r| |] eqn:E; try (vm_compute in E; discriminate).
  assert (F : r_fail r = true) by (vm_compute in E; inversion E; reflexivity).
  destruct (@sched_apply_failure_is_explained Toy.SE_ab Toy.DS_ab sr_mods [] Toy.no_files
              r E F) as (t & L & W).
  exists r, t. auto.
Defined.

(** ** Props: what a committed apply leaves *)

Lemma nth_error_app_length {A : Type} (a : list A) (x : A) (b : list A) :
  nth_error (a ++ x :: b) (length a) = Some x.
Proof. induction a as [|y a IH]; simpl; auto. Qed.

Lemma remove_nth_app_length {A : Type} (a : list A) (x : A) (b : list A) :
  remove_nth (length a) (a ++ x :: b) = a ++ b.
Proof. induction a as [|y a IH]; simpl; [reflexivity | now rewrite IH]. Qed.

Lemma fresh_entries_modules (l : sr_mods_t) :
  forallb fresh_entry l = true -> forallb is_module l = true.
Proof.
  induction l as [|e l IH]; simpl; [reflexivity |].
  intros H. apply andb_true_iff in H. destruct H as [He Hl].
  unfold fresh_entry in He. apply andb_true_iff in He. destruct He as [-> _]. auto.
Qed.

Lemma has_deps_app (a b : list sr_mod_child) : has_deps (a ++ b) = has_deps a || has_deps b.
Proof. unfold has_deps. apply existsb_app. Qed.

Section Commit.
Context {SE : SchemaEngine} {DS : Datastore SE}.

Lemma commit_inv_removed (n i : nat) (done todo added : sr_mods_t) :
  length done = i -> length todo = n ->
  forallb is_module done = true -> forallb is_module added = true ->
  forall l, forallb is_module l = true ->
            commit_inv n i ((done ++ todo ++ added) ++ l).
Proof.
  intros Ld Lt Fd Fa l Fl. exists done, todo, (added ++ l).
  rewrite <- !app_assoc, forallb_app, Fa, Fl. auto.
Qed.

Lemma commit_inv_done (n i : nat) (done todo added : sr_mods_t) (x : sr_mod) :
  length done = i -> length todo = n ->
  forallb is_module done = true -> forallb is_module added = true ->
  is_module x = true ->
  commit_inv n (S i) (done ++ x :: todo ++ added).
Proof.
  intros Ld Lt Fd Fa Fx. exists (done ++ [x]), todo, added.
  rewrite <- app_assoc, length_app, forallb_app, Fd, Fa. simpl. rewrite Fx.
  repeat split; auto. lia.
Qed.

Lemma commit_loop_modules (new_ctx : ly_ctx) (n : nat) :
  forall i st c,
    commit_loop new_ctx n i st = Ok c -> commit_inv n i (c_mods st) ->
    forallb is_module (c_mods c) = true.
Proof.
  induction n as [|n IH]; intros i st c H (done & todo & added & E & Ld & Lt & Fd & Fa).
  - simpl in H. inversion H; subst. destruct todo; [| discriminate].
    rewrite E. simpl. now rewrite forallb_app, Fd, Fa.
  - destruct todo as [|x todo]; [discriminate |]. simpl in Lt. inversion Lt as [Lt'].
    simpl in H. rewrite E in H. subst i. simpl in H.
    rewrite nth_error_app_length in H.
    destruct (is_module x) eqn:Kx.
    + destruct (scan_children (sm_child x)) as [marker children] eqn:Es.
      rewrite !update_nth_app_length in H.
      assert (Kx' : is_module (with_child x children) = true) by exact Kx.
      destruct marker.
      * bind_as H st2 H2. unfold sr_lydmods_sched_finalize_module_remove in H2.
        bind_as H2 fs1 Hf1. bind_as H2 fs2 Hf2. inversion H2; subst st2; clear H2.
        simpl in H. rewrite remove_nth_app_length in H.
        apply IH in H; [exact H |]. simpl.
        exists done, todo, added. auto.
      * bind_as H st2 H2. unfold sr_lydmods_sched_finalize_module_update in H2.
        destruct (ly_ctx_get_module_implemented new_ctx _) as [ly_mod|]; [| discriminate].
        bind_as H2 st1 H1. bind_as H2 st3 H3. inversion H2; subst st2; clear H2.
        unfold sr_lydmods_sched_finalize_module_remove in H1.
        bind_as H1 fs1 Hf1. bind_as H1 fs2 Hf2. inversion H1; subst st1; clear H1.
        apply add_module_with_imps_installs in H3.
        destruct H3 as [((l & El & Fl) & _) _]. simpl in El.
        rewrite remove_nth_app_length in El.
        apply IH in H; [exact H |]. simpl. rewrite El.
        apply (commit_inv_removed n (length done) done todo added); auto.
        now apply fresh_entries_modules.
      * bind_as H r Hr.
        assert (Kr : is_module (fst r) = true).
        { unfold sr_lydmods_sched_finalize_module_change_features in Hr.
          destruct (ly_ctx_get_module_implemented new_ctx _); [| discriminate].
          bind_as Hr r0 Hr0. inversion Hr; subst. exact Kx. }
        simpl in H. rewrite update_nth_app_length in H.
        apply IH in H; [exact H |]. simpl.
        apply (commit_inv_done n (length done) done todo added); auto.
      * apply IH in H; [exact H |]. simpl.
        apply (commit_inv_done n (length done) done todo added); auto.
    + bind_as H st1 H1. unfold sr_lydmods_sched_finalize_module_install in H1.
      rewrite E in H1. bind_as H1 dep_of Hd. simpl in H1.
      rewrite remove_nth_app_length in H1.
      destruct dep_of as [by_mod|].
      * inversion H1; subst st1; clear H1.
        apply IH in H; [exact H |]. simpl. exists done, todo, added. auto.
      * destruct (ly_ctx_get_module_implemented new_ctx (sm_name x)) as [ly_mod|];
          [| discriminate].
        apply add_module_with_imps_installs in H1.
        destruct H1 as [((l & El & Fl) & _) _]. simpl in El.
        apply IH in H; [exact H |]. rewrite El.
        apply (commit_inv_removed n (length done) done todo added); auto.
        now apply fresh_entries_modules.
Qed.

Lemma gains_inverse_module_deps (name : string) (a b : sr_mod) :
  gains_inverse name a b ->
  is_module b = is_module a
  /\ (has_deps (sm_child a) = true -> has_deps (sm_child b) = true).
Proof.
  intros (K & _ & C). split; [unfold is_module; now rewrite K |].
  destruct C as [-> | [_ ->]]; [auto |]. intros H. now rewrite has_deps_app, H.
Qed.

Lemma rebuild_deps_loop_all (new_ctx : ly_ctx) (n : nat) :
  forall i sr_mods sr_mods',
    rebuild_deps_loop new_ctx n i sr_mods = Ok sr_mods' ->
    length sr_mods <= n + i ->
    forallb is_module sr_mods = true ->
    (forall j e, j < i -> nth_error sr_mods j = Some e -> has_deps (sm_child e) = true) ->
    forallb (fun m => is_module m && has_deps (sm_child m)) sr_mods' = true.
Proof.
  assert (Hall : forall i (l : sr_mods_t),
             length l <= i -> forallb is_module l = true ->
             (forall j e, j < i -> nth_error l j = Some e -> has_deps (sm_child e) = true) ->
             forallb (fun m => is_module m && has_deps (sm_child m)) l = true).
  { intros i l Hl Hm Hd. apply forallb_forall. intros e He.
    apply In_nth_error in He. destruct He as [j Hj].
    rewrite forallb_forall in Hm. rewrite (Hm e (nth_error_In _ _ Hj)). simpl.
    apply (Hd j); [| exact Hj].
    assert (j < length l) by (apply nth_error_Some; congruence). lia. }
  induction n as [|n IH]; intros i sr_mods sr_mods' H Hlen Hm Hd; simpl in H.
  - inversion H; subst. now apply (Hall i).
  - destruct (nth_error sr_mods i) as [m|] eqn:En.
    2:{ inversion H; subst. apply nth_error_None in En. now apply (Hall i). }
    destruct (ly_ctx_get_module_implemented new_ctx (sm_name m)) as [ly_mod|];
      [| discriminate].
    bind_as H mods1 H1. apply add_all_deps_inv in H1.
    destruct H1 as (m0 & d & ops & En0 & _ & _ & G & _).
    rewrite En in En0. inversion En0; subst m0; clear En0.
    set (mods0 := update_nth i (fun m => with_child m (sm_child m ++ n_data_deps d :: ops))
                    sr_mods) in *.
    assert (L0 : length mods0 = length sr_mods).
    { unfold mods0. clear. revert i. induction sr_mods as [|a l IHl]; intros [|i]; simpl; auto. }
    assert (L1 : length mods1 = length sr_mods).
    { rewrite <- L0. symmetry. eapply Forall2_length. exact G. }
    apply IH in H; [exact H | lia | |].
    + apply forallb_forall. intros e He. apply In_nth_error in He. destruct He as [j Hj].
      assert (Hj0 : exists e0, nth_error mods0 j = Some e0 /\ gains_inverse (sm_name m) e0 e).
      { clear - G Hj. revert j Hj. induction G as [|u v a b Huv _ IHG]; intros [|j] Hj;
          simpl in *; try discriminate.
        - inversion Hj; subst. eauto.
        - now apply IHG. }
      destruct Hj0 as (e0 & Hj0 & Ge). apply gains_inverse_module_deps in Ge.
      destruct Ge as [-> _]. rewrite forallb_forall in Hm.
      destruct (Nat.eq_dec j i) as [-> | Nji].
      * unfold mods0 in Hj0. rewrite (nth_error_update_nth _ _ _ _ En) in Hj0.
        inversion Hj0; subst. apply (Hm m). eapply nth_error_In; eassumption.
      * assert (Hsame : nth_error mods0 j = nth_error sr_mods j).
        { unfold mods0. clear - Nji. revert i j Nji.
          induction sr_mods as [|a l IHl]; intros [|i] [|j] N; simpl; auto;
            try contradiction. }
        rewrite Hsame in Hj0. apply (Hm e0). eapply nth_error_In; eassumption.
    + intros j e Hlt Hj.
      assert (Hj0 : exists e0, nth_error mods0 j = Some e0 /\ gains_inverse (sm_name m) e0 e).
      { clear - G Hj. revert j Hj. induction G as [|u v a b Huv _ IHG]; intros [|j] Hj;
          simpl in *; try discriminate.
        - inversion Hj; subst. eauto.
        - now apply IHG. }
      destruct Hj0 as (e0 & Hj0 & Ge). apply gains_inverse_module_deps in Ge.
      destruct Ge as [_ Hdep]. apply Hdep.
      destruct (Nat.eq_dec j i) as [-> | Nji].
      * unfold mods0 in Hj0. rewrite (nth_error_update_nth _ _ _ _ En) in Hj0.
        inversion Hj0; subst. simpl. rewrite has_deps_app. simpl. apply orb_true_r.
      * assert (Hsame : nth_error mods0 j = nth_error sr_mods j).
        { unfold mods0. clear - Nji. revert i j Nji.
          induction sr_mods as [|a l IHl]; intros [|i] [|j] N; simpl; auto;
            try contradiction. }
        rewrite Hsame in Hj0. apply (Hd j); [lia | exact Hj0].
Qed.

(** X24. After an apply that reports a change, the registry tree holds no
    staged entry: every entry is a [module] entry, and every one has its
    dependencies stored. *)
Theorem sched_apply_commits_all_entries (sr_mods : sr_mods_t) (new_ctx : ly_ctx)
    (fs : files) (r : apply_result) :
  sr_lydmods_sched_apply sr_mods new_ctx fs = Ok r ->
  r_change r = true ->
  forallb (fun m => is_module m && has_deps (sm_child m)) (r_mods r) = true.
Proof.
  assert (Hc : forall mods fs0 st r0,
             apply_cleanup mods fs0 st = Ok r0 ->
             r_mods r0 = mods /\ r_change r0 = negb (st_fail st) && st_change st).
  { intros mods fs0 st r0 H. unfold apply_cleanup in H.
    destruct (st_fail st) eqn:F; [| destruct (st_change st) eqn:C];
      inversion H; subst; simpl; rewrite ?F, ?C; auto. }
  unfold sr_lydmods_sched_apply. intros H Ch. bind_as H st4 H4.
  destruct (st_fail st4) eqn:F4.
  { destruct (Hc _ _ _ _ H) as [_ C]. rewrite F4 in C. simpl in C. congruence. }
  destruct (st_change st4) eqn:C4.
  2:{ destruct (Hc _ _ _ _ H) as [_ C]. rewrite F4, C4 in C. simpl in C. congruence. }
  bind_as H st5 H5. destruct (st_fail st5) eqn:F5.
  { destruct (Hc _ _ _ _ H) as [_ C]. rewrite F5 in C. simpl in C. congruence. }
  bind_as H ud H6. destruct ud as [fs' st6]. simpl in H.
  destruct (st_fail st6) eqn:F6.
  { destruct (Hc _ _ _ _ H) as [_ C]. rewrite F6 in C. simpl in C. congruence. }
  bind_as H c Hcm. bind_as H sr_mods' Hr.
  destruct (Hc _ _ _ _ H) as [-> _].
  apply commit_loop_modules in Hcm.
  2:{ simpl. exists [], sr_mods, []. rewrite app_nil_r. auto. }
  apply rebuild_deps_loop_all in Hr; [exact Hr | lia | exact Hcm |].
  intros j e Hj. lia.
Qed.

End Commit.

Lemma sched_apply_commits_all_entries_witness :
  let sr_mods := [Toy.module_entry "a" []; Toy.installed_entry "b" [n_module_yang "b"]] in
  exists r,
    @sr_lydmods_sched_apply Toy.SE_ab Toy.DS_ab sr_mods [] Toy.no_files = Ok r
    /\ r_change r = true
    /\ forallb (fun m => is_module m && has_deps (sm_child m)) (r_mods r) = true.
Proof.
  intros sr_mods.
  destruct (@sr_lydmods_sched_apply Toy.SE_ab Toy.DS_ab sr_mods [] Toy.no_files)
    as [r| |] eqn:E; try (vm_compute in E; discriminate).
  assert (C : r_change r = true) by (vm_compute in E; inversion E; reflexivity).
  exists r. split; [reflexivity |]. split; [exact C |].
  exact (@sched_apply_commits_all_entries Toy.SE_ab Toy.DS_ab sr_mods [] Toy.no_files r E C).
Defined.

(** *** Scheduling and unscheduling a deletion *)

Lemma unsched_del_unmarked_noop (ly_mod : lys_module) :
  forall sr_mods,
    (forall m', implemented_imports_rec ly_mod m' ->
                module_children sr_mods (ly_name m') is_removed = []) ->
    sr_lydmods_unsched_del_module_r sr_mods ly_mod false = Ok sr_mods.
Proof.
  induction ly_mod as [hdr feats data rpcs notifs imports includes IHi _]
    using lys_module_forall_ind.
  intros sr_mods Hnone. simpl.
  pose proof (Hnone _ (implemented_self _)) as Hown. unfold ly_name in Hown. simpl in Hown.
  rewrite Hown. simpl.
  assert (Himp : forall i, In i imports -> ly_implemented i = true ->
                   forall m', implemented_imports_rec i m' ->
                              module_children sr_mods (ly_name m') is_removed = []).
  { intros i Hi Ki m' R. apply Hnone. eapply implemented_import; eauto. }
  clear Hnone Hown. induction IHi as [|i l Hi _ IH]; [reflexivity |].
  destruct (ly_implemented i) eqn:Ki.
  - rewrite (Hi sr_mods (Himp i (or_introl eq_refl) Ki)). simpl.
    apply IH. intros j Hj. apply Himp. now right.
  - apply IH. intros j Hj. apply Himp. now right.
Qed.

Section ScheduleDelProps.
Context {SE : SchemaEngine} {DS : Datastore SE}.

(** X25. With the registry loaded, for a module that has a [module] entry
    and is not scheduled for deletion, and whose implemented imports, as
    far as they reach, are not either: scheduling the deletion writes the
    tree with the marker [removed] added to the entry of the module, and
    unscheduling the deletion on that tree writes the tree as it was
    before. *)
Theorem sched_delete_unsched_round_trip (fs : files) (ctx : ly_ctx) (sr_mods : sr_mods_t)
    (ly_mod : lys_module) :
  sr_lydmods_parse fs ctx = Ok sr_mods ->
  existsb (is_module_named (ly_name ly_mod)) sr_mods = true ->
  (forall m', implemented_imports_rec ly_mod m' ->
              module_children sr_mods (ly_name m') is_removed = []) ->
  let marked := new_path_module_child sr_mods (ly_name ly_mod) n_removed in
  sr_lydmods_deferred_del_module fs ctx (ly_name ly_mod) = sr_lydmods_print fs marked
  /\ forall fs', sr_lydmods_parse fs' ctx = Ok marked ->
       sr_lydmods_unsched_del_module_with_imps fs' ctx ly_mod
       = sr_lydmods_print fs' sr_mods.
Proof.
  intros P Hex Hnone marked.
  pose proof (Hnone _ (implemented_self _)) as Hown.
  destruct (new_then_free_module_child sr_mods (ly_name ly_mod) n_removed is_removed
              Hex Hown eq_refl) as [E1 E2].
  fold marked in E1, E2. split.
  - unfold sr_lydmods_deferred_del_module.
    apply (parse_change_print_ok fs ctx sr_mods); [exact P |]. now rewrite Hown.
  - intros fs' P'. unfold sr_lydmods_unsched_del_module_with_imps.
    apply (parse_change_print_ok fs' ctx marked); [exact P' |].
    destruct ly_mod as [hdr feats data rpcs notifs imports includes].
    unfold ly_name in E1, E2. simpl in E1, E2. simpl. rewrite E1, E2. simpl.
    assert (Himp : forall i, In i imports -> ly_implemented i = true ->
                     forall m', implemented_imports_rec i m' ->
                                module_children sr_mods (ly_name m') is_removed = []).
    { intros i Hi Ki m' R. apply Hnone. eapply implemented_import; eauto. }
    clear - Himp. induction imports as [|i l IH]; [reflexivity |].
    destruct (ly_implemented i) eqn:Ki.
    + rewrite (unsched_del_unmarked_noop i sr_mods (Himp i (or_introl eq_refl) Ki)). simpl.
      apply IH. intros j Hj. apply Himp. now right.
    + apply IH. intros j Hj. apply Himp. now right.
Qed.

End ScheduleDelProps.

Lemma sched_delete_unsched_round_trip_witness :
  let sr_mods := [Toy.module_entry "a" [n_revision "r"]; Toy.module_entry "b" []] in
  let marked := [Toy.module_entry "a" [n_revision "r"; n_removed];
                 Toy.module_entry "b" []] in
  let fs := {| Toy.f_startup := []; Toy.f_running := []; Toy.f_yang := [];
               Toy.f_registry := Some sr_mods |} in
  @sr_lydmods_deferred_del_module Toy.SE_ab Toy.DS_ab fs [] "a"
  = @sr_lydmods_print Toy.SE_ab Toy.DS_ab fs marked
  /\ forall fs', @sr_lydmods_parse Toy.SE_ab Toy.DS_ab fs' [] = Ok marked ->
       @sr_lydmods_unsched_del_module_with_imps Toy.SE_ab Toy.DS_ab fs' [] Toy.mod_a
       = @sr_lydmods_print Toy.SE_ab Toy.DS_ab fs' sr_mods.
Proof.
  intros sr_mods marked fs.
  apply (@sched_delete_unsched_round_trip Toy.SE_ab Toy.DS_ab fs [] sr_mods Toy.mod_a);
    [reflexivity | reflexivity |].
  intros m' R.
  inversion R as [m0 | m0 i m1 Hi Ki Ri]; subst; [reflexivity |].
  destruct Hi as [<- | []].
  inversion Ri as [m0 | m0 i m1 Hi' Ki' Ri']; subst; [reflexivity | destruct Hi'].
Defined.
